(** * wpca: Expectation-Maximization PCA ([wpca/empca.py])

    A shallow embedding of [wpca/empca.py] and the properties of its
    specification.

    - Scalars are an interface ([Scalar]); the instance [float64] is IEEE
      binary64 (Rocq's primitive floats), the element type of the NumPy
      arrays the program works on.
    - A two-dimensional NumPy array is a record of its shape and its rows;
      NumPy's broadcasting and the exceptions it raises on shape mismatch
      are written out.  Sums ([np.dot], [sum], [mean], [var]) accumulate in
      index order from zero.
    - Estimator attributes are state: the methods run in a state and
      exception monad over the estimator, once on array values and once
      over a store of arrays with references, where aliasing is visible.
    - Python exceptions are the [Raise] case of [result].
    - The module [wpca/utils.py] ([orthonormalize], [random_orthonormal],
      [solve_weighted]) is imported by [empca.py] and is an interface here
      ([Utils]). *)

From Stdlib Require Import PrimFloat FloatAxioms.
From stdpp Require Import base option list gmap.

Set Default Proof Using "Type*".

(** ** Exceptions and results *)

Inductive exn : Type :=
  | AssertionError
  | ValueError
  | IndexError
  | AttributeError
  | SystemError
  | DimensionError
  | RankDeficiencyError
  | SingularSystemError.

Inductive result (A : Type) : Type :=
  | Ok (a : A)
  | Raise (e : exn).
Arguments Ok {A} a.
Arguments Raise {A} e.

#[global] Instance exn_eq_dec : EqDecision exn.
Proof. solve_decision. Defined.

#[global] Instance result_ret : MRet result := fun A a => Ok a.
#[global] Instance result_bind : MBind result := fun A B f m =>
  match m with
  | Ok a => f a
  | Raise e => Raise e
  end.
#[global] Instance result_fmap : FMap result := fun A B f m =>
  match m with
  | Ok a => Ok (f a)
  | Raise e => Raise e
  end.

#[global] Instance result_eq_dec {A} `{!EqDecision A} : EqDecision (result A).
Proof. solve_decision. Defined.

(** A Python [for x in xs: acc = body(x, acc)] whose body may raise. *)
Fixpoint for_each {A B} (body : B → A → result A) (xs : list B) (acc : A)
    : result A :=
  match xs with
  | [] => Ok acc
  | x :: xs' => acc' ← body x acc; for_each body xs' acc'
  end.

(** A list comprehension [[f(x) for x in xs]] whose element may raise. *)
Fixpoint comprehension {A B} (f : B → result A) (xs : list B)
    : result (list A) :=
  match xs with
  | [] => Ok []
  | x :: xs' => y ← f x; ys ← comprehension f xs'; Ok (y :: ys)
  end.

(** ** Scalars *)

Class Scalar (F : Type) : Type := {
  s_zero : F;
  s_one : F;
  s_add : F → F → F;
  s_sub : F → F → F;
  s_mul : F → F → F;
  s_div : F → F → F;
  (** conversion of a Python [int] (a count) to the element type *)
  s_of_nat : nat → F;
  (** the comparison [x == 0] *)
  s_is_zero : F → bool
}.

(** ** NumPy arrays *)

Section numpy.
Context {F : Type} `{!Scalar F}.

(** A one-dimensional array is the list [list F] of its elements. *)

(** A two-dimensional array: [shape = (nrows, ncols)] and the rows. *)
Record ndarray : Type := NDArray {
  nrows : nat;
  ncols : nat;
  cells : list (list F)
}.

#[global] Instance ndarray_eq_dec `{!EqDecision F} : EqDecision ndarray.
Proof. solve_decision. Defined.

Definition shape (a : ndarray) : nat * nat := (nrows a, ncols a).

(** The arrays NumPy can build: as many rows as the shape says, each of
    the width the shape says. *)
Definition wf (a : ndarray) : Prop :=
  length (cells a) = nrows a ∧ Forall (λ r, length r = ncols a) (cells a).

#[global] Instance wf_dec a : Decision (wf a).
Proof. unfold wf. apply _. Defined.

Definition entry (a : ndarray) (i j : nat) : F :=
  default s_zero (cells a !! i ≫= λ r, r !! j).

(** The column [a[:, j]] as a list. *)
Definition column (j : nat) (a : ndarray) : list F :=
  (λ r, default s_zero (r !! j)) <$> cells a.

(** *** Broadcasting *)

(** Two extents are compatible when equal or when one of them is 1. *)
Definition bdim (m n : nat) : result nat :=
  if decide (m = n) then Ok m
  else if decide (m = 1) then Ok n
  else if decide (n = 1) then Ok m
  else Raise ValueError.

(** Repeat a list of one element to the extent [n]. *)
Definition stretch {A} (n : nat) (l : list A) : list A :=
  if decide (length l = n) then l
  else match l with
       | [x] => replicate n x
       | _ => l
       end.

Definition broadcast_to (r c : nat) (a : ndarray) : list (list F) :=
  stretch r (stretch c <$> cells a).

(** An elementwise binary operator on two 2-d arrays ([a * b], [a - b],
    [a / b]). *)
Definition elementwise (op : F → F → F) (a b : ndarray) : result ndarray :=
  r ← bdim (nrows a) (nrows b);
  c ← bdim (ncols a) (ncols b);
  Ok (NDArray r c
        (zip_with (zip_with op) (broadcast_to r c a) (broadcast_to r c b))).

(** The same on two 1-d arrays. *)
Definition elementwise1 (op : F → F → F) (u v : list F) : result (list F) :=
  c ← bdim (length u) (length v);
  Ok (zip_with op (stretch c u) (stretch c v)).

(** A 1-d array of shape [(d,)] broadcasts against 2-d arrays as
    [(1, d)]. *)
Definition as_row (v : list F) : ndarray := NDArray 1 (length v) [v].

(** [s * a] for a Python scalar [s]. *)
Definition scalar_mul (s : F) (a : ndarray) : ndarray :=
  NDArray (nrows a) (ncols a) (fmap (M:=list) (s_mul s) <$> cells a).

(** [a ** 2]: NumPy evaluates the power 2 as the square [x * x]. *)
Definition square (a : ndarray) : ndarray :=
  NDArray (nrows a) (ncols a) (fmap (M:=list) (λ x, s_mul x x) <$> cells a).

(** [v / n] for a count [n]. *)
Definition div_count (v : list F) (n : nat) : list F :=
  (λ x, s_div x (s_of_nat n)) <$> v.

(** *** Reductions *)

Definition vadd (u v : list F) : list F := zip_with s_add u v.

(** [a.sum(0)]: the rows added up in order, from the first row (from
    zeros when there is no row). *)
Definition sum0 (a : ndarray) : list F :=
  match cells a with
  | [] => replicate (ncols a) s_zero
  | r :: rs => foldl vadd r rs
  end.

(** [v.sum()] *)
Definition vsum (v : list F) : F :=
  match v with
  | [] => s_zero
  | x :: xs => foldl s_add x xs
  end.

(** [a.mean(0)]: the sum over axis 0 divided by the number of rows. *)
Definition mean0 (a : ndarray) : list F := div_count (sum0 a) (nrows a).

(** [a.var(0)]: NumPy subtracts the mean over axis 0 (kept as a row),
    squares, sums over axis 0 and divides by the number of rows. *)
Definition var0 (a : ndarray) : result (list F) :=
  x ← elementwise s_sub a (as_row (mean0 a));
  Ok (div_count (sum0 (square x)) (nrows a)).

(** *** Products *)

(** [u . v]: the products accumulated from zero in index order. *)
Definition inner (u v : list F) : F :=
  foldl (λ acc xy, s_add acc (s_mul xy.1 xy.2)) s_zero (zip u v).

(** [np.dot(a, b)] of two 2-d arrays; the inner extents must agree. The
    entry (i, j) is the inner product of row i of [a] and column j of
    [b]. *)
Definition dot (a b : ndarray) : result ndarray :=
  if decide (ncols a = nrows b)
  then Ok (NDArray (nrows a) (ncols b)
             ((λ ra, (λ j, inner ra (column j b)) <$> seq 0 (ncols b))
                <$> cells a))
  else Raise ValueError.

(** [a.T] *)
Definition transpose (a : ndarray) : ndarray :=
  NDArray (ncols a) (nrows a)
    ((λ j, column j a) <$> seq 0 (ncols a)).

(** [np.dot(a, a.T).diagonal()] and the like: the diagonal of a product. *)
Definition diagonal (a : ndarray) : list F :=
  (λ i, entry a i i) <$> seq 0 (min (nrows a) (ncols a)).

(** *** Indexing *)

(** [a[:i]] *)
Definition rows_to (i : nat) (a : ndarray) : ndarray :=
  NDArray (min i (nrows a)) (ncols a) (take i (cells a)).

(** [a[:, :i]] *)
Definition cols_to (i : nat) (a : ndarray) : ndarray :=
  NDArray (nrows a) (min i (ncols a)) (take i <$> cells a).

(** [a[:, i:i + 1]] *)
Definition col_at (i : nat) (a : ndarray) : ndarray :=
  NDArray (nrows a) (min 1 (ncols a - i)) ((λ r, take 1 (drop i r)) <$> cells a).

(** [a[i]] for a non-negative [i]. *)
Definition get_row (i : nat) (a : ndarray) : result (list F) :=
  match cells a !! i with
  | Some r => Ok r
  | None => Raise IndexError
  end.

(** Broadcasting of the right-hand side of an assignment to a target of
    shape [(r, c)]: each extent must be the target's or 1. *)
Definition assignable (r c : nat) (v : ndarray) : bool :=
  bool_decide ((nrows v = r ∨ nrows v = 1) ∧ (ncols v = c ∨ ncols v = 1)).

(** [a[i] = v] where [v] is a 2-d array: the target has shape
    [(ncols a,)], so [v] must have exactly one row. *)
Definition set_row (i : nat) (v : ndarray) (a : ndarray) : result ndarray :=
  if decide (i < nrows a) then
    if assignable 1 (ncols a) v then
      Ok (NDArray (nrows a) (ncols a)
            (<[i := stretch (ncols a) (default [] (cells v !! 0))]> (cells a)))
    else Raise ValueError
  else Raise IndexError.

(** [a[i] = v] where [v] is a 1-d array. *)
Definition set_row1 (i : nat) (v : list F) (a : ndarray) : result ndarray :=
  if decide (i < nrows a) then
    if decide (length v = ncols a ∨ length v = 1) then
      Ok (NDArray (nrows a) (ncols a) (<[i := stretch (ncols a) v]> (cells a)))
    else Raise ValueError
  else Raise IndexError.

(** [a[:i] = v] *)
Definition set_rows_to (i : nat) (v : ndarray) (a : ndarray) : result ndarray :=
  let r := min i (nrows a) in
  if assignable r (ncols a) v then
    Ok (NDArray (nrows a) (ncols a)
          (broadcast_to r (ncols a) v ++ drop r (cells a)))
  else Raise ValueError.

(** [a[w == 0] = 0]: a boolean index must have the shape of the array. *)
Definition zero_where_zero (w : ndarray) (a : ndarray) : result ndarray :=
  if decide (shape w = shape a) then
    Ok (NDArray (nrows a) (ncols a)
          (zip_with (zip_with (λ x wx, if s_is_zero wx then s_zero else x))
                    (cells a) (cells w)))
  else Raise IndexError.

(** [np.array(rows)] of a list of 1-d arrays of one length. (For an empty
    list NumPy builds a 1-d array of no element; here it is the 2-d array
    of no row, with which the operations that NumPy refuses on a 1-d
    array return. The list is empty in [empca.py] when a weighted E-step
    is given no sample; what is stated about calls that raise excludes
    that case.) *)
Definition np_array (rows : list (list F)) : result ndarray :=
  match rows with
  | [] => Ok (NDArray 0 0 [])
  | r :: _ =>
      if bool_decide (Forall (λ r', length r' = length r) rows)
      then Ok (NDArray (length rows) (length r) rows)
      else Raise ValueError
  end.

(** [a op b] where [b] has a single column, which is repeated over the
    columns of [a]. *)
Definition with_column (op : F → F → F) (a b : ndarray) : ndarray :=
  NDArray (nrows a) (ncols a)
    (zip_with (λ ra rb, (λ x, op x (default s_zero (rb !! 0))) <$> ra)
              (cells a) (cells b)).

(** The identity matrix, and orthonormality of the rows of an array to
    a tolerance: the Gram matrix of the rows has every entry [close] to
    the entry of the identity. *)
Definition eye (n : nat) : ndarray :=
  NDArray n n
    ((λ i, (λ j, if decide (i = j) then s_one else s_zero) <$> seq 0 n)
       <$> seq 0 n).

Definition orthonormal_within (close : F → F → Prop) (a : ndarray)
    : Prop :=
  match dot a (transpose a) with
  | Ok g =>
      ∀ i j, i < nrows a → j < nrows a →
             close (entry g i j) (entry (eye (nrows a)) i j)
  | Raise _ => False
  end.

#[global] Instance orthonormal_within_dec close `{!RelDecision close} a :
  Decision (orthonormal_within close a).
Proof.
  unfold orthonormal_within. destruct (dot a (transpose a)) as [g|e].
  - destruct (decide
                (Forall (λ i,
                   Forall (λ j, close (entry g i j)
                                      (entry (eye (nrows a)) i j))
                          (seq 0 (nrows a)))
                   (seq 0 (nrows a)))) as [H|H].
    + left. intros i j Hi Hj.
      rewrite Forall_forall in H. specialize (H i).
      rewrite Forall_forall in H. apply H; apply elem_of_seq; lia.
    + right. intros H'. apply H.
      apply Forall_forall. intros i Hi. apply Forall_forall. intros j Hj.
      apply elem_of_seq in Hi, Hj. apply H'; lia.
  - right. intros [].
Defined.

(** [np.zeros((n, k))] *)
Definition np_zeros (n k : nat) : ndarray :=
  NDArray n k (replicate n (replicate k s_zero)).

End numpy.

Arguments ndarray F : clear implicits.

(** ** The module [wpca/utils.py]

    [empca.py] imports three functions from [utils.py]; they are the
    interface [Utils]. [random_state] is the seed argument; the draw is a
    function of it. (Without a seed NumPy draws afresh at every call:
    for [None] the function is the draw of the one call looked at, and
    what compares two calls is stated for a seed.) *)

Class Utils (F : Type) `{!Scalar F} : Type := {
  orthonormalize : ndarray F → result (ndarray F);
  random_orthonormal : nat → nat → option nat → result (ndarray F);
  solve_weighted : ndarray F → list F → list F → result (list F)
}.

(** ** Computations with state and exceptions *)

Section state.
Context {S : Type}.

(** Computations that read and write a state and may raise; what was
    written before an exception stays written. *)
Definition ST (A : Type) : Type := S → S * result A.

#[global] Instance ST_ret : MRet ST := λ A a s, (s, Ok a).
#[global] Instance ST_bind : MBind ST := λ A B f m s,
  match m s with
  | (s', Ok a) => f a s'
  | (s', Raise e) => (s', Raise e)
  end.

Definition lift {A} (r : result A) : ST A := λ s, (s, r).

(** [for x in xs: acc = body(x, acc)] with state. *)
Fixpoint for_eachM {A B} (body : B → A → ST A) (xs : list B) (acc : A)
    : ST A :=
  match xs with
  | [] => mret acc
  | x :: xs' => acc' ← body x acc; for_eachM body xs' acc'
  end.

End state.

Arguments ST S A : clear implicits.

(** ** The estimator object *)

Section estimator.
(** [Arr] is what an attribute that holds a 2-d array is: the array
    itself, or the location of the array object in a store. *)
Context {F Arr : Type}.

(** An [EMPCA] instance: the constructor's parameters and the attributes
    [fit_transform] sets ([None] while the attribute does not exist). *)
Record EMPCA : Type := Build_EMPCA {
  n_components : nat;
  max_iter : nat;
  random_state : option nat;
  mean_ : option (list F);
  components_ : option Arr;
  explained_variance_ : option (list F);
  explained_variance_ratio_ : option (list F)
}.

(** [EMPCA(n_components, max_iter=100, random_state=None)] *)
Definition __init__ (n : nat) (iters : nat) (seed : option nat) : EMPCA :=
  Build_EMPCA n iters seed None None None None.

Definition set_mean_ (v : list F) (o : EMPCA) : EMPCA :=
  Build_EMPCA (n_components o) (max_iter o) (random_state o)
    (Some v) (components_ o) (explained_variance_ o)
    (explained_variance_ratio_ o).
Definition set_components_ (a : Arr) (o : EMPCA) : EMPCA :=
  Build_EMPCA (n_components o) (max_iter o) (random_state o)
    (mean_ o) (Some a) (explained_variance_ o)
    (explained_variance_ratio_ o).
Definition set_explained_variance_ (v : list F) (o : EMPCA) : EMPCA :=
  Build_EMPCA (n_components o) (max_iter o) (random_state o)
    (mean_ o) (components_ o) (Some v) (explained_variance_ratio_ o).
Definition set_explained_variance_ratio_ (v : list F) (o : EMPCA) : EMPCA :=
  Build_EMPCA (n_components o) (max_iter o) (random_state o)
    (mean_ o) (components_ o) (explained_variance_ o) (Some v).

End estimator.

Arguments EMPCA F Arr : clear implicits.

(** ** The world of a call: arrays as values *)

(** The phases of the iteration, recorded when they are entered. *)
Inductive phase : Type := E_step | M_step.

#[global] Instance phase_eq_dec : EqDecision phase.
Proof. solve_decision. Defined.

Section world.
Context {F : Type}.

(** The world a call runs in: the estimator object it is a method of and
    the phases entered so far (most recent last). *)
Record world : Type := World {
  self : EMPCA F (ndarray F);
  trace : list phase
}.

Definition get_self : ST world (EMPCA F (ndarray F)) :=
  λ w, (w, Ok (self w)).
Definition set_self (f : EMPCA F (ndarray F) → EMPCA F (ndarray F))
    : ST world () :=
  λ w, (World (f (self w)) (trace w), Ok ()).
Definition enter (p : phase) : ST world () :=
  λ w, (World (self w) (trace w ++ [p]), Ok ()).

(** Reading an attribute that was never set raises [AttributeError]. *)
Definition getattr {A} (field : EMPCA F (ndarray F) → option A)
    : ST world A := λ w,
  match field (self w) with
  | Some a => (w, Ok a)
  | None => (w, Raise AttributeError)
  end.

(** A computation that leaves an attribute of the estimator as it is,
    whether it returns or raises. *)
Definition keeps {A B} (g : EMPCA F (ndarray F) → B) (m : ST world A) : Prop :=
  ∀ w, g (self (m w).1) = g (self w).

End world.

Arguments world F : clear implicits.

(** Computations in the world. *)
Abbreviation M F := (ST (world F)) (only parsing).

(** ** [class EMPCA] *)

Module EMPCA.
Section methods.
Context {F : Type} `{!Scalar F} `{!Utils F}.

(** [EMPCA._Estep(self, data, weights, eigvec)] *)
Definition _Estep (data : ndarray F) (weights : option (ndarray F))
    (eigvec : ndarray F) : result (ndarray F) :=
  match weights with
  | None => dot data (transpose eigvec)
  | Some w =>
      rows ← comprehension
               (λ i, di ← get_row i data;
                     wi ← get_row i w;
                     solve_weighted (transpose eigvec) di wi)
               (seq 0 (nrows data));
      np_array rows
  end.

(** [w2 * a] in [_Mstep], where [w2] is the integer 1 or [weights ** 2]. *)
Definition times_w2 (w2 : option (ndarray F)) (a : ndarray F)
    : result (ndarray F) :=
  match w2 with
  | None => Ok (scalar_mul s_one a)
  | Some w => elementwise s_mul w a
  end.

(** The body of the loop of [_Mstep] for the row index [i]. *)
Definition _Mstep_body (data : ndarray F) (w2 : option (ndarray F))
    (coeff : ndarray F) (i : nat) (eigvec : ndarray F)
    : result (ndarray F) :=
  p ← dot (cols_to i coeff) (rows_to i eigvec);
  d ← elementwise s_sub data p;
  let c := col_at i coeff in
  w2d ← times_w2 w2 d;
  num ← dot (transpose c) w2d;
  w2c ← times_w2 w2 c;
  den ← dot (transpose c) w2c;
  v ← elementwise s_div num den;
  eigvec ← set_row i v eigvec;
  o ← orthonormalize (rows_to (i + 1) eigvec);
  set_rows_to (i + 1) o eigvec.

(** [EMPCA._Mstep(self, data, weights, eigvec, coeff)]: [eigvec] is
    updated in place and returned. *)
Definition _Mstep (data : ndarray F) (weights : option (ndarray F))
    (eigvec coeff : ndarray F) : result (ndarray F) :=
  let w2 := square <$> weights in
  for_each (_Mstep_body data w2 coeff) (seq 0 (nrows eigvec)) eigvec.

(** The loop of [_Mstep] after the passes for the rows 0..j-1. *)
Definition _Mstep_upto (j : nat) (data : ndarray F)
    (weights : option (ndarray F)) (eigvec coeff : ndarray F)
    : result (ndarray F) :=
  let w2 := square <$> weights in
  for_each (_Mstep_body data w2 coeff) (seq 0 j) eigvec.

(** The weighted or plain mean over axis 0 that [fit_transform] stores
    in [mean_]. *)
Definition fit_mean (X : ndarray F) (weights : option (ndarray F))
    : result (list F) :=
  match weights with
  | None => Ok (mean0 X)
  | Some w =>
      XW ← elementwise s_mul X w;
      XW ← zero_where_zero w XW;
      elementwise1 s_div (sum0 XW) (sum0 w)
  end.

(** One pass of the loop of [fit_transform]. *)
Definition em_cycle (X_c : ndarray F) (weights : option (ndarray F))
    (eigvec : ndarray F) : M F (ndarray F) :=
  enter E_step;;
  coeff ← lift (_Estep X_c weights eigvec);
  enter M_step;;
  lift (_Mstep X_c weights eigvec coeff).

(** [EMPCA.fit_transform(self, X, weights=None)] *)
Definition fit_transform (X : ndarray F) (weights : option (ndarray F))
    : M F (ndarray F) :=
  mean ← lift (fit_mean X weights);
  set_self (set_mean_ mean);;
  X_c ← lift (elementwise s_sub X (as_row mean));
  o ← get_self;
  eigvec ← lift (random_orthonormal (n_components o) (ncols X)
                   (random_state o));
  o ← get_self;
  eigvec ← for_eachM (λ _ eigvec, em_cycle X_c weights eigvec)
             (seq 0 (max_iter o)) eigvec;
  enter E_step;;
  coeff ← lift (_Estep X_c weights eigvec);
  set_self (set_components_ eigvec);;
  g ← lift (dot (transpose coeff) coeff);
  let ev := div_count (diagonal g) (nrows X) in
  set_self (set_explained_variance_ ev);;
  ev ← getattr explained_variance_;
  var ← lift (var0 X_c);
  set_self (set_explained_variance_ratio_ ((λ x, s_div x (vsum var)) <$> ev));;
  mret coeff.

(** [EMPCA.fit(self, X, weights=None)] *)
Definition fit (X : ndarray F) (weights : option (ndarray F)) : M F () :=
  fit_transform X weights;; mret ().

(** [EMPCA.transform(self, X, weights=None)] *)
Definition transform (X : ndarray F) (weights : option (ndarray F))
    : M F (ndarray F) :=
  mean ← getattr mean_;
  X_c ← lift (elementwise s_sub X (as_row mean));
  components ← getattr components_;
  enter E_step;;
  lift (_Estep X_c weights components).

(** [EMPCA.inverse_transform(self, X)] *)
Definition inverse_transform (X : ndarray F) : M F (ndarray F) :=
  mean ← getattr mean_;
  components ← getattr components_;
  p ← lift (dot X components);
  lift (elementwise s_add (as_row mean) p).

(** [EMPCA.reconstruct(self, X, weights=None)] *)
Definition reconstruct (X : ndarray F) (weights : option (ndarray F))
    : M F (ndarray F) :=
  Y ← transform X weights;
  inverse_transform Y.

(** [EMPCA.fit_reconstruct(self, X, weights=None)] *)
Definition fit_reconstruct (X : ndarray F) (weights : option (ndarray F))
    : M F (ndarray F) :=
  Y ← fit_transform X weights;
  inverse_transform Y.

End methods.
End EMPCA.

(** ** The module-level functions *)

Section functions.
Context {F : Type} `{!Scalar F} `{!Utils F}.

(** [_Estep(eigvec, data, weights, coeff)]: [coeff] is updated in place,
    row by row, and returned. *)
Definition _Estep (eigvec data weights coeff : ndarray F)
    : result (ndarray F) :=
  for_each (λ i coeff,
              di ← get_row i data;
              wi ← get_row i weights;
              c ← solve_weighted (transpose eigvec) di wi;
              set_row1 i c coeff)
           (seq 0 (nrows data)) coeff.

(** [_Mstep(eigvec, data, weights, coeff)]: [eigvec] is updated in place
    and returned. *)
Definition _Mstep (eigvec data weights coeff : ndarray F)
    : result (ndarray F) :=
  let w2 := square weights in
  for_each (EMPCA._Mstep_body data (Some w2) coeff)
           (seq 0 (nrows eigvec)) eigvec.

(** One pass of the loop of [empca]: both arrays are updated in place. *)
Definition empca_cycle (data weights : ndarray F)
    (ec : ndarray F * ndarray F) : M F (ndarray F * ndarray F) :=
  enter E_step;;
  coeff ← lift (_Estep ec.1 data weights ec.2);
  enter M_step;;
  eigvec ← lift (_Mstep ec.1 data weights coeff);
  mret (eigvec, coeff).

(** [empca(data, weights, nvec, niter=25, random_state=None)] *)
Definition empca (data weights : ndarray F) (nvec niter : nat)
    (seed : option nat) : M F (ndarray F * ndarray F) :=
  (if decide (shape data = shape weights) then mret ()
   else lift (Raise AssertionError));;
  (if decide (nvec ≤ ncols data) then mret ()
   else lift (Raise AssertionError));;
  eigvec ← lift (random_orthonormal nvec (ncols data) seed);
  let coeff := np_zeros (nrows data) nvec in
  ec ← for_eachM (λ _ ec, empca_cycle data weights ec)
         (seq 0 niter) (eigvec, coeff);
  enter E_step;;
  coeff ← lift (_Estep ec.1 data weights ec.2);
  mret (ec.1, coeff).

End functions.

(** ** [class EMPCA] with the arrays as objects in a store

    The methods of the class once more, now with every name bound to the
    location of an array object. An operator or a function call allocates
    the array it returns; an indexed assignment [a[...] = v] writes to the
    object [a] is bound to; slices and transposes are views, read through
    the object they are views of. The helpers of [utils.py] are functions
    of the values they are passed. One-dimensional arrays are never
    assigned to in [empca.py] and stay values. *)

Definition loc : Type := positive.

Section store.
Context {F : Type}.

Record store : Type := Store {
  heap : gmap loc (ndarray F);
  this : EMPCA F loc
}.

(** A new array object. *)
Definition alloc (a : ndarray F) : ST store loc := λ σ,
  let l := fresh (dom (heap σ)) in
  (Store (<[l := a]> (heap σ)) (this σ), Ok l).

(** The value of an array object (a Python name is never bound to a
    location without an object; the model raises [SystemError]). *)
Definition load (l : loc) : ST store (ndarray F) := λ σ,
  match heap σ !! l with
  | Some a => (σ, Ok a)
  | None => (σ, Raise SystemError)
  end.

Definition load_opt (l : option loc) : ST store (option (ndarray F)) :=
  match l with
  | None => mret None
  | Some l => a ← load l; mret (Some a)
  end.

Definition overwrite (l : loc) (a : ndarray F) : ST store () := λ σ,
  (Store (<[l := a]> (heap σ)) (this σ), Ok ()).

(** An indexed assignment to the object at [l]. *)
Definition write (l : loc) (update : ndarray F → result (ndarray F))
    : ST store () :=
  a ← load l;
  a' ← lift (update a);
  overwrite l a'.

Definition get_this : ST store (EMPCA F loc) := λ σ, (σ, Ok (this σ)).
Definition set_this (f : EMPCA F loc → EMPCA F loc) : ST store () :=
  λ σ, (Store (heap σ) (f (this σ)), Ok ()).
Definition getattr_this {A} (field : EMPCA F loc → option A)
    : ST store A := λ σ,
  match field (this σ) with
  | Some a => (σ, Ok a)
  | None => (σ, Raise AttributeError)
  end.

(** Run from a store that holds the objects of [h] with their values,
    [m] ends, returning or raising, in a store that still does; what it
    returns satisfies [Q]. *)
Definition frames {A} (h : gmap loc (ndarray F)) (Q : A → Prop)
    (m : ST store A) : Prop :=
  ∀ σ, h ⊆ heap σ →
       h ⊆ heap (m σ).1 ∧ ∀ a, (m σ).2 = Ok a → Q a.

(** A location that is not one of the objects of [h]. *)
Definition new_in (h : gmap loc (ndarray F)) (l : loc) : Prop :=
  l ∉ dom h.

(** The attributes of the estimator with [components_] read through the
    store. *)
Definition deref (σ : store) : EMPCA F (ndarray F) :=
  let o := this σ in
  Build_EMPCA (n_components o) (max_iter o) (random_state o) (mean_ o)
    (components_ o ≫= λ l, heap σ !! l)
    (explained_variance_ o) (explained_variance_ratio_ o).

(** The value of an optional array argument, when its object exists. *)
Definition deref_opt (σ : store) (ol : option loc)
    : option (option (ndarray F)) :=
  match ol with
  | None => Some None
  | Some l => Some <$> heap σ !! l
  end.

(** From [σ] to [σ'] no object but the one at [l] has changed. *)
Definition unchanged_except (l : loc) (σ σ' : store) : Prop :=
  ∀ l' a, l' ≠ l → heap σ !! l' = Some a → heap σ' !! l' = Some a.

End store.

Arguments store F : clear implicits.

Module InStore.
Section methods.
Context {F : Type} `{!Scalar F} `{!Utils F}.

(** [EMPCA._Estep(self, data, weights, eigvec)]: the arrays are read and
    the coefficients are a new array. *)
Definition _Estep (data : loc) (weights : option loc) (eigvec : loc)
    : ST (store F) loc :=
  d ← load data;
  w ← load_opt weights;
  e ← load eigvec;
  r ← lift (EMPCA._Estep d w e);
  alloc r.

(** The body of the loop of [_Mstep] for the row index [i]. *)
Definition _Mstep_body (data : loc) (w2 : option loc) (eigvec coeff : loc)
    (i : nat) : ST (store F) () :=
  (* d = data - np.dot(coeff[:, :i], eigvec[:i]) *)
  D ← load data;
  C ← load coeff;
  E ← load eigvec;
  p ← lift (dot (cols_to i C) (rows_to i E));
  dv ← lift (elementwise s_sub D p);
  d ← alloc dv;
  (* c = coeff[:, i:i + 1] *)
  C ← load coeff;
  let c := col_at i C in
  (* eigvec[i] = np.dot(c.T, w2 * d) / np.dot(c.T, w2 * c) *)
  W2 ← load_opt w2;
  dv ← load d;
  w2d ← lift (EMPCA.times_w2 W2 dv);
  num ← lift (dot (transpose c) w2d);
  w2c ← lift (EMPCA.times_w2 W2 c);
  den ← lift (dot (transpose c) w2c);
  v ← lift (elementwise s_div num den);
  write eigvec (set_row i v);;
  (* eigvec[:i + 1] = orthonormalize(eigvec[:i + 1]) *)
  E ← load eigvec;
  o ← lift (orthonormalize (rows_to (i + 1) E));
  write eigvec (set_rows_to (i + 1) o).

(** [EMPCA._Mstep(self, data, weights, eigvec, coeff)]: the object
    [eigvec] is written to and returned. *)
Definition _Mstep (data : loc) (weights : option loc) (eigvec coeff : loc)
    : ST (store F) loc :=
  w2 ← match weights with
        | None => mret None
        | Some lw => W ← load lw; l ← alloc (square W); mret (Some l)
        end;
  E ← load eigvec;
  for_eachM (λ i _, _Mstep_body data w2 eigvec coeff i)
            (seq 0 (nrows E)) ();;
  mret eigvec.

(** [EMPCA.fit_transform(self, X, weights=None)] *)
Definition fit_transform (X : loc) (weights : option loc)
    : ST (store F) loc :=
  mean ← match weights with
          | None => x ← load X; mret (mean0 x)
          | Some lw =>
              x ← load X;
              W ← load lw;
              xw ← lift (elementwise s_mul x W);
              XW ← alloc xw;
              W ← load lw;
              write XW (zero_where_zero W);;
              xw ← load XW;
              W ← load lw;
              lift (elementwise1 s_div (sum0 xw) (sum0 W))
          end;
  set_this (set_mean_ mean);;
  x ← load X;
  mean ← getattr_this mean_;
  xc ← lift (elementwise s_sub x (as_row mean));
  X_c ← alloc xc;
  o ← get_this;
  x ← load X;
  e0 ← lift (random_orthonormal (n_components o) (ncols x)
               (random_state o));
  eigvec ← alloc e0;
  o ← get_this;
  eigvec ← for_eachM
             (λ _ eigvec,
                coeff ← _Estep X_c weights eigvec;
                _Mstep X_c weights eigvec coeff)
             (seq 0 (max_iter o)) eigvec;
  coeff ← _Estep X_c weights eigvec;
  set_this (set_components_ eigvec);;
  c ← load coeff;
  g ← lift (dot (transpose c) c);
  x ← load X;
  set_this (set_explained_variance_ (div_count (diagonal g) (nrows x)));;
  ev ← getattr_this explained_variance_;
  xc ← load X_c;
  var ← lift (var0 xc);
  set_this (set_explained_variance_ratio_
              ((λ x, s_div x (vsum var)) <$> ev));;
  mret coeff.

(** [EMPCA.fit(self, X, weights=None)] *)
Definition fit (X : loc) (weights : option loc) : ST (store F) () :=
  fit_transform X weights;; mret ().

(** [EMPCA.transform(self, X, weights=None)] *)
Definition transform (X : loc) (weights : option loc)
    : ST (store F) loc :=
  x ← load X;
  mean ← getattr_this mean_;
  xc ← lift (elementwise s_sub x (as_row mean));
  X_c ← alloc xc;
  components ← getattr_this components_;
  _Estep X_c weights components.

(** [EMPCA.inverse_transform(self, X)] *)
Definition inverse_transform (X : loc) : ST (store F) loc :=
  mean ← getattr_this mean_;
  x ← load X;
  components ← getattr_this components_;
  c ← load components;
  p ← lift (dot x c);
  r ← lift (elementwise s_add (as_row mean) p);
  alloc r.

(** [EMPCA.reconstruct(self, X, weights=None)] *)
Definition reconstruct (X : loc) (weights : option loc)
    : ST (store F) loc :=
  Y ← transform X weights;
  inverse_transform Y.

(** [EMPCA.fit_reconstruct(self, X, weights=None)] *)
Definition fit_reconstruct (X : loc) (weights : option loc)
    : ST (store F) loc :=
  Y ← fit_transform X weights;
  inverse_transform Y.

End methods.
End InStore.

(** ** The specification's formulas

    The quantities of the specification, feature by feature, to be
    compared with what the code computes. *)

Section spec.
Context {F : Type} `{!Scalar F}.

(** The product [x * w] of a measurement and its weight, forced to 0
    where the weight is zero. *)
Definition masked_product (x w : F) : F :=
  if s_is_zero w then s_zero else s_mul x w.

(** The weighted mean of every feature:
    [sum_i (W[i,j] * X[i,j]) / sum_i W[i,j]]. *)
Definition weighted_mean (X W : ndarray F) : list F :=
  (λ j, s_div (vsum (zip_with masked_product (column j X) (column j W)))
              (vsum (column j W)))
    <$> seq 0 (ncols X).

(** The ordinary mean of every feature. *)
Definition column_mean (X : ndarray F) : list F :=
  (λ j, s_div (vsum (column j X)) (s_of_nat (nrows X))) <$> seq 0 (ncols X).

(** *** Explained variance (section 4.4, outputs) *)

(** The diagonal of [coeff^T coeff]. *)
Definition gram_diagonal (coeff : ndarray F) : list F :=
  (λ j, inner (column j coeff) (column j coeff)) <$> seq 0 (ncols coeff).

(** The variance of one feature over [n] samples. *)
Definition feature_variance (n : nat) (xs : list F) : F :=
  let m := s_div (vsum xs) (s_of_nat n) in
  s_div (vsum ((λ x, s_mul (s_sub x m) (s_sub x m)) <$> xs)) (s_of_nat n).

(** The variance of every feature, summed over the features. *)
Definition total_variance (X_c : ndarray F) : F :=
  vsum ((λ j, feature_variance (nrows X_c) (column j X_c))
          <$> seq 0 (ncols X_c)).

(** *** The iteration policy (section 4.4) *)

(** [n] E-step/M-step cycles, then one final E-step. *)
Definition fixed_budget (n : nat) : list phase :=
  concat (replicate n [E_step; M_step]) ++ [E_step].

(** *** The M-step, row by row (section 4.4)

    [updated] holds the rows 0..i-1 already updated, so [i] is its
    number of rows. *)

(** Feature [j] of the deflated residual: the data minus the
    reconstruction from the updated rows and their coefficient
    columns. *)
Definition residual_column (data coeff updated : ndarray F) (j : nat)
    : list F :=
  zip_with s_sub (column j data)
    ((λ cs, inner (take (nrows updated) cs) (column j updated))
       <$> cells coeff).

(** The weighted least-squares fit of feature [j] of the residual [r]
    against the coefficient column [c], with the squared weights [wj] of
    the feature (the factor 1 when unweighted). *)
Definition wls_entry (wj : option (list F)) (c r : list F) : F :=
  match wj with
  | Some wj =>
      s_div (inner c (zip_with s_mul wj r)) (inner c (zip_with s_mul wj c))
  | None =>
      s_div (inner c (s_mul s_one <$> r)) (inner c (s_mul s_one <$> c))
  end.

Definition wls_row (data : ndarray F) (w2 : option (ndarray F))
    (coeff updated : ndarray F) : list F :=
  (λ j, wls_entry (column j <$> w2) (column (nrows updated) coeff)
                  (residual_column data coeff updated j))
    <$> seq 0 (ncols data).

Definition append_row (a : ndarray F) (v : list F) : ndarray F :=
  NDArray (nrows a + 1) (ncols a) (cells a ++ [v]).

(** [k] more rows: each is computed from the rows updated so far, and
    the rows including it are orthonormalized before the next. *)
Fixpoint Mstep_rows `{!Utils F} (data : ndarray F) (w2 : option (ndarray F))
    (coeff : ndarray F) (k : nat) (updated : ndarray F)
    : result (ndarray F) :=
  match k with
  | O => Ok updated
  | S k' =>
      o ← orthonormalize
            (append_row updated (wls_row data w2 coeff updated));
      Mstep_rows data w2 coeff k' o
  end.

Definition Mstep_by_rows `{!Utils F} (data : ndarray F)
    (weights : option (ndarray F)) (coeff : ndarray F) (k : nat)
    : result (ndarray F) :=
  Mstep_rows data (square <$> weights) coeff k (NDArray 0 (ncols data) []).

(** The shapes [_Mstep] is called with: [data] is n x d, [coeff] is
    n x k, [eigvec] is k x d, and the squared weights, when there are
    any, are n x d. *)
Definition Mstep_shapes (data : ndarray F) (w2 : option (ndarray F))
    (coeff eigvec : ndarray F) : Prop :=
  wf data ∧ wf coeff ∧ wf eigvec ∧
  nrows coeff = nrows data ∧ ncols coeff = nrows eigvec ∧
  ncols eigvec = ncols data ∧
  match w2 with
  | Some w => wf w ∧ shape w = shape data
  | None => True
  end.

(** The basis after [n] cycles. *)
Fixpoint em_cycles `{!Utils F} (X_c : ndarray F) (weights : option (ndarray F))
    (n : nat) (eigvec : ndarray F) : result (ndarray F) :=
  match n with
  | O => Ok eigvec
  | S n' =>
      coeff ← EMPCA._Estep X_c weights eigvec;
      eigvec' ← EMPCA._Mstep X_c weights eigvec coeff;
      em_cycles X_c weights n' eigvec'
  end.

(** The basis and the coefficients after [n] passes of the loop of the
    function [empca]. *)
Fixpoint empca_cycles `{!Utils F} (data weights : ndarray F) (n : nat)
    (ec : ndarray F * ndarray F) : result (ndarray F * ndarray F) :=
  match n with
  | O => Ok ec
  | S n' =>
      coeff ← _Estep ec.1 data weights ec.2;
      eigvec ← _Mstep ec.1 data weights coeff;
      empca_cycles data weights n' (eigvec, coeff)
  end.

(** What a fit computes, as one computation on values: the attributes
    the estimator ends with and the coefficients returned. *)
Definition fit_values `{!Utils F} (X : ndarray F)
    (weights : option (ndarray F)) (k iters : nat) (seed : option nat)
    : result (EMPCA F (ndarray F) * ndarray F) :=
  mean ← EMPCA.fit_mean X weights;
  X_c ← elementwise s_sub X (as_row mean);
  eigvec0 ← random_orthonormal k (ncols X) seed;
  eigvec ← em_cycles X_c weights iters eigvec0;
  coeff ← EMPCA._Estep X_c weights eigvec;
  g ← dot (transpose coeff) coeff;
  var ← var0 X_c;
  let ev := div_count (diagonal g) (nrows X) in
  Ok (Build_EMPCA k iters seed (Some mean) (Some eigvec) (Some ev)
        (Some ((λ x, s_div x (vsum var)) <$> ev)),
      coeff).

(** Modelled from the spec: the contract of the Orthonormalizer
    ([utils.orthonormalize], section 4.2; [wpca/utils.py] is not among
    the sources): for m vectors of dimension d it returns m vectors of
    dimension d. *)
Definition orthonormalize_keeps_shape `{!Utils F} : Prop :=
  ∀ a o, wf a → orthonormalize a = Ok o → wf o ∧ shape o = shape a.


(** Modelled from the spec: the contract of the Orthonormal Basis
    Initializer ([utils.random_orthonormal], section 4.1; [wpca/utils.py]
    is not among the sources): for [k] and [d] it returns a k x d
    matrix. *)
Definition random_orthonormal_shape `{!Utils F} : Prop :=
  ∀ k d seed e, random_orthonormal k d seed = Ok e → wf e ∧ shape e = (k, d).

(** Modelled from the spec: the contract of the Weighted Least-Squares
    Solver ([utils.solve_weighted], section 4.3), which [empca.py] calls
    with the transposed basis, d x k: the coefficient vector it returns
    has length k. *)
Definition solve_weighted_length `{!Utils F} : Prop :=
  ∀ A x w c, solve_weighted A x w = Ok c → length c = ncols A.

End spec.

(** ** IEEE binary64 scalars *)

Module float64.

Fixpoint of_nat (n : nat) : float :=
  match n with
  | O => 0%float
  | S n' => (of_nat n' + 1)%float
  end.

#[global] Instance scalar : Scalar float := {|
  s_zero := 0%float;
  s_one := 1%float;
  s_add := PrimFloat.add;
  s_sub := PrimFloat.sub;
  s_mul := PrimFloat.mul;
  s_div := PrimFloat.div;
  s_of_nat := of_nat;
  s_is_zero := λ x, PrimFloat.eqb x 0%float
|}.

Definition nan : float := (0 / 0)%float.

(** Modelled from the spec: the Orthonormalizer of section 4.2
    ([utils.orthonormalize]; [wpca/utils.py] is not among the sources).
    Rows are processed in order: row i is made orthogonal to the rows
    already produced, then normalized to unit length. *)
Definition orthogonalize_against (done : list (list float))
    (r : list float) : list float :=
  foldl (λ acc q, zip_with PrimFloat.sub acc
                    (PrimFloat.mul (inner acc q) <$> q)) r done.

Definition normalize (r : list float) : list float :=
  (λ x, x / PrimFloat.sqrt (inner r r))%float <$> r.

Definition gram_schmidt (rows : list (list float)) : list (list float) :=
  foldl (λ done r, done ++ [normalize (orthogonalize_against done r)])
        [] rows.

(** The degenerate-case policy "as computed": a row whose residual has
    norm zero comes out as the division by zero leaves it. (It is
    neither of the two policies of section 4.2, and rows that come out
    so are not orthonormal to any tolerance.) *)
Definition orthonormalize_unchecked (a : ndarray float)
    : result (ndarray float) :=
  Ok (NDArray (nrows a) (ncols a) (gram_schmidt (cells a))).

#[global] Instance float_eq_dec : EqDecision float.
Proof.
  intros x y. destruct (PrimFloat.Leibniz.eqb x y) eqn:E.
  - left. by apply FloatAxioms.Leibniz.eqb_spec.
  - right. intros H. apply FloatAxioms.Leibniz.eqb_spec in H. congruence.
Defined.

(** [|x - y| <= tol]; no NaN is within a tolerance of anything. *)
Definition within (tol x y : float) : Prop :=
  PrimFloat.leb (PrimFloat.abs (x - y)) tol = true.

#[global] Instance within_dec tol : RelDecision (within tol).
Proof. intros x y. unfold within. apply _. Defined.



(** Modelled from the spec: the Weighted Least-Squares Solver of
    section 4.3 ([utils.solve_weighted], called with the transposed
    basis): the weighted Gram matrix [B diag(w^2) B^T] and the weighted
    projection [B diag(w^2) x] are built and the k x k system is solved,
    here by Gauss-Jordan elimination on the augmented rows; a column
    without a non-zero pivot is a [SingularSystemError]. *)
Definition weighted_inner (w u v : list float) : float :=
  inner u (zip_with (λ wj vj, wj * wj * vj)%float w v).

Definition normal_equations (B : list (list float)) (x w : list float)
    : list (list float) :=
  (λ bi, ((λ bl, weighted_inner w bi bl) <$> B) ++ [weighted_inner w bi x])
    <$> B.

Definition at_col (c : nat) (r : list float) : float :=
  default 0%float (r !! c).

Definition eliminate (c : nat) (rows : list (list float))
    : result (list (list float)) :=
  match list_find (λ r, PrimFloat.eqb (at_col c r) 0%float = false)
                  (drop c rows) with
  | None => Raise SingularSystemError
  | Some (k, rp) =>
      let rc := default [] (rows !! c) in
      let swapped := <[c := rp]> (<[c + k := rc]> rows) in
      let prow := (λ x, x / at_col c rp)%float <$> rp in
      Ok (imap (λ i r, if decide (i = c) then prow
                       else zip_with (λ x y, x - at_col c r * y)%float
                                     r prow)
               swapped)
  end.

Definition gauss_jordan (rows : list (list float))
    : result (list float) :=
  match for_each eliminate (seq 0 (length rows)) rows with
  | Ok rows' => Ok (at_col (length rows) <$> rows')
  | Raise e => Raise e
  end.

Definition solve_weighted_normal (A : ndarray float) (x w : list float)
    : result (list float) :=
  if decide (length x = nrows A ∧ length w = nrows A)
  then gauss_jordan (normal_equations (cells (transpose A)) x w)
  else Raise ValueError.

(** Modelled from the spec: the Orthonormal Basis Initializer of section
    4.1 ([utils.random_orthonormal]): k <= d or [DimensionError]; a k x d
    matrix drawn as a function of the seed is orthonormalized. The draw
    stands in for NumPy's generator: a linear congruential sequence
    mapped to the integers -8..8. *)
Definition lcg (s : N) : N := ((s * 1103515245 + 12345) mod 2147483648)%N.

Fixpoint draws (n : nat) (s : N) : list float :=
  match n with
  | O => []
  | S n' =>
      let s' := lcg s in
      (of_nat (N.to_nat ((s' / 65536) mod 17)) - 8)%float :: draws n' s'
  end.

Definition randn (seed : option nat) (k d : nat) : ndarray float :=
  NDArray k d
    (reshape (replicate k d) (draws (k * d) (N.of_nat (default 0 seed)))).

Definition random_orthonormal_with
    (orth : ndarray float → result (ndarray float))
    (k d : nat) (seed : option nat) : result (ndarray float) :=
  if decide (k ≤ d) then orth (randn seed k d)
  else Raise DimensionError.

(** The helpers with the policy "as computed". *)
#[global] Instance utils : Utils float := {|
  orthonormalize := orthonormalize_unchecked;
  random_orthonormal := random_orthonormal_with orthonormalize_unchecked;
  solve_weighted := solve_weighted_normal
|}.


End float64.

(** ** Concrete inputs *)

Module examples.
Import float64.

(** Three samples of two features, one of them without weight. *)
Definition X3 : ndarray float := NDArray 3 2 [[1; 2]; [3; 5]; [4; 1]]%float.
Definition W3 : ndarray float := NDArray 3 2 [[1; 2]; [1; 1]; [0; 1]]%float.
Definition X3_nan : ndarray float :=
  NDArray 3 2 [[1; 2]; [3; 5]; [nan; 1]]%float.

(** A 2 x 2 problem whose rows come out along the axes. *)
Definition D2 : ndarray float := NDArray 2 2 [[2; 0]; [0; 3]]%float.
Definition C2 : ndarray float := NDArray 2 2 [[1; 0]; [0; 1]]%float.
Definition E2 : ndarray float := NDArray 2 2 [[3; 4]; [1; 1]]%float.


Definition fresh (k iters : nat) : world float :=
  World (__init__ k iters (Some 1)) [].

(** A store with the caller's X at location 1 and weights at location 2. *)
Definition caller_store : store float :=
  Store {[ 1%positive := X3; 2%positive := W3 ]} (__init__ 1 3 (Some 1)).

End examples.

Section phases_def.
Context {F : Type}.

(** A computation that enters some of the phases [ps], in order and from
    the first, and all of them when it returns. *)
Definition enters {A} (ps : list phase) (m : M F A) : Prop :=
  ∀ w, ∃ t, trace (m w).1 = trace w ++ t ∧ t `prefix_of` ps
            ∧ ∀ a, (m w).2 = Ok a → t = ps.
End phases_def.

(** ** Stacked samples *)

Section stacking.
Context {F : Type}.

(** [np.vstack((a, b))] for two 2-d arrays with the same number of
    columns: the rows of [a], then the rows of [b]. ([empca.py] does not
    call it; it is used to say what the methods do with a batch.) *)
Definition vstack (a b : ndarray F) : ndarray F :=
  NDArray (nrows a + nrows b) (ncols a) (cells a ++ cells b).

End stacking.


(** ** Unit weights *)

Section unit_weights_def.
Context {F : Type} `{!Scalar F}.

(** [np.ones((n, d))] *)
Definition np_ones (n d : nat) : ndarray F :=
  NDArray n d (replicate n (replicate d s_one)).

End unit_weights_def.


(** ** The module-level functions with the arrays as objects in a store

    [_Estep] and [_Mstep] write into the arrays they are passed, and
    [empca] drops what they return: it goes on with the objects it
    created. *)

Module InStore_functions.
Section functions.
Context {F : Type} `{!Scalar F} `{!Utils F}.

(** [_Estep(eigvec, data, weights, coeff)]: row [i] of the object [coeff]
    is assigned to. *)
Definition _Estep (eigvec data weights coeff : loc) : ST (store F) loc :=
  D ← load data;
  for_eachM (λ i _,
               E ← load eigvec;
               D ← load data;
               di ← lift (get_row i D);
               W ← load weights;
               wi ← lift (get_row i W);
               c ← lift (solve_weighted (transpose E) di wi);
               write coeff (set_row1 i c))
            (seq 0 (nrows D)) ();;
  mret coeff.

(** [_Mstep(eigvec, data, weights, coeff)]: the squared weights are a new
    array; the object [eigvec] is written to and returned. *)
Definition _Mstep (eigvec data weights coeff : loc) : ST (store F) loc :=
  W ← load weights;
  w2 ← alloc (square W);
  E ← load eigvec;
  for_eachM (λ i _, InStore._Mstep_body data (Some w2) eigvec coeff i)
            (seq 0 (nrows E)) ();;
  mret eigvec.

(** [empca(data, weights, nvec, niter=25, random_state=None)] *)
Definition empca (data weights : loc) (nvec niter : nat) (seed : option nat)
    : ST (store F) (loc * loc) :=
  D ← load data;
  W ← load weights;
  (if decide (shape D = shape W) then mret ()
   else lift (Raise AssertionError));;
  D ← load data;
  (if decide (nvec ≤ ncols D) then mret ()
   else lift (Raise AssertionError));;
  D ← load data;
  e0 ← lift (random_orthonormal nvec (ncols D) seed);
  eigvec ← alloc e0;
  D ← load data;
  coeff ← alloc (np_zeros (nrows D) nvec);
  for_eachM (λ _ _,
               _Estep eigvec data weights coeff;;
               _Mstep eigvec data weights coeff;;
               mret ())
            (seq 0 niter) ();;
  _Estep eigvec data weights coeff;;
  mret (eigvec, coeff).

End functions.
End InStore_functions.


(** * Facts about results *)

Lemma result_bind_Ok_inv {A B} (m : result A) (f : A → result B) b :
  m ≫= f = Ok b → ∃ a, m = Ok a ∧ f a = Ok b.
Proof. destruct m as [a|e]; [eauto|done]. Qed.

Lemma result_bind_assoc {A B C} (m : result A) (f : A → result B)
    (g : B → result C) :
  (m ≫= f) ≫= g = m ≫= (λ a, f a ≫= g).
Proof. by destruct m. Qed.

Lemma for_each_app {A B} (body : B → A → result A) xs ys acc :
  for_each body (xs ++ ys) acc = for_each body xs acc ≫= for_each body ys.
Proof.
  revert acc. induction xs as [|x xs IH]; intros acc; simpl; [done|].
  destruct (body x acc) as [acc'|e]; simpl; [apply IH|done].
Qed.

(** * Facts about the array operations *)

Section numpy_facts.
Context {F : Type} `{!Scalar F}.
Implicit Types (a b : ndarray F) (u v : list F).

Lemma bdim_same n : bdim n n = Ok n.
Proof. unfold bdim. by rewrite decide_True. Qed.

Lemma stretch_same {A} n (l : list A) : length l = n → stretch n l = l.
Proof. intros H. unfold stretch. by rewrite decide_True. Qed.

Lemma length_stretch {A} n (l : list A) :
  length l = n ∨ length l = 1 → length (stretch n l) = n.
Proof.
  intros [H|H]; [by rewrite stretch_same|].
  unfold stretch. case_decide; [done|].
  destruct l as [|x [|??]]; simplify_eq/=. by rewrite length_replicate.
Qed.

Lemma broadcast_to_wf a : wf a → broadcast_to (nrows a) (ncols a) a = cells a.
Proof.
  intros [Hn Hc]. unfold broadcast_to.
  rewrite stretch_same; [|by rewrite length_fmap].
  rewrite <-(list_fmap_id (cells a)) at 2. apply Forall_fmap_ext_1.
  eapply Forall_impl; [done|]. intros r Hr. by apply stretch_same.
Qed.

Lemma entry_lookup a i j r x :
  cells a !! i = Some r → r !! j = Some x → entry a i j = x.
Proof. intros Hi Hj. unfold entry. rewrite Hi; simpl. by rewrite Hj. Qed.

(** A well-formed array is the table of its entries. *)
Lemma cells_tabulate a :
  wf a →
  cells a = (λ i, (λ j, entry a i j) <$> seq 0 (ncols a)) <$> seq 0 (nrows a).
Proof.
  intros [Hn Hc]. apply list_eq; intros i.
  rewrite list_lookup_fmap.
  destruct (cells a !! i) as [r|] eqn:Hi.
  - assert (i < nrows a) by (rewrite <-Hn; by eapply lookup_lt_Some).
    rewrite lookup_seq_lt by done; simpl. f_equal.
    assert (length r = ncols a) as Hr.
    { rewrite Forall_forall in Hc. apply Hc. by eapply list_elem_of_lookup_2. }
    apply list_eq; intros j. rewrite list_lookup_fmap.
    destruct (r !! j) as [x|] eqn:Hj.
    + assert (j < ncols a) by (rewrite <-Hr; by eapply lookup_lt_Some).
      rewrite lookup_seq_lt by done; simpl. f_equal.
      symmetry. by eapply entry_lookup.
    + apply lookup_ge_None in Hj. rewrite lookup_seq_ge; [done|lia].
  - apply lookup_ge_None in Hi. rewrite lookup_seq_ge; [done|lia].
Qed.

Lemma wf_tabulate n d (f : nat → nat → F) :
  wf (NDArray n d ((λ i, (λ j, f i j) <$> seq 0 d) <$> seq 0 n)).
Proof.
  split; simpl; [by rewrite length_fmap, length_seq|].
  apply Forall_fmap, Forall_forall. intros i _. simpl.
  by rewrite length_fmap, length_seq.
Qed.

Lemma entry_tabulate n d (f : nat → nat → F) i j :
  i < n → j < d →
  entry (NDArray n d ((λ i, (λ j, f i j) <$> seq 0 d) <$> seq 0 n)) i j = f i j.
Proof.
  intros Hi Hj. unfold entry; simpl.
  rewrite list_lookup_fmap, lookup_seq_lt by done; simpl.
  by rewrite list_lookup_fmap, lookup_seq_lt by done.
Qed.

(** Two well-formed arrays of one shape with the same entries are equal. *)
Lemma ndarray_ext a b :
  wf a → wf b → shape a = shape b →
  (∀ i j, i < nrows a → j < ncols a → entry a i j = entry b i j) →
  a = b.
Proof.
  intros Ha Hb Hs He. injection Hs as Hn Hd.
  assert (cells a = cells b) as Hc.
  { rewrite (cells_tabulate a Ha), (cells_tabulate b Hb), <-Hn, <-Hd.
    apply list_fmap_ext. intros k i Hi.
    apply lookup_seq in Hi as [-> Hi]. simpl.
    apply list_fmap_ext. intros k' j Hj. apply lookup_seq in Hj as [-> Hj].
    by apply He. }
  destruct a, b; by simplify_eq/=.
Qed.

Lemma wf_lookup a i r :
  wf a → cells a !! i = Some r → i < nrows a ∧ length r = ncols a.
Proof.
  intros [Hn Hc] Hi. split.
  - rewrite <-Hn. by eapply lookup_lt_Some.
  - rewrite Forall_forall in Hc. apply Hc. by eapply list_elem_of_lookup_2.
Qed.

Lemma wf_row a i :
  wf a → i < nrows a → ∃ r, cells a !! i = Some r ∧ length r = ncols a.
Proof.
  intros Ha Hi. destruct (cells a !! i) as [r|] eqn:E.
  - exists r. split; [done|]. by eapply wf_lookup.
  - apply lookup_ge_None in E. destruct Ha as [Hn _]. lia.
Qed.

Lemma wf_entry a i j :
  wf a → i < nrows a → j < ncols a →
  ∃ r, cells a !! i = Some r ∧ r !! j = Some (entry a i j).
Proof.
  intros Ha Hi Hj. destruct (wf_row a i Ha Hi) as (r & Hr & Hl).
  exists r. split; [done|].
  destruct (r !! j) as [x|] eqn:E.
  - f_equal. symmetry. by eapply entry_lookup.
  - apply lookup_ge_None in E. lia.
Qed.

Lemma column_lookup a i j :
  i < length (cells a) → column j a !! i = Some (entry a i j).
Proof.
  intros Hi. unfold column, entry. rewrite list_lookup_fmap.
  destruct (cells a !! i) as [r|] eqn:E; [done|].
  apply lookup_ge_None in E. lia.
Qed.

Lemma length_column a j : length (column j a) = length (cells a).
Proof. unfold column. by rewrite length_fmap. Qed.

Lemma column_entries a j :
  wf a → column j a = (λ i, entry a i j) <$> seq 0 (nrows a).
Proof.
  intros [Hn _]. apply list_eq; intros i.
  rewrite list_lookup_fmap.
  destruct (decide (i < nrows a)).
  - rewrite column_lookup by lia. by rewrite lookup_seq_lt.
  - rewrite lookup_seq_ge by lia. apply lookup_ge_None.
    rewrite length_column. lia.
Qed.

Lemma elementwise_same op a b :
  wf a → wf b → shape a = shape b →
  elementwise op a b
  = Ok (NDArray (nrows a) (ncols a)
          (zip_with (zip_with op) (cells a) (cells b))).
Proof.
  intros Ha Hb Hs. injection Hs as Hn Hd. unfold elementwise.
  rewrite <-Hn, <-Hd, !bdim_same; simpl.
  rewrite (broadcast_to_wf a Ha). rewrite Hn, Hd, (broadcast_to_wf b Hb).
  by rewrite <-Hn, <-Hd.
Qed.

Lemma wf_zip_with (f : F → F → F) a b :
  wf a → wf b → shape a = shape b →
  wf (NDArray (nrows a) (ncols a) (zip_with (zip_with f) (cells a) (cells b))).
Proof.
  intros [Hna Hca] [Hnb Hcb] Hs. injection Hs as Hn Hd.
  split; simpl.
  - rewrite length_zip_with. lia.
  - apply Forall_forall. intros r Hr.
    apply list_elem_of_lookup in Hr as [i Hr].
    apply lookup_zip_with_Some in Hr as (x & y & -> & Hx & Hy).
    rewrite length_zip_with.
    rewrite Forall_forall in Hca, Hcb.
    rewrite (Hca x), (Hcb y); [lia| |]; by eapply list_elem_of_lookup_2.
Qed.

Lemma column_zip_with (f : F → F → F) a b j :
  wf a → wf b → shape a = shape b → j < ncols a →
  column j (NDArray (nrows a) (ncols a)
              (zip_with (zip_with f) (cells a) (cells b)))
  = zip_with f (column j a) (column j b).
Proof.
  intros Ha Hb Hs Hj. injection Hs as Hn Hd.
  apply list_eq; intros i. unfold column at 1; simpl.
  rewrite list_lookup_fmap.
  destruct (decide (i < nrows a)) as [Hi|Hi].
  - destruct (wf_entry a i j Ha Hi Hj) as (ra & Hra & Hxa).
    destruct (wf_entry b i j Hb) as (rb & Hrb & Hxb); [lia..|].
    assert (zip_with (zip_with f) (cells a) (cells b) !! i
            = Some (zip_with f ra rb)) as ->
      by (apply lookup_zip_with_Some; eauto).
    simpl.
    assert (zip_with f ra rb !! j = Some (f (entry a i j) (entry b i j)))
      as -> by (apply lookup_zip_with_Some; eauto).
    symmetry. apply lookup_zip_with_Some.
    exists (entry a i j), (entry b i j). destruct Ha, Hb.
    split; [done|]. split; apply column_lookup; lia.
  - destruct Ha as [Hna _].
    rewrite (proj2 (lookup_ge_None (zip_with (zip_with f) _ _) i))
      by (rewrite length_zip_with; lia).
    symmetry. apply lookup_ge_None.
    rewrite length_zip_with, !length_column. lia.
Qed.

Lemma zero_where_zero_same (wt a : ndarray F) :
  shape wt = shape a →
  zero_where_zero wt a
  = Ok (NDArray (nrows a) (ncols a)
          (zip_with (zip_with (λ x wx, if s_is_zero wx then s_zero else x))
                    (cells a) (cells wt))).
Proof. intros Hs. unfold zero_where_zero. by rewrite decide_True. Qed.

Lemma elementwise1_same op u v :
  length u = length v → elementwise1 op u v = Ok (zip_with op u v).
Proof.
  intros Hl. unfold elementwise1. rewrite Hl, bdim_same.
  cbn [mbind result_bind]. by rewrite !stretch_same.
Qed.

Lemma length_foldl_vadd rs : ∀ r,
  Forall (λ r', length r' = length r) rs →
  length (foldl vadd r rs) = length r.
Proof.
  induction rs as [|r1 rs IH]; intros r Hrs; [done|].
  apply Forall_cons in Hrs as [H1 Hrs]. simpl.
  assert (length (vadd r r1) = length r) as Hl
    by (unfold vadd; rewrite length_zip_with; lia).
  rewrite IH; [done|]. by rewrite Hl.
Qed.

Lemma foldl_vadd_lookup rs : ∀ r j,
  Forall (λ r', length r' = length r) rs → j < length r →
  foldl vadd r rs !! j
  = Some (foldl s_add (default s_zero (r !! j))
            ((λ r', default s_zero (r' !! j)) <$> rs)).
Proof.
  induction rs as [|r1 rs IH]; intros r j Hrs Hj; simpl.
  - destruct (r !! j) eqn:E; [done|]. apply lookup_ge_None in E. lia.
  - apply Forall_cons in Hrs as [H1 Hrs].
    assert (length (vadd r r1) = length r) as Hl
      by (unfold vadd; rewrite length_zip_with; lia).
    rewrite IH; [|by rewrite Hl|by rewrite Hl]. do 2 f_equal.
    destruct (lookup_lt_is_Some_2 r j Hj) as [x Hx].
    destruct (lookup_lt_is_Some_2 r1 j) as [y Hy]; [lia|].
    rewrite Hx, Hy; simpl.
    assert (vadd r r1 !! j = Some (s_add x y)) as ->; [|done].
    apply lookup_zip_with_Some. eauto.
Qed.

Lemma const_seq {A} (z : A) d : (λ _, z) <$> seq 0 d = replicate d z.
Proof.
  apply list_eq; intros j. rewrite list_lookup_fmap.
  destruct (decide (j < d)).
  - rewrite lookup_seq_lt by done. by rewrite lookup_replicate_2.
  - rewrite lookup_seq_ge by lia. symmetry. apply lookup_ge_None.
    rewrite length_replicate. lia.
Qed.

(** [a.sum(0)], feature by feature. *)
Lemma sum0_columns a :
  wf a → sum0 a = (λ j, vsum (column j a)) <$> seq 0 (ncols a).
Proof.
  intros [Hn Hc]. unfold sum0, column.
  destruct (cells a) as [|r rs] eqn:E; simpl.
  - by rewrite const_seq.
  - apply Forall_cons in Hc as [Hr Hrs].
    assert (Forall (λ r', length r' = length r) rs) as Hrs'
      by (eapply Forall_impl; [done|]; simpl; intros; lia).
    apply list_eq; intros j. rewrite list_lookup_fmap.
    destruct (decide (j < ncols a)).
    + rewrite lookup_seq_lt by done. simpl.
      by rewrite foldl_vadd_lookup by (done || lia).
    + rewrite lookup_seq_ge by lia. apply lookup_ge_None.
      rewrite length_foldl_vadd by done. lia.
Qed.

Lemma length_sum0 a : wf a → length (sum0 a) = ncols a.
Proof.
  intros Ha. by rewrite sum0_columns, length_fmap, length_seq.
Qed.

(** *** Shapes of the results *)

Lemma wf_dot a b p : length (cells a) = nrows a → dot a b = Ok p →
  wf p ∧ shape p = (nrows a, ncols b).
Proof.
  intros Hn. unfold dot. case_decide; [|done]. intros [= <-].
  split; [|done]. split; simpl; [by rewrite length_fmap|].
  apply Forall_fmap, Forall_forall. intros r _. simpl.
  by rewrite length_fmap, length_seq.
Qed.

Lemma wf_scalar_mul x a : wf a → wf (scalar_mul x a).
Proof.
  intros [Hn Hc]. split; simpl; [by rewrite length_fmap|].
  apply Forall_fmap. eapply Forall_impl; [done|]. simpl. intros r Hr.
  by rewrite length_fmap.
Qed.

Lemma wf_square a : wf a → wf (square a).
Proof.
  intros [Hn Hc]. split; simpl; [by rewrite length_fmap|].
  apply Forall_fmap. eapply Forall_impl; [done|]. simpl. intros r Hr.
  by rewrite length_fmap.
Qed.

Lemma wf_rows_to i a : wf a → wf (rows_to i a).
Proof.
  intros [Hn Hc]. split; simpl; [rewrite length_take; lia|].
  by apply Forall_take.
Qed.

Lemma wf_transpose a : length (cells a) = nrows a → wf (transpose a).
Proof.
  intros Hn. split; simpl; [by rewrite length_fmap, length_seq|].
  apply Forall_fmap, Forall_forall. intros j _. simpl.
  by rewrite length_column.
Qed.

(** *** Columns of the results *)

Lemma column_dot a b j :
  j < ncols b →
  column j (NDArray (nrows a) (ncols b)
              ((λ ra, (λ j, inner ra (column j b)) <$> seq 0 (ncols b))
                 <$> cells a))
  = (λ ra, inner ra (column j b)) <$> cells a.
Proof.
  intros Hj. unfold column at 1; simpl. rewrite <-list_fmap_compose.
  apply list_fmap_ext. intros _ ra _. simpl.
  by rewrite list_lookup_fmap, lookup_seq_lt.
Qed.

Lemma column_scalar_mul x a j :
  wf a → j < ncols a →
  column j (scalar_mul x a) = s_mul x <$> column j a.
Proof.
  intros Ha Hj. unfold column, scalar_mul; simpl.
  rewrite <-!list_fmap_compose. apply list_fmap_ext. intros i r Hr. simpl.
  destruct (wf_lookup a i r Ha Hr) as [_ Hl].
  rewrite list_lookup_fmap.
  destruct (lookup_lt_is_Some_2 r j) as [y ->]; [lia|done].
Qed.

Lemma column_square a j :
  wf a → j < ncols a →
  column j (square a) = (λ x, s_mul x x) <$> column j a.
Proof.
  intros Ha Hj. unfold column, square; simpl.
  rewrite <-!list_fmap_compose. apply list_fmap_ext. intros i r Hr. simpl.
  destruct (wf_lookup a i r Ha Hr) as [_ Hl].
  rewrite list_lookup_fmap.
  destruct (lookup_lt_is_Some_2 r j) as [y ->]; [lia|done].
Qed.

Lemma column_col_at i a : column 0 (col_at i a) = column i a.
Proof.
  unfold column, col_at; simpl. rewrite <-list_fmap_compose.
  apply list_fmap_ext. intros _ r _. simpl.
  rewrite lookup_take_lt, lookup_drop by lia. by rewrite Nat.add_0_r.
Qed.

Lemma wf_col_at i a : wf a → i < ncols a → wf (col_at i a) ∧ ncols (col_at i a) = 1.
Proof.
  intros [Hn Hc] Hi. unfold col_at, wf. cbn [nrows ncols cells].
  split; [split|lia]; [by rewrite length_fmap|].
  apply Forall_fmap. eapply Forall_impl; [done|]. cbn beta.
  intros r Hr. cbv [compose]. rewrite length_take, length_drop. lia.
Qed.

Lemma transpose_col_at i a :
  i < ncols a →
  transpose (col_at i a) = NDArray 1 (nrows a) [column i a].
Proof.
  intros Hi. unfold transpose. cbn [nrows ncols col_at].
  replace (1 `min` (ncols a - i)) with 1 by lia. cbn [seq fmap list_fmap].
  by rewrite column_col_at.
Qed.

Lemma dot_row_vector u b :
  length u = nrows b ∨ True →
  dot (NDArray 1 (nrows b) [u]) b
  = Ok (NDArray 1 (ncols b) [(λ j, inner u (column j b)) <$> seq 0 (ncols b)]).
Proof. intros _. unfold dot; simpl. by rewrite decide_True. Qed.

(** *** Broadcasting a single column *)

Lemma bdim_one_r d : bdim d 1 = Ok d.
Proof.
  unfold bdim. repeat case_decide; by simplify_eq.
Qed.

Lemma stretch_singleton {A} d (x : A) : stretch d [x] = replicate d x.
Proof. unfold stretch. case_decide; simplify_eq/=; done. Qed.

Lemma zip_with_replicate_r {A B C} (f : A → B → C) l n y :
  length l ≤ n → zip_with f l (replicate n y) = (λ x, f x y) <$> l.
Proof.
  revert n. induction l as [|x l IH]; intros [|n] Hl; simpl in *;
    [done|done|lia|]. rewrite IH by lia. done.
Qed.

Lemma zip_with_replicate_l {A B C} (f : A → B → C) l n x :
  length l ≤ n → zip_with f (replicate n x) l = f x <$> l.
Proof.
  revert n. induction l as [|y l IH]; intros [|n] Hl; simpl in *;
    [done|done|lia|]. rewrite IH by lia. done.
Qed.

Lemma elementwise_column_r op a b :
  wf a → wf b → nrows a = nrows b → ncols b = 1 →
  elementwise op a b = Ok (with_column op a b).
Proof.
  intros Ha Hb Hn Hd. unfold elementwise.
  rewrite <-Hn, Hd, bdim_same, bdim_one_r. cbn [mbind result_bind].
  rewrite (broadcast_to_wf a Ha). unfold with_column. do 2 f_equal.
  assert (broadcast_to (nrows a) (ncols a) b
          = (λ rb, replicate (ncols a) (default s_zero (rb !! 0)))
              <$> cells b) as ->.
  { unfold broadcast_to. destruct Hb as [Hnb Hcb].
    rewrite stretch_same by (rewrite length_fmap; lia).
    apply Forall_fmap_ext_1. eapply Forall_impl; [done|]. simpl.
    intros rb Hrb. destruct rb as [|x [|??]]; simplify_eq/=; [lia|..|lia].
    apply stretch_singleton. }
  destruct Ha as [Hna Hca].
  apply list_eq; intros i. rewrite !lookup_zip_with, list_lookup_fmap.
  destruct (cells a !! i) as [ra|] eqn:Hra; [|done].
  destruct (cells b !! i) as [rb|] eqn:Hrb; [|done]. simpl. f_equal.
  apply zip_with_replicate_r.
  rewrite Forall_forall in Hca. rewrite (Hca ra); [done|].
  by eapply list_elem_of_lookup_2.
Qed.

Lemma wf_with_column op a b :
  wf a → wf b → nrows a = nrows b → wf (with_column op a b).
Proof.
  intros [Hna Hca] [Hnb Hcb] Hn. split; simpl.
  - rewrite length_zip_with. lia.
  - apply Forall_forall. intros r Hr.
    apply list_elem_of_lookup in Hr as [i Hr].
    apply lookup_zip_with_Some in Hr as (ra & rb & -> & Hra & Hrb).
    rewrite length_fmap. rewrite Forall_forall in Hca. apply Hca.
    by eapply list_elem_of_lookup_2.
Qed.

Lemma column_with_column op a b j :
  wf a → wf b → nrows a = nrows b → j < ncols a →
  column j (with_column op a b) = zip_with op (column j a) (column 0 b).
Proof.
  intros [Hna Hca] [Hnb Hcb] Hn Hj. unfold column, with_column. simpl.
  apply list_eq; intros i.
  rewrite list_lookup_fmap, !lookup_zip_with, !list_lookup_fmap.
  destruct (cells a !! i) as [ra|] eqn:Hra; [|done].
  destruct (cells b !! i) as [rb|] eqn:Hrb; [|done]. simpl. f_equal.
  rewrite list_lookup_fmap.
  destruct (lookup_lt_is_Some_2 ra j) as [y ->]; [|done].
  rewrite Forall_forall in Hca. rewrite (Hca ra); [done|].
  by eapply list_elem_of_lookup_2.
Qed.

(** *** Broadcasting a single row *)

Lemma elementwise_row_r op a v :
  wf a → length v = ncols a →
  elementwise op a (as_row v)
  = Ok (NDArray (nrows a) (ncols a) ((λ ra, zip_with op ra v) <$> cells a)).
Proof.
  intros [Hn Hc] Hv. unfold elementwise, as_row. cbn [nrows ncols cells].
  rewrite Hv, bdim_one_r, bdim_same. cbn [mbind result_bind].
  rewrite (broadcast_to_wf a) by done. do 2 f_equal.
  unfold broadcast_to. cbn [nrows ncols cells fmap list_fmap].
  rewrite (stretch_same (ncols a) v) by done.
  rewrite stretch_singleton.
  rewrite zip_with_replicate_r by lia. done.
Qed.

Lemma wf_row_r (op : F → F → F) a v :
  wf a → length v = ncols a →
  wf (NDArray (nrows a) (ncols a) ((λ ra, zip_with op ra v) <$> cells a)).
Proof.
  intros [Hn Hc] Hv. split; simpl; [by rewrite length_fmap|].
  apply Forall_fmap. eapply Forall_impl; [done|]. simpl. intros r Hr.
  rewrite length_zip_with. lia.
Qed.

Lemma column_row_r (op : F → F → F) a v j :
  wf a → length v = ncols a → j < ncols a →
  column j (NDArray (nrows a) (ncols a)
              ((λ ra, zip_with op ra v) <$> cells a))
  = (λ x, op x (default s_zero (v !! j))) <$> column j a.
Proof.
  intros Ha Hv Hj. unfold column; simpl. rewrite <-!list_fmap_compose.
  apply list_fmap_ext. intros i r Hr. simpl.
  destruct (wf_lookup a i r Ha Hr) as [_ Hl].
  destruct (lookup_lt_is_Some_2 r j) as [x Hx]; [lia|].
  destruct (lookup_lt_is_Some_2 v j) as [y Hy]; [lia|].
  rewrite Hx, Hy. simpl.
  assert (zip_with op r v !! j = Some (op x y)) as ->; [|done].
  apply lookup_zip_with_Some. eauto.
Qed.

(** [a.var(0).sum()], feature by feature. *)
Lemma var0_total a :
  wf a → (var0 a ≫= λ v, Ok (vsum v)) = Ok (total_variance a).
Proof.
  intros Ha. unfold var0.
  assert (length (mean0 a) = ncols a) as Hm
    by (unfold mean0, div_count; by rewrite length_fmap, length_sum0).
  rewrite elementwise_row_r by done. cbn [mbind result_bind].
  pose proof (wf_row_r s_sub a (mean0 a) Ha Hm) as Hx.
  set (x := NDArray _ _ _) in *.
  f_equal. unfold total_variance, div_count. f_equal.
  rewrite sum0_columns by (by apply wf_square).
  rewrite <-list_fmap_compose. change (ncols (square x)) with (ncols a).
  apply list_fmap_ext. intros k j Hj. apply lookup_seq in Hj as [-> Hj].
  simpl. unfold feature_variance. f_equal. f_equal.
  rewrite column_square by done. unfold x.
  rewrite column_row_r by done. rewrite <-list_fmap_compose.
  apply list_fmap_ext. intros _ y _. simpl.
  unfold mean0, div_count. rewrite sum0_columns by done.
  rewrite <-list_fmap_compose, list_lookup_fmap, lookup_seq_lt by done.
  done.
Qed.

(** The diagonal of [np.dot(coeff.T, coeff)]. *)
Lemma diagonal_gram a :
  (dot (transpose a) a ≫= λ g, Ok (diagonal g)) = Ok (gram_diagonal a).
Proof.
  unfold dot. rewrite decide_True by done. cbn [mbind result_bind].
  f_equal. unfold diagonal, gram_diagonal.
  cbn [nrows ncols cells transpose]. rewrite Nat.min_id.
  apply list_fmap_ext. intros k j Hj. apply lookup_seq in Hj as [-> Hj].
  simpl. unfold entry. cbn [cells].
  rewrite !list_lookup_fmap, lookup_seq_lt by done. simpl.
  by rewrite list_lookup_fmap, lookup_seq_lt by done.
Qed.

Lemma take_S_insert {A} (l : list A) i x :
  i < length l → take (S i) (<[i:=x]> l) = take i l ++ [x].
Proof.
  revert i. induction l as [|y l IH]; intros [|i] Hi; simpl in *;
    [lia|lia|done|]. rewrite <-IH by lia. done.
Qed.

End numpy_facts.

(** * Facts about computations with state *)

Section state_facts.
Context {S : Type}.

Lemma bind_run {A B} (m : ST S A) (f : A → ST S B) s s1 a :
  m s = (s1, Ok a) → (m ≫= f) s = f a s1.
Proof. intros H. unfold mbind, ST_bind. by rewrite H. Qed.

Lemma bind_raise {A B} (m : ST S A) (f : A → ST S B) s s1 e :
  m s = (s1, Raise e) → (m ≫= f) s = (s1, Raise e).
Proof. intros H. unfold mbind, ST_bind. by rewrite H. Qed.

Lemma bind_Ok_inv {A B} (m : ST S A) (f : A → ST S B) s s' b :
  (m ≫= f) s = (s', Ok b) →
  ∃ a s1, m s = (s1, Ok a) ∧ f a s1 = (s', Ok b).
Proof.
  unfold mbind, ST_bind. destruct (m s) as [s1 [a|e]]; [eauto|done].
Qed.

Lemma ST_bind_assoc {A B C} (m : ST S A) (f : A → ST S B) (g : B → ST S C) s :
  ((m ≫= f) ≫= g) s = (m ≫= λ a, f a ≫= g) s.
Proof.
  unfold mbind, ST_bind. destruct (m s) as [s1 [a|e]]; [|done].
  by destruct (f a s1) as [s2 [b|e]].
Qed.

Lemma bind_run_any {A B} (m : ST S A) (f : A → ST S B) s s1 r :
  m s = (s1, r) →
  (m ≫= f) s = match r with Ok a => f a s1 | Raise e => (s1, Raise e) end.
Proof. intros H. unfold mbind, ST_bind. by rewrite H. Qed.

Lemma run_lift {A B} s (r : result A) (f : A → ST S B) :
  (lift r ≫= f) s = match r with Ok a => f a s | Raise e => (s, Raise e) end.
Proof. by destruct r. Qed.

End state_facts.

(** * Facts about computations in the world *)

Section world_facts.
Context {F : Type}.
Implicit Types (w : world F).

Lemma lift_Ok_inv {A} (r : result A) w w' a :
  lift r w = (w', Ok a) → w' = w ∧ r = Ok a.
Proof. unfold lift. by intros [= -> ->]. Qed.

Lemma run_set_self {A} (f : EMPCA F (ndarray F) → EMPCA F (ndarray F))
    (k : () → M F A) w :
  (set_self f ≫= k) w = k () (World (f (self w)) (trace w)).
Proof. done. Qed.

Lemma run_get_self {A} (k : EMPCA F (ndarray F) → M F A) w :
  (get_self ≫= k) w = k (self w) w.
Proof. done. Qed.

Lemma run_enter {A} p (k : () → M F A) w :
  (enter p ≫= k) w = k () (World (self w) (trace w ++ [p])).
Proof. done. Qed.

Lemma run_getattr {A B} (g : EMPCA F (ndarray F) → option A)
    (k : A → M F B) w a :
  g (self w) = Some a → (getattr g ≫= k) w = k a w.
Proof. intros H. unfold mbind, ST_bind, getattr. by rewrite H. Qed.

Lemma set_self_inv (f : EMPCA F (ndarray F) → EMPCA F (ndarray F)) w w' a :
  set_self f w = (w', Ok a) → w' = World (f (self w)) (trace w).
Proof. unfold set_self. by intros [= <- <-]. Qed.

Lemma get_self_inv w w' o :
  get_self w = (w', Ok o) → w' = w ∧ o = self w.
Proof. unfold get_self. by intros [= <- <-]. Qed.

Lemma enter_inv p w w' a :
  enter p w = (w', Ok a) → w' = World (self w) (trace w ++ [p]).
Proof. unfold enter. by intros [= <- <-]. Qed.

Lemma getattr_inv {A} (g : EMPCA F (ndarray F) → option A) w w' a :
  getattr g w = (w', Ok a) → w' = w ∧ g (self w) = Some a.
Proof.
  unfold getattr. destruct (g (self w)); [|done]. by intros [= <- <-].
Qed.

Lemma keeps_bind {A B C} (g : EMPCA F (ndarray F) → C) (m : M F A) (f : A → M F B) :
  keeps g m → (∀ a, keeps g (f a)) → keeps g (m ≫= f).
Proof.
  intros Hm Hf w. unfold mbind, ST_bind. specialize (Hm w).
  destruct (m w) as [w1 [a|e]]; simpl in *; [|done].
  by rewrite Hf.
Qed.

Lemma keeps_ret {A C} (g : EMPCA F (ndarray F) → C) (a : A) : keeps g (mret a).
Proof. done. Qed.
Lemma keeps_lift {A C} (g : EMPCA F (ndarray F) → C) (r : result A) : keeps g (lift r).
Proof. done. Qed.
Lemma keeps_get_self {C} (g : EMPCA F (ndarray F) → C) : keeps g get_self.
Proof. done. Qed.
Lemma keeps_enter {C} (g : EMPCA F (ndarray F) → C) p : keeps g (enter p).
Proof. done. Qed.
Lemma keeps_getattr {A C} (g : EMPCA F (ndarray F) → C) (h : EMPCA F (ndarray F) → option A) :
  keeps g (getattr h).
Proof. intros w. unfold getattr. by destruct (h (self w)). Qed.
Lemma keeps_set_self {C} (g : EMPCA F (ndarray F) → C) (f : EMPCA F (ndarray F) → EMPCA F (ndarray F)) :
  (∀ o, g (f o) = g o) → keeps g (set_self f).
Proof. intros H w. apply H. Qed.

Lemma keeps_for_eachM {A B C} (g : EMPCA F (ndarray F) → C) (body : B → A → M F A) xs :
  (∀ x acc, keeps g (body x acc)) → ∀ acc, keeps g (for_eachM body xs acc).
Proof.
  intros Hb. induction xs as [|x xs IH]; intros acc; simpl.
  - apply keeps_ret.
  - apply keeps_bind; [apply Hb|apply IH].
Qed.

End world_facts.

Create HintDb keeps.
#[global] Hint Resolve keeps_ret keeps_lift keeps_get_self keeps_enter
  keeps_getattr : keeps.

(** A chain of binds keeps an attribute when each link does. *)
Ltac keeps_steps :=
  repeat first
    [ apply keeps_bind; [|intros ?]
    | apply keeps_for_eachM; intros ? ?
    | apply keeps_set_self; by intros []
    | solve [eauto with keeps] ].

(** * The mean stored by [fit_transform] *)

Section mean_facts.
Context {F : Type} `{!Scalar F} `{!Utils F}.
Implicit Types (X W : ndarray F) (w : world F).

Lemma zip_with_masked (xs ws : list F) :
  zip_with (λ x wx, if s_is_zero wx then s_zero else x)
           (zip_with s_mul xs ws) ws
  = zip_with masked_product xs ws.
Proof.
  revert ws. induction xs as [|x xs IH]; intros [|w ws]; simpl; [done..|].
  by rewrite IH.
Qed.

Lemma fit_mean_weighted X W :
  wf X → wf W → shape X = shape W →
  EMPCA.fit_mean X (Some W) = Ok (weighted_mean X W).
Proof.
  intros HX HW Hs. unfold EMPCA.fit_mean.
  rewrite elementwise_same by done. cbn [mbind result_bind].
  pose proof (wf_zip_with s_mul X W HX HW Hs) as HXW.
  remember (NDArray _ _ (zip_with (zip_with s_mul) _ _)) as XW eqn:EXW.
  assert (shape XW = shape W) as HsXW by (by rewrite EXW).
  rewrite zero_where_zero_same by done. cbn [mbind result_bind].
  pose proof (wf_zip_with (λ x wx, if s_is_zero wx then s_zero else x)
                XW W HXW HW HsXW) as HXW2.
  remember (NDArray _ _ (zip_with _ (cells XW) _)) as XW2 eqn:EXW2.
  assert (ncols XW2 = ncols X) as Hc2 by (by rewrite EXW2, EXW).
  injection Hs as Hn Hd.
  rewrite elementwise1_same by (rewrite !length_sum0 by done; congruence).
  rewrite !sum0_columns by done.
  rewrite Hc2, <-Hd, zip_with_fmap_l, zip_with_fmap_r, zip_with_diag.
  f_equal. unfold weighted_mean. apply list_fmap_ext.
  intros k j Hj. apply lookup_seq in Hj as [-> Hj]. simpl. do 2 f_equal.
  rewrite EXW2, column_zip_with by (done || by rewrite EXW).
  rewrite EXW, column_zip_with by (done || unfold shape; congruence).
  apply zip_with_masked.
Qed.

Lemma fit_mean_plain X : wf X → EMPCA.fit_mean X None = Ok (column_mean X).
Proof.
  intros HX. unfold EMPCA.fit_mean, mean0, column_mean, div_count.
  rewrite sum0_columns by done. by rewrite <-list_fmap_compose.
Qed.

(** The values at zero-weight entries do not enter the weighted mean. *)
Lemma weighted_mean_zero_weight X X' W :
  wf X → wf X' → wf W → shape X = shape W → shape X' = shape W →
  (∀ i j, i < nrows W → j < ncols W →
     s_is_zero (entry W i j) = false → entry X i j = entry X' i j) →
  weighted_mean X W = weighted_mean X' W.
Proof.
  intros HX HX' HW Hs Hs' Hagree.
  injection Hs as Hn Hd. injection Hs' as Hn' Hd'.
  unfold weighted_mean. rewrite Hd, <-Hd'. apply list_fmap_ext.
  intros k j Hj. apply lookup_seq in Hj as [-> Hj]. simpl. f_equal. f_equal.
  rewrite !column_entries by done.
  rewrite Hn, Hn'. rewrite !zip_with_fmap_l, !zip_with_fmap_r, !zip_with_diag.
  apply list_fmap_ext. intros k' i Hi. apply lookup_seq in Hi as [-> Hi].
  simpl. unfold masked_product.
  destruct (s_is_zero (entry W k' k)) eqn:E; [done|].
  rewrite Hagree; [done|done|lia|done].
Qed.

Lemma fit_transform_stores_mean X weights w0 m :
  EMPCA.fit_mean X weights = Ok m →
  mean_ (self (EMPCA.fit_transform X weights w0).1) = Some m.
Proof.
  intros Hm. unfold EMPCA.fit_transform.
  erewrite bind_run by (unfold lift; by rewrite Hm).
  erewrite bind_run by reflexivity.
  match goal with |- mean_ (self (?m ?w).1) = _ =>
    assert (keeps mean_ m) as Hk end.
  { unfold EMPCA.em_cycle. keeps_steps. }
  by rewrite Hk.
Qed.

End mean_facts.

(** * The M-step *)

Section mstep_facts.
Context {F : Type} `{!Scalar F} `{!Utils F}.
Implicit Types (data coeff eigvec : ndarray F).

(** [data - np.dot(coeff[:, :i], eigvec[:i])]: the deflated residual. *)
Lemma deflated_residual data coeff eigvec i :
  wf data → wf coeff → wf eigvec →
  nrows coeff = nrows data → ncols coeff = nrows eigvec →
  ncols eigvec = ncols data → i < nrows eigvec →
  ∃ d, (dot (cols_to i coeff) (rows_to i eigvec)
          ≫= elementwise s_sub data) = Ok d
       ∧ wf d ∧ shape d = shape data
       ∧ ∀ j, j < ncols data →
           column j d = residual_column data coeff (rows_to i eigvec) j.
Proof.
  intros Hd Hc He Hn Hk Hdd Hi.
  unfold dot. rewrite decide_True by (simpl; lia).
  cbn [mbind result_bind].
  set (p := NDArray _ _ _).
  assert (wf p) as Hp.
  { split; simpl; [rewrite !length_fmap; by destruct Hc|].
    apply Forall_fmap, Forall_forall. intros r _. simpl.
    by rewrite length_fmap, length_seq. }
  assert (shape data = shape p) as Hs by (unfold shape; simpl; congruence).
  rewrite elementwise_same by done.
  eexists. split; [done|]. split; [by apply wf_zip_with|]. split; [done|].
  intros j Hj. rewrite column_zip_with by done.
  unfold residual_column. f_equal. unfold p.
  rewrite column_dot by (simpl; lia).
  cbn [cells cols_to nrows rows_to].
  rewrite <-list_fmap_compose. apply list_fmap_ext. intros _ cs _. simpl.
  by replace (i `min` nrows eigvec) with i by lia.
Qed.

(** [np.dot(c, d) / np.dot(c * c, w2)] (and its unweighted form): the row
    computed from the residual. *)
Lemma wls_row_computed data w2 coeff d i (R : nat → list F) :
  wf data → wf coeff → wf d → shape d = shape data →
  nrows coeff = nrows data → i < ncols coeff →
  match w2 with
  | Some w => wf w ∧ shape w = shape data
  | None => True
  end →
  (∀ j, j < ncols data → column j d = R j) →
  (w2d ← EMPCA.times_w2 w2 d;
   num ← dot (transpose (col_at i coeff)) w2d;
   w2c ← EMPCA.times_w2 w2 (col_at i coeff);
   den ← dot (transpose (col_at i coeff)) w2c;
   elementwise s_div num den)
  = Ok (NDArray 1 (ncols data)
          [(λ j, wls_entry (column j <$> w2) (column i coeff) (R j))
             <$> seq 0 (ncols data)]).
Proof.
  intros Hdata Hc Hd Hs Hn Hi Hw HR.
  injection Hs as Hsn Hsd.
  destruct (wf_col_at i coeff Hc Hi) as [Hcol Hcol1].
  rewrite transpose_col_at by done.
  destruct w2 as [w|]; cbn [EMPCA.times_w2 fmap option_fmap option_map].
  - destruct Hw as [Hw Hsw]. injection Hsw as Hwn Hwd.
    rewrite (elementwise_same s_mul w d)
      by (done || unfold shape; congruence).
    cbn [mbind result_bind].
    set (w2d := NDArray _ _ (zip_with _ _ _)).
    replace (nrows coeff) with (nrows w2d) by (simpl; congruence).
    rewrite dot_row_vector by auto. cbn [mbind result_bind].
    rewrite elementwise_column_r by (done || simpl; congruence).
    cbn [mbind result_bind].
    replace (nrows w2d) with (nrows (with_column s_mul w (col_at i coeff)))
      by done.
    rewrite dot_row_vector by auto. cbn [mbind result_bind].
    rewrite elementwise_same.
    + simpl. rewrite Hwd. do 3 f_equal.
      rewrite zip_with_fmap_l, zip_with_fmap_r, zip_with_diag.
      apply list_fmap_ext. intros k j Hj.
      apply lookup_seq in Hj as [-> Hj]. simpl. f_equal.
      * f_equal. unfold w2d.
        rewrite column_zip_with by (done || lia || unfold shape; congruence).
        by rewrite HR by lia.
      * f_equal.
        rewrite column_with_column by (done || lia || simpl; congruence).
        by rewrite column_col_at.
    + split; simpl; [done|]. repeat constructor.
      by rewrite length_fmap, length_seq.
    + split; simpl; [done|]. repeat constructor.
      by rewrite length_fmap, length_seq.
    + done.
  - cbn [mbind result_bind].
    replace (nrows coeff) with (nrows (scalar_mul s_one d))
      by (simpl; congruence).
    rewrite dot_row_vector by auto. cbn [mbind result_bind].
    replace (nrows (scalar_mul s_one d))
      with (nrows (scalar_mul s_one (col_at i coeff)))
      by (simpl; congruence).
    rewrite dot_row_vector by auto. cbn [mbind result_bind].
    rewrite elementwise_column_r.
    + unfold with_column. cbn [nrows ncols cells zip_with].
      replace (ncols (scalar_mul s_one (col_at i coeff))) with 1 by done.
      replace (ncols (scalar_mul s_one d)) with (ncols data) by done.
      simpl. do 3 f_equal.
      rewrite <-list_fmap_compose. apply list_fmap_ext. intros k j Hj.
      apply lookup_seq in Hj as [-> Hj]. simpl. f_equal.
      * f_equal. rewrite column_scalar_mul by (done || lia).
        by rewrite HR by lia.
      * f_equal. rewrite column_scalar_mul by (done || lia).
        by rewrite column_col_at.
    + split; simpl; [done|]. repeat constructor.
      by rewrite length_fmap, length_seq.
    + split; simpl; [done|]. repeat constructor.
      by rewrite length_fmap, length_seq.
    + done.
    + done.
Qed.

Lemma wf_append_row (a : ndarray F) v :
  wf a → length v = ncols a → wf (append_row a v).
Proof.
  intros [Hn Hc] Hv. split; simpl.
  - rewrite length_app. simpl. lia.
  - apply Forall_app. split; [done|]. by repeat constructor.
Qed.

Lemma length_wls_row data w2 coeff updated :
  length (wls_row data w2 coeff updated) = ncols data.
Proof. unfold wls_row. by rewrite length_fmap, length_seq. Qed.

(** One pass of the loop: row [i] is computed from the rows before it,
    and the rows up to it are replaced by their orthonormalization. *)
Lemma Mstep_body_by_rows data w2 coeff eigvec i :
  orthonormalize_keeps_shape →
  Mstep_shapes data w2 coeff eigvec → i < nrows eigvec →
  EMPCA._Mstep_body data w2 coeff i eigvec
  = o ← orthonormalize
          (append_row (rows_to i eigvec)
             (wls_row data w2 coeff (rows_to i eigvec)));
    Ok (NDArray (nrows eigvec) (ncols eigvec)
          (cells o ++ drop (i + 1) (cells eigvec))).
Proof.
  intros Horth (Hd & Hc & He & Hn & Hk & Hdd & Hw) Hi.
  unfold EMPCA._Mstep_body.
  destruct (deflated_residual data coeff eigvec i)
    as (d & Hres & Hwd & Hsd & Hcols); [done..|].
  apply result_bind_Ok_inv in Hres as (p & -> & Hres).
  cbn [mbind result_bind]. rewrite Hres. cbn [mbind result_bind].
  pose proof (wls_row_computed data w2 coeff d i _ Hd Hc Hwd Hsd Hn
                ltac:(lia) Hw Hcols) as Hrow.
  apply result_bind_Ok_inv in Hrow as (w2d & -> & Hrow).
  cbn [mbind result_bind].
  apply result_bind_Ok_inv in Hrow as (num & -> & Hrow).
  cbn [mbind result_bind].
  apply result_bind_Ok_inv in Hrow as (w2c & -> & Hrow).
  cbn [mbind result_bind].
  apply result_bind_Ok_inv in Hrow as (den & -> & Hrow).
  cbn [mbind result_bind]. rewrite Hrow. cbn [mbind result_bind].
  fold (wls_row data w2 coeff (rows_to i eigvec)).
  replace (nrows (rows_to i eigvec)) with i in * by (simpl; lia).
  set (row := (λ j, wls_entry _ _ _) <$> _).
  assert (row = wls_row data w2 coeff (rows_to i eigvec)) as Erow.
  { unfold row, wls_row. by replace (nrows (rows_to i eigvec)) with i
      by (simpl; lia). }
  assert (length row = ncols eigvec) as Hlen
    by (by rewrite Erow, length_wls_row).
  unfold set_row. rewrite decide_True by done.
  unfold assignable. rewrite bool_decide_eq_true_2 by (simpl; lia).
  cbn [mbind result_bind cells lookup list_lookup default].
  rewrite stretch_same by done. change (id row) with row.
  set (E1 := NDArray _ _ (<[i:=row]> _)).
  assert (rows_to (i + 1) E1
          = append_row (rows_to i eigvec) row) as ->.
  { unfold rows_to, append_row, E1. destruct He as [Hne _]. simpl. f_equal.
    - lia.
    - rewrite Nat.add_1_r. apply take_S_insert. lia. }
  rewrite <-Erow.
  assert (wf (append_row (rows_to i eigvec) row)) as Hwf
    by (apply wf_append_row; [by apply wf_rows_to|done]).
  destruct (orthonormalize _) as [o|e] eqn:Ho; [|done].
  cbn [mbind result_bind].
  destruct (Horth _ _ Hwf Ho) as [[Hno Hco] Hso].
  injection Hso as Hso1 Hso2. cbn [nrows ncols append_row rows_to] in *.
  unfold set_rows_to. cbn [nrows ncols cells E1].
  unfold assignable. rewrite bool_decide_eq_true_2 by lia.
  f_equal. f_equal. f_equal.
  - replace ((i + 1) `min` nrows eigvec) with (nrows o) by lia.
    rewrite <-Hso2. by apply broadcast_to_wf.
  - rewrite drop_insert_lt by lia. f_equal. lia.
Qed.

(** The rows computed by [Mstep_rows] keep the shape. *)
Lemma Mstep_rows_shape data w2 coeff m : ∀ updated P,
  orthonormalize_keeps_shape →
  wf updated → ncols updated = ncols data →
  Mstep_rows data w2 coeff m updated = Ok P →
  wf P ∧ shape P = (nrows updated + m, ncols data).
Proof.
  induction m as [|m IH]; intros updated P Horth Hu Hc; simpl.
  - intros [= <-]. split; [done|]. unfold shape. f_equal; [lia|done].
  - intros Hrun. apply result_bind_Ok_inv in Hrun as (o & Ho & Hrun).
    apply Horth in Ho as [Hwo Hso];
      [|apply wf_append_row; [done|by rewrite length_wls_row]].
    injection Hso as Hso1 Hso2. simpl in *.
    apply IH in Hrun as [HP HsP]; [|done|done|congruence].
    split; [done|]. rewrite HsP. f_equal. lia.
Qed.

Lemma Mstep_shapes_update data w2 coeff eigvec (o : ndarray F) i :
  Mstep_shapes data w2 coeff eigvec → i < nrows eigvec →
  wf o → shape o = (i + 1, ncols eigvec) →
  let eigvec' := NDArray (nrows eigvec) (ncols eigvec)
                   (cells o ++ drop (i + 1) (cells eigvec)) in
  Mstep_shapes data w2 coeff eigvec' ∧ rows_to (S i) eigvec' = o.
Proof.
  intros (Hd & Hc & He & Hn & Hk & Hdd & Hw) Hi [Hno Hco] Hso.
  injection Hso as Hso1 Hso2. destruct He as [Hne Hce]. split.
  - assert (wf (NDArray (nrows eigvec) (ncols eigvec)
                  (cells o ++ drop (i + 1) (cells eigvec)))) as HE'.
    { split; simpl.
      - rewrite length_app, length_drop. lia.
      - apply Forall_app. split; [by rewrite <-Hso2|by apply Forall_drop]. }
    unfold Mstep_shapes. split_and!; [done|done|exact HE'|done..].
  - unfold rows_to. cbn [nrows ncols cells].
    destruct o as [no co cso]; cbn [nrows ncols cells] in *.
    f_equal; [lia|done|].
    rewrite take_app_le by lia. apply take_ge. lia.
Qed.

(** The loop from row [i] on: [m] more rows. *)
Lemma Mstep_loop_by_rows data w2 coeff m : ∀ i eigvec,
  orthonormalize_keeps_shape →
  Mstep_shapes data w2 coeff eigvec → i + m ≤ nrows eigvec →
  for_each (EMPCA._Mstep_body data w2 coeff) (seq i m) eigvec
  = P ← Mstep_rows data w2 coeff m (rows_to i eigvec);
    Ok (NDArray (nrows eigvec) (ncols eigvec)
          (cells P ++ drop (i + m) (cells eigvec))).
Proof.
  induction m as [|m IH]; intros i eigvec Horth Hsh Him; simpl.
  - rewrite Nat.add_0_r, take_drop. by destruct eigvec.
  - rewrite Mstep_body_by_rows by (done || lia).
    replace (nrows (rows_to i eigvec)) with i by (simpl; lia).
    pose proof Hsh as (Hd & Hc & He & Hn & Hk & Hdd & Hw).
    assert (wf (append_row (rows_to i eigvec)
                  (wls_row data w2 coeff (rows_to i eigvec)))) as Hwf.
    { apply wf_append_row; [by apply wf_rows_to|].
      by rewrite length_wls_row. }
    destruct (orthonormalize _) as [o|e] eqn:Ho; [|done].
    cbn [mbind result_bind].
    destruct (Horth _ _ Hwf Ho) as [Hwo Hso].
    assert (shape o = (i + 1, ncols eigvec)) as Hso'.
    { rewrite Hso. unfold shape. simpl. f_equal. lia. }
    destruct (Mstep_shapes_update data w2 coeff eigvec o i)
      as [Hsh' Hrows]; [done|lia|done|done|].
    rewrite IH by (done || simpl; lia). rewrite Hrows.
    destruct (Mstep_rows data w2 coeff m o) as [P|e]; [|done].
    cbn [mbind result_bind nrows ncols cells]. do 3 f_equal.
    injection Hso' as Hso1 Hso2. destruct Hwo as [Hno _].
    rewrite drop_app_ge by lia. rewrite drop_drop. f_equal. lia.
Qed.

End mstep_facts.

(** * A run of [fit_transform] *)

(** Take a successful chain of binds apart, one link at a time. *)
Ltac inv_bind H :=
  let a := fresh "a" in
  let w := fresh "w" in
  let H1 := fresh "Hstep" in
  apply bind_Ok_inv in H as (a & w & H1 & H);
  first
    [ apply lift_Ok_inv in H1 as [-> H1]
    | apply set_self_inv in H1 as ->
    | apply get_self_inv in H1 as [-> ->]
    | apply enter_inv in H1 as ->
    | apply getattr_inv in H1 as [-> H1]
    | idtac ];
  cbn [self trace] in *.

Section fit_facts.
Context {F : Type} `{!Scalar F} `{!Utils F}.
Implicit Types (X X_c eigvec coeff : ndarray F) (w : world F).

Lemma em_cycle_Ok X_c weights eigvec w w' eigvec' :
  EMPCA.em_cycle X_c weights eigvec w = (w', Ok eigvec') →
  self w' = self w ∧ trace w' = trace w ++ [E_step; M_step] ∧
  ∃ coeff, EMPCA._Estep X_c weights eigvec = Ok coeff ∧
           EMPCA._Mstep X_c weights eigvec coeff = Ok eigvec'.
Proof.
  unfold EMPCA.em_cycle. intros H.
  do 3 inv_bind H.
  apply lift_Ok_inv in H as [-> H]. simpl.
  rewrite <-(assoc_L (++)). eauto.
Qed.

Lemma em_loop_Ok {B} X_c weights (xs : list B) : ∀ eigvec w w' eigvec',
  for_eachM (λ _ e, EMPCA.em_cycle X_c weights e) xs eigvec w
    = (w', Ok eigvec') →
  self w' = self w ∧
  trace w' = trace w ++ concat (replicate (length xs) [E_step; M_step]) ∧
  em_cycles X_c weights (length xs) eigvec = Ok eigvec'.
Proof.
  induction xs as [|x xs IH]; intros eigvec w w' eigvec' H; simpl in *.
  - injection H as <- <-. by rewrite (right_id_L [] (++)).
  - apply bind_Ok_inv in H as (e1 & w1 & H1 & H).
    apply em_cycle_Ok in H1 as (Hs1 & Ht1 & c & HE & HM).
    apply IH in H as (Hs & Ht & Hc).
    rewrite Hs, Ht, Ht1, Hs1, HE. cbn [mbind result_bind]. rewrite HM.
    cbn [mbind result_bind].
    split; [done|]. split; [|done]. by rewrite <-(assoc_L (++)).
Qed.

(** What a call of [fit_transform] that returns has done. *)
Lemma fit_transform_Ok X weights w0 w' coeff :
  EMPCA.fit_transform X weights w0 = (w', Ok coeff) →
  ∃ mean X_c eigvec0 eigvec g var,
    EMPCA.fit_mean X weights = Ok mean ∧
    elementwise s_sub X (as_row mean) = Ok X_c ∧
    random_orthonormal (n_components (self w0)) (ncols X)
      (random_state (self w0)) = Ok eigvec0 ∧
    em_cycles X_c weights (max_iter (self w0)) eigvec0 = Ok eigvec ∧
    EMPCA._Estep X_c weights eigvec = Ok coeff ∧
    dot (transpose coeff) coeff = Ok g ∧
    var0 X_c = Ok var ∧
    trace w' = trace w0 ++ fixed_budget (max_iter (self w0)) ∧
    self w' =
      Build_EMPCA (n_components (self w0)) (max_iter (self w0))
        (random_state (self w0)) (Some mean) (Some eigvec)
        (Some (div_count (diagonal g) (nrows X)))
        (Some ((λ x, s_div x (vsum var))
                 <$> div_count (diagonal g) (nrows X))).
Proof.
  unfold EMPCA.fit_transform. intros H.
  do 7 inv_bind H.
  match goal with
  | Hl : for_eachM _ _ _ _ = _ |- _ =>
      apply em_loop_Ok in Hl as (Hs & Ht & Hc)
  end.
  rewrite length_seq in Ht, Hc. cbn [self trace] in *.
  do 8 inv_bind H.
  injection H as <- <-. cbn [self trace].
  rewrite Hs, Ht in *. simpl in *. simplify_eq.
  do 6 eexists. split_and!; try done.
  unfold fixed_budget. by rewrite <-(assoc_L (++)).
Qed.

Lemma empca_cycle_Ok data weights ec w w' ec' :
  empca_cycle data weights ec w = (w', Ok ec') →
  self w' = self w ∧ trace w' = trace w ++ [E_step; M_step].
Proof.
  unfold empca_cycle. intros H. do 4 inv_bind H.
  injection H as <- <-. simpl. by rewrite <-(assoc_L (++)).
Qed.

Lemma empca_loop_Ok {B} data weights (xs : list B) : ∀ ec w w' ec',
  for_eachM (λ _ ec, empca_cycle data weights ec) xs ec w = (w', Ok ec') →
  self w' = self w ∧
  trace w' = trace w ++ concat (replicate (length xs) [E_step; M_step]).
Proof.
  induction xs as [|x xs IH]; intros ec w w' ec' H; simpl in *.
  - injection H as <- <-. by rewrite (right_id_L [] (++)).
  - apply bind_Ok_inv in H as (e1 & w1 & H1 & H).
    apply empca_cycle_Ok in H1 as (Hs1 & Ht1).
    apply IH in H as (Hs & Ht).
    rewrite Hs, Ht, Ht1, Hs1. split; [done|]. by rewrite <-(assoc_L (++)).
Qed.

(** What a call of [empca] that returns has done. *)
Lemma empca_Ok data weights nvec niter seed w0 w' eigvec coeff :
  empca data weights nvec niter seed w0 = (w', Ok (eigvec, coeff)) →
  shape data = shape weights ∧ nvec ≤ ncols data ∧
  self w' = self w0 ∧ trace w' = trace w0 ++ fixed_budget niter ∧
  ∃ coeff', _Estep eigvec data weights coeff' = Ok coeff.
Proof.
  unfold empca. intros H.
  apply bind_Ok_inv in H as (? & w1 & H1 & H).
  destruct (decide (shape data = shape weights)) as [Hs|]; [|done].
  injection H1 as <-.
  apply bind_Ok_inv in H as (? & w2 & H2 & H).
  destruct (decide (nvec ≤ ncols data)) as [Hk|]; [|done].
  injection H2 as <-.
  do 2 inv_bind H.
  match goal with
  | Hl : for_eachM _ _ _ _ = _ |- _ =>
      apply empca_loop_Ok in Hl as (Hsl & Htl)
  end.
  rewrite length_seq in Htl.
  do 2 inv_bind H. injection H as <- <- <-. cbn [self trace].
  rewrite Hsl, Htl. split_and!; [done..| |by eauto].
  unfold fixed_budget. by rewrite <-(assoc_L (++)).
Qed.

Lemma run_ret {S A B} (a : A) (k : A → ST S B) s : (mret a ≫= k) s = k a s.
Proof. done. Qed.

Lemma empca_cycle_value data W ec (w : world F) :
  ∃ tr,
    empca_cycle data W ec w
    = (World (self w) tr,
       c ← _Estep ec.1 data W ec.2;
       e ← _Mstep ec.1 data W c;
       Ok (e, c)).
Proof.
  unfold empca_cycle, mbind at 1 2 3 4, ST_bind, enter, lift. simpl.
  destruct (_Estep ec.1 data W ec.2) as [c|ex]; simpl; [|by eexists].
  destruct (_Mstep ec.1 data W c) as [e|ex]; simpl; by eexists.
Qed.

Lemma empca_loop_value {B} data W (xs : list B) :
  ∀ ec (w : world F),
  ∃ tr,
    for_eachM (λ _ ec, empca_cycle data W ec) xs ec w
    = (World (self w) tr,
       for_each (λ _ ec, c ← _Estep ec.1 data W ec.2;
                         e ← _Mstep ec.1 data W c;
                         Ok (e, c)) xs ec).
Proof.
  induction xs as [|x xs IH]; intros ec w.
  - exists (trace w). by destruct w.
  - cbn [for_eachM for_each].
    destruct (empca_cycle_value data W ec w) as [tr1 H1].
    rewrite (bind_run_any _ _ _ _ _ H1).
    destruct (_Estep ec.1 data W ec.2) as [c|ex];
      cbn [mbind result_bind]; [|by eexists].
    destruct (_Mstep ec.1 data W c) as [e1|ex];
      cbn [mbind result_bind]; [|by eexists].
    destruct (IH (e1, c) (World (self w) tr1)) as [tr Htr].
    rewrite Htr. by eexists.
Qed.

(** [empca] on arguments that pass its assertions, as one computation
    on values. *)
Lemma empca_value data W nvec niter seed (w : world F) :
  shape data = shape W → nvec ≤ ncols data →
  ∃ tr,
    empca data W nvec niter seed w
    = (World (self w) tr,
       e0 ← random_orthonormal nvec (ncols data) seed;
       ec ← for_each (λ _ ec, c ← _Estep ec.1 data W ec.2;
                              e ← _Mstep ec.1 data W c;
                              Ok (e, c))
               (seq 0 niter) (e0, np_zeros (nrows data) nvec);
       c ← _Estep ec.1 data W ec.2;
       Ok (ec.1, c)).
Proof.
  intros Hs Hk. unfold empca.
  rewrite !decide_True by done.
  rewrite !run_ret.
  rewrite run_lift.
  destruct (random_orthonormal nvec (ncols data) seed) as [e0|ex];
    cbn [mbind result_bind]; [|exists (trace w); by destruct w].
  destruct (empca_loop_value data W (seq 0 niter)
              (e0, np_zeros (nrows data) nvec) w) as [tr Htr].
  rewrite (bind_run_any _ _ _ _ _ Htr).
  destruct (for_each _ _ _) as [ec|ex]; cbn [mbind result_bind];
    [|by eexists].
  rewrite run_enter, run_lift.
  destruct (_Estep ec.1 data W ec.2) as [c|ex]; cbn [mbind result_bind];
    by eexists.
Qed.

(** The loop of [empca] on values is [empca_cycles]. *)
Lemma empca_cycles_for_each {B} data W (xs : list B) : ∀ ec,
  for_each (λ _ ec, c ← _Estep ec.1 data W ec.2;
                    e ← _Mstep ec.1 data W c;
                    Ok (e, c)) xs ec
  = empca_cycles data W (length xs) ec.
Proof.
  induction xs as [|x xs IH]; intros ec; [done|].
  cbn [for_each length empca_cycles].
  destruct (_Estep ec.1 data W ec.2) as [c|ex]; cbn [mbind result_bind];
    [|done].
  destruct (_Mstep ec.1 data W c) as [e|ex]; cbn [mbind result_bind];
    [|done].
  apply IH.
Qed.

Lemma em_cycle_value X_c weights eigvec (w : world F) :
  ∃ tr,
    EMPCA.em_cycle X_c weights eigvec w
    = (World (self w) tr,
       coeff ← EMPCA._Estep X_c weights eigvec;
       EMPCA._Mstep X_c weights eigvec coeff).
Proof.
  unfold EMPCA.em_cycle, mbind, ST_bind, enter, lift. simpl.
  destruct (EMPCA._Estep X_c weights eigvec) as [c|ex]; simpl; by eexists.
Qed.

Lemma em_loop_value {B} X_c weights (xs : list B) : ∀ eigvec (w : world F),
  ∃ tr,
    for_eachM (λ _ e, EMPCA.em_cycle X_c weights e) xs eigvec w
    = (World (self w) tr, em_cycles X_c weights (length xs) eigvec).
Proof.
  induction xs as [|x xs IH]; intros eigvec w.
  - exists (trace w). by destruct w.
  - cbn [for_eachM length em_cycles].
    destruct (em_cycle_value X_c weights eigvec w) as [tr1 H1].
    rewrite (bind_run_any _ _ _ _ _ H1).
    destruct (EMPCA._Estep X_c weights eigvec) as [c|ex];
      cbn [mbind result_bind]; [|by eexists].
    destruct (EMPCA._Mstep X_c weights eigvec c) as [e1|ex];
      cbn [mbind result_bind]; [|by eexists].
    destruct (IH e1 (World (self w) tr1)) as [tr Htr].
    rewrite Htr. by eexists.
Qed.

(** [fit_transform] returns the coefficients of [fit_values] and leaves
    the estimator with its attributes, or raises what it raises. *)
Lemma fit_transform_values X weights (w : world F) :
  let o := self w in
  let run := EMPCA.fit_transform X weights w in
  run.2 = snd <$> fit_values X weights (n_components o) (max_iter o)
                    (random_state o)
  ∧ ∀ o' c, fit_values X weights (n_components o) (max_iter o)
              (random_state o) = Ok (o', c) →
            self run.1 = o'.
Proof.
  intros o run. subst o run. unfold EMPCA.fit_transform, fit_values.
  rewrite run_lift.
  destruct (EMPCA.fit_mean X weights) as [mean|ex];
    cbn [mbind result_bind fmap result_fmap fst snd]; [|done].
  rewrite run_set_self, run_lift.
  destruct (elementwise s_sub X (as_row mean)) as [X_c|ex];
    cbn [mbind result_bind fmap result_fmap fst snd]; [|done].
  rewrite run_get_self, run_lift.
  cbn [self set_mean_ n_components random_state max_iter].
  destruct (random_orthonormal _ _ _) as [e0|ex];
    cbn [mbind result_bind fmap result_fmap fst snd]; [|done].
  rewrite run_get_self.
  cbn [self set_mean_ n_components random_state max_iter].
  destruct (em_loop_value X_c weights (seq 0 (max_iter (self w))) e0
              (World (set_mean_ mean (self w)) (trace w))) as [tr Htr].
  rewrite (bind_run_any _ _ _ _ _ Htr), length_seq.
  destruct (em_cycles X_c weights (max_iter (self w)) e0) as [e|ex];
    cbn [mbind result_bind fmap result_fmap fst snd]; [|done].
  rewrite run_enter, run_lift.
  destruct (EMPCA._Estep X_c weights e) as [coeff|ex];
    cbn [mbind result_bind fmap result_fmap fst snd]; [|done].
  rewrite run_set_self, run_lift.
  destruct (dot (transpose coeff) coeff) as [g|ex];
    cbn [mbind result_bind fmap result_fmap fst snd]; [|done].
  rewrite run_set_self.
  rewrite (run_getattr _ _ _ (div_count (diagonal g) (nrows X))) by done.
  rewrite run_lift.
  destruct (var0 X_c) as [var|ex];
    cbn [mbind result_bind fmap result_fmap fst snd]; [|done].
  rewrite run_set_self.
  split; [done|]. by intros o' c [= <- <-].
Qed.

End fit_facts.

(** * Array objects a call leaves alone *)

Section frame.
Context {F : Type} `{!Scalar F} `{!Utils F}.
Implicit Types (h : gmap loc (ndarray F)) (σ : store F) (l : loc).

Lemma frames_bind {A B} h Q R (m : ST (store F) A)
    (f : A → ST (store F) B) :
  frames h Q m → (∀ a, Q a → frames h R (f a)) → frames h R (m ≫= f).
Proof.
  intros Hm Hf σ Hσ. destruct (Hm σ Hσ) as [H1 H2].
  unfold mbind, ST_bind. destruct (m σ) as [σ1 [a|e]]; simpl in *.
  - apply Hf; [by apply H2|done].
  - done.
Qed.

Lemma frames_mono {A} h (Q Q' : A → Prop) (m : ST (store F) A) :
  (∀ a, Q a → Q' a) → frames h Q m → frames h Q' m.
Proof. intros HQ Hm σ Hσ. destruct (Hm σ Hσ). naive_solver. Qed.

Lemma frames_ret {A} h (Q : A → Prop) a : Q a → frames h Q (mret a).
Proof. intros HQ σ Hσ. split; [done|]. by intros ? [= <-]. Qed.

Lemma frames_lift {A} h (r : result A) : frames h (λ _, True) (lift r).
Proof. by intros σ Hσ. Qed.

Lemma frames_load h l : frames h (λ _, True) (load l).
Proof. intros σ Hσ. unfold load. by destruct (heap σ !! l). Qed.

Lemma frames_load_opt h ol : frames h (λ _, True) (load_opt ol).
Proof.
  destruct ol as [l|]; simpl; [|by apply frames_ret].
  eapply frames_bind; [apply frames_load|]. intros a _. by apply frames_ret.
Qed.

Lemma frames_get_this h : frames h (λ _, True) get_this.
Proof. by intros σ Hσ. Qed.

Lemma frames_set_this h f : frames h (λ _, True) (set_this f).
Proof. by intros σ Hσ. Qed.

Lemma frames_getattr_this {A} h (g : EMPCA F loc → option A) :
  frames h (λ _, True) (getattr_this g).
Proof. intros σ Hσ. unfold getattr_this. by destruct (g (this σ)). Qed.

(** A new object is none of the objects of [h]. *)
Lemma frames_alloc h a : frames h (new_in h) (alloc a).
Proof.
  intros σ Hσ. unfold alloc. simpl.
  pose proof (is_fresh (dom (heap σ))) as Hfresh.
  assert (fresh (dom (heap σ)) ∉ dom h) as Hnew.
  { intros Hin. apply Hfresh. by eapply subseteq_dom. }
  split; [|by intros ? [= <-]].
  apply insert_subseteq_r; [|done]. by apply not_elem_of_dom.
Qed.

(** Writing to an object that is none of the objects of [h]. *)
Lemma frames_overwrite h l a :
  new_in h l → frames h (λ _, True) (overwrite l a).
Proof.
  intros Hl σ Hσ. unfold overwrite. simpl. split; [|done].
  apply insert_subseteq_r; [|done]. by apply not_elem_of_dom.
Qed.

Lemma frames_write h l f :
  new_in h l → frames h (λ _, True) (write l f).
Proof.
  intros Hl. unfold write.
  eapply frames_bind; [apply frames_load|]. intros a _.
  eapply frames_bind; [apply frames_lift|]. intros a' _.
  by apply frames_overwrite.
Qed.

Lemma frames_for_eachM {A B} h (Q : A → Prop)
    (body : B → A → ST (store F) A) xs :
  (∀ x acc, Q acc → frames h Q (body x acc)) →
  ∀ acc, Q acc → frames h Q (for_eachM body xs acc).
Proof.
  intros Hb. induction xs as [|x xs IH]; intros acc Hacc; simpl.
  - by apply frames_ret.
  - eapply frames_bind; [by apply Hb|]. apply IH.
Qed.

End frame.

Create HintDb frames.
#[global] Hint Resolve frames_lift frames_load frames_load_opt frames_get_this
  frames_set_this frames_getattr_this frames_alloc : frames.

(** Walk down a chain of binds, each link by its frame lemma. *)
Ltac frames_link :=
  first [ apply frames_write; assumption
        | solve [eauto with frames] ].

Ltac frames_step :=
  lazymatch goal with
  | |- frames _ _ (mbind _ _) =>
      eapply frames_bind; [frames_link|]; intros ? ?
  end.

Ltac frames_steps :=
  repeat frames_step;
  try first [ frames_link | apply frames_ret; first [assumption | exact I] ].

Section frame_methods.
Context {F : Type} `{!Scalar F} `{!Utils F}.
Implicit Types (h : gmap loc (ndarray F)) (l : loc).

Lemma frames_Estep h data weights eigvec :
  frames h (new_in h) (InStore._Estep data weights eigvec).
Proof. unfold InStore._Estep. frames_steps. Qed.

Lemma frames_Mstep_body h data w2 eigvec coeff i :
  new_in h eigvec →
  frames h (λ _, True) (InStore._Mstep_body data w2 eigvec coeff i).
Proof. intros He. unfold InStore._Mstep_body. frames_steps. Qed.

Lemma frames_Mstep h data weights eigvec coeff :
  new_in h eigvec →
  frames h (new_in h) (InStore._Mstep data weights eigvec coeff).
Proof.
  intros He. unfold InStore._Mstep.
  eapply frames_bind with (Q := λ _, True).
  { destruct weights; frames_steps. }
  intros w2 _. eapply frames_bind; [apply frames_load|]. intros E _.
  eapply frames_bind.
  { apply (frames_for_eachM h (λ _, True)); [|done].
    intros i [] _. by apply frames_Mstep_body. }
  intros [] _. by apply frames_ret.
Qed.

Lemma frames_fit_transform h X weights :
  frames h (new_in h) (InStore.fit_transform X weights).
Proof.
  unfold InStore.fit_transform.
  eapply frames_bind with (Q := λ _, True).
  { destruct weights; frames_steps. }
  intros mean _. repeat frames_step.
  eapply frames_bind.
  { apply (frames_for_eachM h (new_in h)); [|done].
    intros _ e He. eapply frames_bind; [apply frames_Estep|].
    intros c Hc. by apply frames_Mstep. }
  intros eigvec He.
  eapply frames_bind; [apply frames_Estep|]. intros coeff Hc.
  frames_steps.
Qed.

Lemma frames_transform h X weights :
  frames h (new_in h) (InStore.transform X weights).
Proof.
  unfold InStore.transform. repeat frames_step.
  apply frames_Estep.
Qed.

Lemma frames_inverse_transform h X :
  frames h (new_in h) (InStore.inverse_transform X).
Proof. unfold InStore.inverse_transform. frames_steps. Qed.

End frame_methods.

(** * The store model computes what the value model computes *)

Section store_runs.
Context {F : Type} `{!Scalar F} `{!Utils F}.
Implicit Types (σ : store F) (l : loc).

Lemma run_load {A} σ l a (f : ndarray F → ST (store F) A) :
  heap σ !! l = Some a → (load l ≫= f) σ = f a σ.
Proof. intros H. unfold mbind, ST_bind, load. by rewrite H. Qed.

Lemma run_load_opt {A} σ ol w (f : option (ndarray F) → ST (store F) A) :
  deref_opt σ ol = Some w → (load_opt ol ≫= f) σ = f w σ.
Proof.
  destruct ol as [l|]; simpl.
  - destruct (heap σ !! l) as [a|] eqn:Hl; [|done]. intros [= <-].
    unfold mbind at 1, ST_bind. by rewrite (run_load σ l a).
  - by intros [= <-].
Qed.

Lemma unchanged_except_refl l σ : unchanged_except l σ σ.
Proof. by intros ???. Qed.

Lemma unchanged_except_trans l σ1 σ2 σ3 :
  unchanged_except l σ1 σ2 → unchanged_except l σ2 σ3 →
  unchanged_except l σ1 σ3.
Proof. intros H1 H2 l' a Hne Hl. by apply H2, H1. Qed.

Lemma unchanged_except_alloc l σ a :
  unchanged_except l σ (alloc a σ).1.
Proof.
  intros l' a' _ Hl. unfold alloc. simpl.
  rewrite lookup_insert_ne; [done|]. intros <-.
  pose proof (is_fresh (dom (heap σ))) as Hf.
  apply Hf, elem_of_dom. eauto.
Qed.

Lemma unchanged_except_overwrite l σ a :
  unchanged_except l σ (overwrite l a σ).1.
Proof.
  intros l' a' Hne Hl. unfold overwrite. simpl. by rewrite lookup_insert_ne.
Qed.

Lemma deref_opt_Some_lookup σ l w :
  deref_opt σ (Some l) = Some w → ∃ a, heap σ !! l = Some a.
Proof. simpl. destruct (heap σ !! l); [eauto|done]. Qed.

Lemma deref_opt_unchanged l σ σ' ol w :
  unchanged_except l σ σ' → ol ≠ Some l →
  deref_opt σ ol = Some w → deref_opt σ' ol = Some w.
Proof.
  intros Hu Hne. destruct ol as [l'|]; simpl; [|done].
  destruct (heap σ !! l') as [a|] eqn:Hl; [|done]. intros [= <-].
  rewrite (Hu l' a); [done|congruence|done].
Qed.

(** The E-step reads its arguments and allocates the coefficients. *)
Lemma Estep_runs σ data weights eigvec d w e :
  heap σ !! data = Some d → deref_opt σ weights = Some w →
  heap σ !! eigvec = Some e →
  InStore._Estep data weights eigvec σ
  = match EMPCA._Estep d w e with
    | Ok c => alloc c σ
    | Raise ex => (σ, Raise ex)
    end.
Proof.
  intros Hd Hw He. unfold InStore._Estep.
  rewrite (run_load σ data d) by done.
  rewrite (run_load_opt σ weights w) by done.
  rewrite (run_load σ eigvec e) by done.
  rewrite run_lift. by destruct (EMPCA._Estep d w e).
Qed.

Lemma run_alloc {A} σ a (f : loc → ST (store F) A) :
  (alloc a ≫= f) σ = f (fresh (dom (heap σ))) (alloc a σ).1.
Proof. done. Qed.

Lemma run_overwrite {A} σ l a (f : () → ST (store F) A) :
  (overwrite l a ≫= f) σ = f () (overwrite l a σ).1.
Proof. done. Qed.

Lemma alloc_lookup_old σ l a b :
  heap σ !! l = Some a → heap (alloc b σ).1 !! l = Some a.
Proof.
  intros Hl. unfold alloc. simpl. rewrite lookup_insert_ne; [done|].
  intros <-. apply (is_fresh (dom (heap σ))), elem_of_dom. eauto.
Qed.

Lemma alloc_lookup_new σ b :
  heap (alloc b σ).1 !! fresh (dom (heap σ)) = Some b.
Proof. unfold alloc. simpl. by rewrite lookup_insert_eq. Qed.

Lemma alloc_new_ne σ l a :
  heap σ !! l = Some a → l ≠ fresh (dom (heap σ)).
Proof.
  intros Hl ->. apply (is_fresh (dom (heap σ))), elem_of_dom. eauto.
Qed.

Lemma deref_opt_alloc σ ol w b :
  deref_opt σ ol = Some w → deref_opt (alloc b σ).1 ol = Some w.
Proof.
  destruct ol as [l|]; simpl; [|done].
  destruct (heap σ !! l) as [a|] eqn:Hl; [|done]. intros [= <-].
  change (Some <$> heap (alloc b σ).1 !! l = Some (Some a)).
  by rewrite (alloc_lookup_old σ l a).
Qed.

Lemma overwrite_lookup σ l a : heap (overwrite l a σ).1 !! l = Some a.
Proof. unfold overwrite. simpl. by rewrite lookup_insert_eq. Qed.

Lemma overwrite_lookup_ne σ l l' a b :
  l' ≠ l → heap σ !! l' = Some b → heap (overwrite l a σ).1 !! l' = Some b.
Proof. intros Hne Hl. unfold overwrite. simpl. by rewrite lookup_insert_ne. Qed.

Lemma deref_opt_overwrite σ l ol w a :
  ol ≠ Some l → deref_opt σ ol = Some w →
  deref_opt (overwrite l a σ).1 ol = Some w.
Proof.
  intros Hne. eapply deref_opt_unchanged; [|done].
  apply unchanged_except_overwrite.
Qed.

(** An indexed assignment to the object at [l], whose value is [a]. *)
Lemma run_write {A} σ l a update (f : () → ST (store F) A) :
  heap σ !! l = Some a →
  (write l update ≫= f) σ
  = match update a with
    | Ok a' => f () (overwrite l a' σ).1
    | Raise e => (σ, Raise e)
    end.
Proof.
  intros Hl. unfold write. rewrite ST_bind_assoc.
  rewrite (run_load σ l a) by done. rewrite ST_bind_assoc, run_lift.
  by destruct (update a).
Qed.

Lemma run_write_last σ l a update :
  heap σ !! l = Some a →
  write l update σ
  = match update a with
    | Ok a' => overwrite l a' σ
    | Raise e => (σ, Raise e)
    end.
Proof.
  intros Hl. unfold write. rewrite (run_load σ l a) by done.
  rewrite run_lift. by destruct (update a).
Qed.

(** One pass of the loop of the M-step: the store model ends with the
    basis of the value model at [eigvec], and has changed no other
    object. *)
Lemma Mstep_body_runs σ data w2 eigvec coeff i D W2 C E :
  heap σ !! data = Some D → heap σ !! coeff = Some C →
  heap σ !! eigvec = Some E → deref_opt σ w2 = Some W2 →
  eigvec ≠ data → eigvec ≠ coeff → w2 ≠ Some eigvec →
  ∃ σ',
    InStore._Mstep_body data w2 eigvec coeff i σ
    = (σ', (λ _, ()) <$> EMPCA._Mstep_body D W2 C i E)
    ∧ this σ' = this σ
    ∧ unchanged_except eigvec σ σ'
    ∧ is_Some (heap σ' !! eigvec)
    ∧ ∀ E', EMPCA._Mstep_body D W2 C i E = Ok E' →
            heap σ' !! eigvec = Some E'.
Proof.
  intros HD HC HE HW2 Hed Hec Hew.
  unfold InStore._Mstep_body, EMPCA._Mstep_body.
  rewrite (run_load σ data D), (run_load σ coeff C),
    (run_load σ eigvec E) by done.
  rewrite run_lift.
  destruct (dot (cols_to i C) (rows_to i E)) as [p|ex];
    cbn [mbind result_bind fmap result_fmap];
    [|eexists; split_and!; [done..|by apply unchanged_except_refl|by eauto|done]].
  rewrite run_lift.
  destruct (elementwise s_sub D p) as [dv|ex];
    cbn [mbind result_bind fmap result_fmap];
    [|eexists; split_and!; [done..|by apply unchanged_except_refl|by eauto|done]].
  rewrite run_alloc.
  pose proof (alloc_lookup_new σ dv) as Hd1.
  pose proof (alloc_lookup_old σ coeff C dv HC) as HC1.
  pose proof (alloc_lookup_old σ eigvec E dv HE) as HE1.
  pose proof (deref_opt_alloc σ w2 W2 dv HW2) as HW1.
  pose proof (unchanged_except_alloc eigvec σ dv) as Hu1.
  assert (this (alloc dv σ).1 = this σ) as Ht1 by done.
  set (σ1 := (alloc dv σ).1) in *. set (ld := fresh (dom (heap σ))) in *.
  rewrite (run_load σ1 coeff C), (run_load_opt σ1 w2 W2),
    (run_load σ1 ld dv) by done.
  rewrite run_lift.
  destruct (EMPCA.times_w2 W2 dv) as [w2d|ex];
    cbn [mbind result_bind fmap result_fmap];
    [|eexists; split_and!; [done..|by eauto|done]].
  rewrite run_lift.
  destruct (dot (transpose (col_at i C)) w2d) as [num|ex];
    cbn [mbind result_bind fmap result_fmap];
    [|eexists; split_and!; [done..|by eauto|done]].
  rewrite run_lift.
  destruct (EMPCA.times_w2 W2 (col_at i C)) as [w2c|ex];
    cbn [mbind result_bind fmap result_fmap];
    [|eexists; split_and!; [done..|by eauto|done]].
  rewrite run_lift.
  destruct (dot (transpose (col_at i C)) w2c) as [den|ex];
    cbn [mbind result_bind fmap result_fmap];
    [|eexists; split_and!; [done..|by eauto|done]].
  rewrite run_lift.
  destruct (elementwise s_div num den) as [v|ex];
    cbn [mbind result_bind fmap result_fmap];
    [|eexists; split_and!; [done..|by eauto|done]].
  rewrite (run_write σ1 eigvec E) by done.
  destruct (set_row i v E) as [E1|ex];
    cbn [mbind result_bind fmap result_fmap];
    [|eexists; split_and!; [done..|by eauto|done]].
  pose proof (overwrite_lookup σ1 eigvec E1) as HE2.
  assert (unchanged_except eigvec σ (overwrite eigvec E1 σ1).1) as Hu2.
  { eapply unchanged_except_trans; [done|].
    apply unchanged_except_overwrite. }
  assert (this (overwrite eigvec E1 σ1).1 = this σ) as Ht2 by done.
  set (σ2 := (overwrite eigvec E1 σ1).1) in *.
  rewrite (run_load σ2 eigvec E1) by done.
  rewrite run_lift.
  destruct (orthonormalize (rows_to (i + 1) E1)) as [o|ex];
    cbn [mbind result_bind fmap result_fmap];
    [|eexists; split_and!; [done..|by eauto|done]].
  rewrite (run_write_last σ2 eigvec E1) by done.
  destruct (set_rows_to (i + 1) o E1) as [E2|ex];
    cbn [mbind result_bind fmap result_fmap];
    [|eexists; split_and!; [done..|by eauto|done]].
  exists (overwrite eigvec E2 σ2).1. split_and!.
  - done.
  - done.
  - eapply unchanged_except_trans; [done|].
    apply unchanged_except_overwrite.
  - rewrite overwrite_lookup. eauto.
  - intros E' [= <-]. apply overwrite_lookup.
Qed.

Lemma Mstep_loop_runs data w2 eigvec coeff D W2 C xs : ∀ σ E,
  heap σ !! data = Some D → heap σ !! coeff = Some C →
  heap σ !! eigvec = Some E → deref_opt σ w2 = Some W2 →
  eigvec ≠ data → eigvec ≠ coeff → w2 ≠ Some eigvec →
  ∃ σ',
    for_eachM (λ i _, InStore._Mstep_body data w2 eigvec coeff i) xs () σ
    = (σ', (λ _, ()) <$> for_each (EMPCA._Mstep_body D W2 C) xs E)
    ∧ this σ' = this σ
    ∧ unchanged_except eigvec σ σ'
    ∧ is_Some (heap σ' !! eigvec)
    ∧ ∀ E', for_each (EMPCA._Mstep_body D W2 C) xs E = Ok E' →
            heap σ' !! eigvec = Some E'.
Proof.
  induction xs as [|i xs IH]; intros σ E HD HC HE HW2 Hed Hec Hew.
  - exists σ. simpl. split_and!; [done|done| |by eauto|by intros ? [= <-]].
    apply unchanged_except_refl.
  - destruct (Mstep_body_runs σ data w2 eigvec coeff i D W2 C E)
      as (σ1 & Hrun & Ht1 & Hu1 & Hs1 & HE1); [done..|].
    cbn [for_eachM for_each].
    destruct (EMPCA._Mstep_body D W2 C i E) as [E1|ex];
      cbn [fmap result_fmap mbind result_bind] in *.
    + rewrite (bind_run _ _ _ _ _ Hrun).
      destruct (IH σ1 E1) as (σ2 & Hrun2 & Ht2 & Hu2 & Hs2 & HE2);
        [by apply Hu1|by apply Hu1|by apply HE1| |done..|].
      { eapply deref_opt_unchanged; [done|done|done]. }
      exists σ2. split_and!; [done|congruence| |done|done].
      by eapply unchanged_except_trans.
    + rewrite (bind_raise _ _ _ _ _ Hrun). exists σ1. by split_and!.
Qed.

Lemma Mstep_runs σ data weights eigvec coeff D W C E :
  heap σ !! data = Some D → heap σ !! coeff = Some C →
  heap σ !! eigvec = Some E → deref_opt σ weights = Some W →
  eigvec ≠ data → eigvec ≠ coeff → weights ≠ Some eigvec →
  ∃ σ',
    InStore._Mstep data weights eigvec coeff σ
    = (σ', (λ _, eigvec) <$> EMPCA._Mstep D W E C)
    ∧ this σ' = this σ
    ∧ unchanged_except eigvec σ σ'
    ∧ is_Some (heap σ' !! eigvec)
    ∧ ∀ E', EMPCA._Mstep D W E C = Ok E' → heap σ' !! eigvec = Some E'.
Proof.
  intros HD HC HE HW Hed Hec Hew. unfold InStore._Mstep, EMPCA._Mstep.
  assert (∃ σ1 w2,
            match weights with
            | Some lw => Wv ← load lw; l ← alloc (square Wv); mret (Some l)
            | None => mret None
            end σ = (σ1, Ok w2)
            ∧ deref_opt σ1 w2 = Some (square <$> W)
            ∧ this σ1 = this σ
            ∧ (∀ l a, heap σ !! l = Some a → heap σ1 !! l = Some a)
            ∧ w2 ≠ Some eigvec) as (σ1 & w2 & Hw2 & HW2 & Ht1 & Hold & Hne).
  { destruct weights as [lw|]; simpl in HW.
    - destruct (heap σ !! lw) as [Wv|] eqn:Hlw; [|done].
      injection HW as <-.
      rewrite (run_load σ lw Wv) by done. rewrite run_alloc.
      eexists _, _. split; [done|]. split_and!.
      + simpl. by rewrite lookup_insert_eq.
      + done.
      + intros l a Hl. by apply alloc_lookup_old.
      + intros [= Heq]. by apply (alloc_new_ne σ eigvec E).
    - injection HW as <-. exists σ, None. by split_and!. }
  rewrite (bind_run _ _ _ _ _ Hw2).
  rewrite (run_load σ1 eigvec E) by (by apply Hold).
  destruct (Mstep_loop_runs data w2 eigvec coeff D (square <$> W) C
              (seq 0 (nrows E)) σ1 E)
    as (σ2 & Hrun & Ht2 & Hu2 & Hs2 & HE2); [by apply Hold..|done|done|done|done|].
  destruct (for_each _ _ E) as [E'|ex] eqn:Hfor;
    cbn [fmap result_fmap] in *.
  - rewrite (bind_run _ _ _ _ _ Hrun). exists σ2.
    split_and!; [done|congruence| |done|done].
    intros l a Hne' Hl. by apply Hu2, Hold.
  - rewrite (bind_raise _ _ _ _ _ Hrun). exists σ2.
    split_and!; [done|congruence| |done|done].
    intros l a Hne' Hl. by apply Hu2, Hold.
Qed.

(** The loop of [fit_transform]: the basis object is the same throughout
    and ends with the basis of the value model. *)
Lemma em_loop_runs {B} X_c weights xc w (xs : list B) : ∀ σ eigvec e,
  heap σ !! X_c = Some xc → deref_opt σ weights = Some w →
  heap σ !! eigvec = Some e → eigvec ≠ X_c → weights ≠ Some eigvec →
  ∃ σ',
    for_eachM (λ _ eigvec,
                 coeff ← InStore._Estep X_c weights eigvec;
                 InStore._Mstep X_c weights eigvec coeff) xs eigvec σ
    = (σ', (λ _, eigvec) <$> em_cycles xc w (length xs) e)
    ∧ this σ' = this σ
    ∧ unchanged_except eigvec σ σ'
    ∧ is_Some (heap σ' !! eigvec)
    ∧ ∀ e', em_cycles xc w (length xs) e = Ok e' →
            heap σ' !! eigvec = Some e'.
Proof.
  induction xs as [|x xs IH]; intros σ eigvec e HX Hw He Hex Hew.
  - exists σ. simpl. split_and!; [done|done| |by eauto|by intros ? [= <-]].
    apply unchanged_except_refl.
  - cbn [for_eachM length em_cycles].
    assert (∀ c, (λ _ : ndarray F, eigvec) <$> (Raise c : result (ndarray F))
                 = Raise c) as Hraise by done.
    unfold mbind at 1, ST_bind.
    unfold mbind at 1, ST_bind.
    rewrite (Estep_runs σ X_c weights eigvec xc w e) by done.
    destruct (EMPCA._Estep xc w e) as [c|ex]; cbn [mbind result_bind].
    2:{ exists σ. split_and!; [done|done| |by eauto|done].
        apply unchanged_except_refl. }
    pose proof (alloc_new_ne σ eigvec e He) as Hnew.
    destruct (Mstep_runs (alloc c σ).1 X_c weights eigvec
                (fresh (dom (heap σ))) xc w c e)
      as (σ2 & Hrun & Ht2 & Hu2 & Hs2 & HE2).
    { by apply alloc_lookup_old. }
    { apply alloc_lookup_new. }
    { by apply alloc_lookup_old. }
    { by apply deref_opt_alloc. }
    { done. }
    { done. }
    { done. }
    cbn [alloc fst snd] in Hrun |- *. rewrite Hrun.
    destruct (EMPCA._Mstep xc w e c) as [e1|ex]; cbn [fmap result_fmap].
    2:{ exists σ2. simpl in Ht2. split_and!; [done|done| |done|done].
        eapply unchanged_except_trans; [|done].
        apply unchanged_except_alloc. }
    assert (unchanged_except eigvec σ σ2) as Hu.
    { eapply unchanged_except_trans; [|done]. apply unchanged_except_alloc. }
    destruct (IH σ2 eigvec e1) as (σ3 & Hrun3 & Ht3 & Hu3 & Hs3 & HE3).
    { by apply Hu. }
    { by eapply deref_opt_unchanged. }
    { by apply HE2. }
    { done. }
    { done. }
    cbn [mbind result_bind]. simpl in Ht2.
    exists σ3. split_and!; [done|congruence| |done|done].
    by eapply unchanged_except_trans.
Qed.

Lemma run_set_this {A} (f : EMPCA F loc → EMPCA F loc)
    (k : () → ST (store F) A) σ :
  (set_this f ≫= k) σ = k () (Store (heap σ) (f (this σ))).
Proof. done. Qed.

Lemma run_get_this {A} (k : EMPCA F loc → ST (store F) A) σ :
  (get_this ≫= k) σ = k (this σ) σ.
Proof. done. Qed.

Lemma run_getattr_this {A B} (g : EMPCA F loc → option A)
    (k : A → ST (store F) B) σ a :
  g (this σ) = Some a → (getattr_this g ≫= k) σ = k a σ.
Proof. intros H. unfold mbind, ST_bind, getattr_this. by rewrite H. Qed.

(** The mean: with weights, the masked products are a new object. *)
Lemma fit_mean_runs σ X weights x w :
  heap σ !! X = Some x → deref_opt σ weights = Some w →
  ∃ σ1,
    match weights with
    | None => x ← load X; mret (mean0 x)
    | Some lw =>
        x ← load X;
        W ← load lw;
        xw ← lift (elementwise s_mul x W);
        XW ← alloc xw;
        W ← load lw;
        write XW (zero_where_zero W);;
        xw ← load XW;
        W ← load lw;
        lift (elementwise1 s_div (sum0 xw) (sum0 W))
    end σ = (σ1, EMPCA.fit_mean x w)
    ∧ this σ1 = this σ
    ∧ ∀ l a, heap σ !! l = Some a → heap σ1 !! l = Some a.
Proof.
  intros HX Hw. destruct weights as [lw|]; simpl in Hw.
  - destruct (heap σ !! lw) as [W|] eqn:HW; [|done]. injection Hw as <-.
    rewrite (run_load σ X x), (run_load σ lw W) by done.
    rewrite run_lift. unfold EMPCA.fit_mean.
    destruct (elementwise s_mul x W) as [xw|ex]; cbn [mbind result_bind];
      [|by exists σ].
    rewrite run_alloc.
    pose proof (alloc_lookup_new σ xw) as HXW.
    pose proof (alloc_lookup_old σ lw W xw HW) as HW1.
    pose proof (alloc_new_ne σ lw W HW) as Hne.
    assert (∀ l a, heap σ !! l = Some a → heap (alloc xw σ).1 !! l = Some a)
      as Hold by (intros; by apply alloc_lookup_old).
    assert (this (alloc xw σ).1 = this σ) as Ht1 by done.
    set (σ1 := (alloc xw σ).1) in *. set (lxw := fresh (dom (heap σ))) in *.
    rewrite (run_load σ1 lw W) by done.
    rewrite (run_write σ1 lxw xw) by done.
    destruct (zero_where_zero W xw) as [xw'|ex]; cbn [mbind result_bind];
      [|by exists σ1].
    pose proof (overwrite_lookup σ1 lxw xw') as HXW2.
    pose proof (overwrite_lookup_ne σ1 lxw lw xw' W Hne HW1) as HW2.
    set (σ2 := (overwrite lxw xw' σ1).1) in *.
    rewrite (run_load σ2 lxw xw'), (run_load σ2 lw W) by done.
    exists σ2. split_and!; [done|done|].
    intros l a Hl. apply overwrite_lookup_ne; [|by apply Hold].
    intros ->. by apply (alloc_new_ne σ _ a Hl).
  - injection Hw as <-. rewrite (run_load σ X x) by done. by exists σ.
Qed.

(** [fit_transform] in the store returns the location of the coefficients
    of [fit_values] and leaves its attributes in the estimator, the basis
    read through [components_]; or it raises what [fit_values] raises. *)
Lemma fit_transform_store σ X weights x w :
  heap σ !! X = Some x → deref_opt σ weights = Some w →
  let o := this σ in
  let run := InStore.fit_transform X weights σ in
  match run.2, fit_values x w (n_components o) (max_iter o) (random_state o)
  with
  | Ok l, Ok (o', c) =>
      heap run.1 !! l = Some c ∧ deref run.1 = o'
      ∧ ∃ le, components_ (this run.1) = Some le ∧ le ≠ l
  | Raise e, Raise e' => e = e'
  | _, _ => False
  end.
Proof.
  intros HX Hw o run. subst o run. unfold InStore.fit_transform, fit_values.
  destruct (fit_mean_runs σ X weights x w HX Hw) as (σ1 & Hmean & Ht1 & Hold1).
  rewrite (bind_run_any _ _ _ _ _ Hmean).
  destruct (EMPCA.fit_mean x w) as [mean|ex];
    cbn [mbind result_bind fst snd]; [|done].
  rewrite run_set_this.
  set (σ2 := Store (heap σ1) (set_mean_ mean (this σ1))).
  assert (∀ l a, heap σ !! l = Some a → heap σ2 !! l = Some a) as Hold2
    by done.
  rewrite (run_load σ2 X x) by (by apply Hold2).
  rewrite (run_getattr_this _ _ σ2 mean) by done.
  rewrite run_lift.
  destruct (elementwise s_sub x (as_row mean)) as [xc|ex];
    cbn [mbind result_bind fst snd]; [|done].
  rewrite run_alloc, run_get_this.
  pose proof (alloc_lookup_new σ2 xc) as HXc.
  assert (∀ l a, heap σ !! l = Some a → heap (alloc xc σ2).1 !! l = Some a)
    as Hold3 by (intros; by apply alloc_lookup_old, Hold2).
  assert (deref_opt (alloc xc σ2).1 weights = Some w) as Hw3.
  { apply deref_opt_alloc. destruct weights as [lw|]; [|done]. simpl in *.
    destruct (heap σ !! lw) as [W|] eqn:HW; [|done].
    by rewrite (Hold2 lw W HW). }
  assert (this (alloc xc σ2).1 = set_mean_ mean (this σ)) as Ht3
    by (simpl; by rewrite Ht1).
  set (σ3 := (alloc xc σ2).1) in *. set (lXc := fresh (dom (heap σ2))) in *.
  rewrite (run_load σ3 X x) by (by apply Hold3).
  rewrite run_lift, Ht3.
  cbn [set_mean_ n_components max_iter random_state].
  destruct (random_orthonormal _ _ _) as [e0|ex];
    cbn [mbind result_bind fst snd]; [|done].
  rewrite run_alloc, run_get_this.
  pose proof (alloc_lookup_new σ3 e0) as HE4.
  pose proof (alloc_lookup_old σ3 lXc xc e0 HXc) as HXc4.
  pose proof (alloc_new_ne σ3 lXc xc HXc) as Hne4.
  assert (∀ l a, heap σ !! l = Some a → heap (alloc e0 σ3).1 !! l = Some a)
    as Hold4 by (intros; by apply alloc_lookup_old, Hold3).
  pose proof (deref_opt_alloc σ3 weights w e0 Hw3) as Hw4.
  assert (weights ≠ Some (fresh (dom (heap σ3)))) as Hwne.
  { intros ->. apply deref_opt_Some_lookup in Hw3 as [W HW].
    by apply (alloc_new_ne σ3 _ W HW). }
  assert (this (alloc e0 σ3).1 = set_mean_ mean (this σ)) as Ht4 by done.
  set (σ4 := (alloc e0 σ3).1) in *. set (lE := fresh (dom (heap σ3))) in *.
  rewrite Ht4. cbn [set_mean_ max_iter].
  destruct (em_loop_runs lXc weights xc w (seq 0 (max_iter (this σ)))
              σ4 lE e0) as (σ5 & Hloop & Ht5 & Hu5 & _ & HE5);
    [done|done|done|congruence|done|].
  rewrite length_seq in Hloop, HE5.
  rewrite (bind_run_any _ _ _ _ _ Hloop).
  destruct (em_cycles xc w (max_iter (this σ)) e0) as [e|ex];
    cbn [mbind result_bind fmap result_fmap fst snd]; [|done].
  specialize (HE5 e eq_refl).
  assert (heap σ5 !! lXc = Some xc) as HXc5 by (apply Hu5; [congruence|done]).
  assert (deref_opt σ5 weights = Some w) as Hw5
    by (by eapply deref_opt_unchanged).
  assert (∀ l a, heap σ !! l = Some a → heap σ5 !! l = Some a) as Hold5.
  { intros l a Hl. apply Hu5; [|by apply Hold4].
    intros ->. pose proof (Hold3 _ _ Hl) as Hl3.
    by apply (alloc_new_ne σ3 _ a Hl3). }
  pose proof (Estep_runs σ5 lXc weights lE xc w e HXc5 Hw5 HE5) as HEs.
  destruct (EMPCA._Estep xc w e) as [c|ex];
    cbn [mbind result_bind fst snd];
    [|by rewrite (bind_raise _ _ _ _ _ HEs)].
  rewrite (bind_run _ _ _ _ _ HEs).
  pose proof (alloc_lookup_new σ5 c) as HC6.
  pose proof (alloc_lookup_old σ5 lE e c HE5) as HE6.
  pose proof (alloc_lookup_old σ5 lXc xc c HXc5) as HXc6.
  pose proof (alloc_lookup_old σ5 X x c (Hold5 X x HX)) as HX6.
  assert (this (alloc c σ5).1 = set_mean_ mean (this σ)) as Ht6
    by (simpl; congruence).
  cbn [alloc fst] in HC6, HE6, HXc6, HX6, Ht6.
  set (σ6 := Store (<[fresh (dom (heap σ5)) := c]> (heap σ5)) (this σ5)) in *.
  set (lC := fresh (dom (heap σ5))) in *.
  rewrite run_set_this.
  set (σ7 := Store (heap σ6) (set_components_ lE (this σ6))).
  rewrite (run_load σ7 lC c) by done.
  rewrite run_lift.
  destruct (dot (transpose c) c) as [g|ex];
    cbn [mbind result_bind fst snd]; [|done].
  rewrite (run_load σ7 X x) by done.
  rewrite run_set_this.
  rewrite (run_getattr_this _ _ _ (div_count (diagonal g) (nrows x))) by done.
  rewrite (run_load _ lXc xc) by done.
  rewrite run_lift.
  destruct (var0 xc) as [var|ex]; cbn [mbind result_bind fst snd]; [|done].
  rewrite run_set_this. cbn [mret ST_ret fst snd heap this].
  split; [done|]. split.
  - unfold deref. cbn.
    change (this σ5) with (this σ6). rewrite Ht6.
    change (<[lC:=c]> (heap σ5)) with (heap σ6). by rewrite HE6.
  - exists lE. split; [done|]. by apply (alloc_new_ne σ5 lE e).
Qed.

(** The store model refines the value model: run on a store that holds X
    and the weights, [fit_transform] returns or raises as it does on their
    values; when it returns, the object returned holds the coefficients
    and the estimator holds the same attributes. *)
Theorem fit_transform_in_store σ X weights x w :
  heap σ !! X = Some x → deref_opt σ weights = Some w →
  let run := InStore.fit_transform X weights σ in
  let run' := EMPCA.fit_transform x w (World (deref σ) []) in
  match run.2, run'.2 with
  | Ok l, Ok c => heap run.1 !! l = Some c ∧ deref run.1 = self run'.1
  | Raise e, Raise e' => e = e'
  | _, _ => False
  end.
Proof.
  intros HX Hw run run'. subst run run'.
  pose proof (fit_transform_store σ X weights x w HX Hw) as Hs.
  destruct (fit_transform_values x w (World (deref σ) [])) as [Hv Ho].
  cbn [self deref n_components max_iter random_state] in Hv, Ho.
  cbv zeta in Hs. rewrite Hv.
  destruct (fit_values x w _ _ _) as [[o' c]|ex]; cbn [fmap result_fmap snd].
  - destruct ((InStore.fit_transform X weights σ).2); [|done].
    destruct Hs as (Hc & Hd & _). split; [done|]. rewrite Hd. symmetry.
    by apply (Ho o' c).
  - done.
Qed.

End store_runs.

(** * The claims of the specification *)

Section claims.
Context {F : Type} `{!Scalar F} `{!Utils F}.
Implicit Types (X W data coeff eigvec : ndarray F).

Lemma Mstep_shapes_square data weights coeff eigvec :
  wf data → wf coeff → wf eigvec →
  nrows coeff = nrows data → ncols coeff = nrows eigvec →
  ncols eigvec = ncols data →
  (∀ wt, weights = Some wt → wf wt ∧ shape wt = shape data) →
  Mstep_shapes data (square <$> weights) coeff eigvec.
Proof.
  intros Hd Hc He Hn Hk Hdd Hw. unfold Mstep_shapes.
  split_and!; try done. destruct weights as [wt|]; [|done]. simpl.
  destruct (Hw wt) as [Hwt Hs]; [done|]. split; [by apply wf_square|done].
Qed.

Lemma Mstep_upto_by_rows data weights coeff eigvec j :
  orthonormalize_keeps_shape →
  Mstep_shapes data (square <$> weights) coeff eigvec →
  j ≤ nrows eigvec →
  EMPCA._Mstep_upto j data weights eigvec coeff
  = P ← Mstep_by_rows data weights coeff j;
    Ok (NDArray (nrows eigvec) (ncols eigvec)
          (cells P ++ drop j (cells eigvec))).
Proof.
  intros Horth Hsh Hj. unfold EMPCA._Mstep_upto.
  rewrite Mstep_loop_by_rows by (done || lia).
  unfold Mstep_by_rows, rows_to. cbn [nrows ncols take Nat.min].
  destruct Hsh as (_ & _ & _ & _ & _ & -> & _). done.
Qed.

(** C1: in every M-step, for each row index i in order, the deflated
    residual is formed from the already-updated rows 0..i-1 only, and
    row i is set to the weighted least-squares direction
    (c^T (w2 * d)) / (c^T (w2 * c)), feature by feature, with w2 the
    squared weights or 1; the rows up to i are orthonormalized before
    the next row. Both [EMPCA._Mstep] and the function [_Mstep] compute
    what the row-by-row recursion [Mstep_by_rows] computes. *)
Theorem Mstep_row_by_row data weights coeff eigvec :
  orthonormalize_keeps_shape →
  wf data → wf coeff → wf eigvec →
  nrows coeff = nrows data → ncols coeff = nrows eigvec →
  ncols eigvec = ncols data →
  (∀ wt, weights = Some wt → wf wt ∧ shape wt = shape data) →
  EMPCA._Mstep data weights eigvec coeff
    = Mstep_by_rows data weights coeff (nrows eigvec)
  ∧ ∀ wt, weights = Some wt →
      _Mstep eigvec data wt coeff
      = Mstep_by_rows data weights coeff (nrows eigvec).
Proof.
  intros Horth Hd Hc He Hn Hk Hdd Hw.
  pose proof (Mstep_shapes_square data weights coeff eigvec
                Hd Hc He Hn Hk Hdd Hw) as Hsh.
  assert (EMPCA._Mstep data weights eigvec coeff
          = Mstep_by_rows data weights coeff (nrows eigvec)) as Hmain.
  { change (EMPCA._Mstep data weights eigvec coeff)
      with (EMPCA._Mstep_upto (nrows eigvec) data weights eigvec coeff).
    rewrite Mstep_upto_by_rows by done.
    destruct (Mstep_by_rows _ _ _ _) as [P|e] eqn:HP; [|done].
    cbn [mbind result_bind]. f_equal.
    apply Mstep_rows_shape in HP as [[HnP HcP] HsP]; [|done|done|done].
    injection HsP as HP1 HP2. cbn [nrows ncols] in *.
    destruct He as [Hne _]. rewrite drop_ge by lia.
    rewrite (right_id_L [] (++)). destruct P; simpl in *. f_equal; lia. }
  split; [done|]. intros wt ->. by rewrite <-Hmain.
Qed.




(** C4: a fit performs exactly the configured number of E-step/M-step
    cycles ([max_iter] for the class, [niter] for the function [empca]),
    whatever the data, then exactly one final E-step, and the
    coefficients returned are the output of that E-step for the final
    basis: the phases entered are that many cycles and one E-step, the
    final basis is the basis after that many cycles from the start that
    was drawn ([em_cycles], [empca_cycles]), and no test ends the loop
    earlier. *)
Theorem fixed_iteration_budget :
  (∀ X weights (w0 w' : world F) coeff,
     EMPCA.fit_transform X weights w0 = (w', Ok coeff) →
     trace w' = trace w0 ++ fixed_budget (max_iter (self w0))
     ∧ ∃ mean X_c eigvec0 eigvec,
         mean_ (self w') = Some mean
         ∧ elementwise s_sub X (as_row mean) = Ok X_c
         ∧ random_orthonormal (n_components (self w0)) (ncols X)
             (random_state (self w0)) = Ok eigvec0
         ∧ em_cycles X_c weights (max_iter (self w0)) eigvec0 = Ok eigvec
         ∧ components_ (self w') = Some eigvec
         ∧ EMPCA._Estep X_c weights eigvec = Ok coeff)
  ∧ (∀ data wt nvec niter seed (w0 w' : world F) eigvec coeff,
       empca data wt nvec niter seed w0 = (w', Ok (eigvec, coeff)) →
       trace w' = trace w0 ++ fixed_budget niter
       ∧ ∃ eigvec0 coeff',
           random_orthonormal nvec (ncols data) seed = Ok eigvec0
           ∧ empca_cycles data wt niter
               (eigvec0, np_zeros (nrows data) nvec) = Ok (eigvec, coeff')
           ∧ _Estep eigvec data wt coeff' = Ok coeff).
Proof.
  split.
  - intros X weights w0 w' coeff H.
    apply fit_transform_Ok in H
      as (mean & X_c & e0 & e & g & var & _ & HXc & He0 & Hcyc & HE & _ & _
          & Ht & Hs).
    split; [done|]. exists mean, X_c, e0, e. by rewrite Hs.
  - intros data wt nvec niter seed w0 w' eigvec coeff H.
    pose proof H as H'.
    apply empca_Ok in H' as (Hs & Hk & _ & Ht & _). split; [done|].
    destruct (empca_value data wt nvec niter seed w0 Hs Hk) as [tr Hv].
    rewrite H in Hv. injection Hv as _ Hv. symmetry in Hv.
    apply result_bind_Ok_inv in Hv as (e0 & He0 & Hv).
    apply result_bind_Ok_inv in Hv as ([e1 c1] & Hcyc & Hv).
    apply result_bind_Ok_inv in Hv as (c & HE & [= <- <-]).
    rewrite empca_cycles_for_each, length_seq in Hcyc.
    by exists e0, c1.
Qed.

(** C7: at the end of a fit, [explained_variance_] is the diagonal of
    coeff^T coeff divided by the number of rows of X, and
    [explained_variance_ratio_] is that vector divided by the variance
    of every feature of the centred data, summed over the features. *)
Theorem explained_variance_formula X weights (w0 w' : world F) coeff :
  wf X →
  (∀ wt, weights = Some wt → wf wt ∧ shape X = shape wt) →
  EMPCA.fit_transform X weights w0 = (w', Ok coeff) →
  let ev := (λ x, s_div x (s_of_nat (nrows X))) <$> gram_diagonal coeff in
  ∃ mean X_c,
    mean_ (self w') = Some mean
    ∧ elementwise s_sub X (as_row mean) = Ok X_c
    ∧ explained_variance_ (self w') = Some ev
    ∧ explained_variance_ratio_ (self w')
      = Some ((λ x, s_div x (total_variance X_c)) <$> ev).
Proof.
  intros HX Hw H.
  apply fit_transform_Ok in H
    as (mean & X_c & e0 & e & g & var & Hm & HXc & _ & _ & _ & Hg & Hv
        & _ & Hs).
  exists mean, X_c. rewrite Hs. cbn [mean_ explained_variance_
    explained_variance_ratio_].
  pose proof (diagonal_gram coeff) as Hdiag. rewrite Hg in Hdiag.
  injection Hdiag as Hdiag.
  assert (length mean = ncols X) as Hlen.
  { destruct weights as [wt|].
    - destruct (Hw wt) as [Hwt Hswt]; [done|].
      rewrite fit_mean_weighted in Hm by done. injection Hm as <-.
      unfold weighted_mean. by rewrite length_fmap, length_seq.
    - rewrite fit_mean_plain in Hm by done. injection Hm as <-.
      unfold column_mean. by rewrite length_fmap, length_seq. }
  rewrite elementwise_row_r in HXc by done. injection HXc as HXc.
  pose proof (wf_row_r s_sub X mean HX Hlen) as HwXc. rewrite HXc in HwXc.
  pose proof (var0_total X_c HwXc) as Hvar. rewrite Hv in Hvar.
  injection Hvar as Hvar.
  rewrite Hdiag, Hvar. unfold div_count. split_and!; try done.
  by rewrite elementwise_row_r, HXc by done.
Qed.

(** A fit that returns has run its cycles and its final E-step on the
    data minus [mean], each row less the mean feature by feature. *)
Lemma fit_transform_centred X weights mean (w0 w' : world F) coeff :
  wf X → length mean = ncols X →
  EMPCA.fit_mean X weights = Ok mean →
  EMPCA.fit_transform X weights w0 = (w', Ok coeff) →
  let X_c := NDArray (nrows X) (ncols X)
               ((λ r, zip_with s_sub r mean) <$> cells X) in
  ∃ eigvec0 eigvec,
    random_orthonormal (n_components (self w0)) (ncols X)
      (random_state (self w0)) = Ok eigvec0
    ∧ em_cycles X_c weights (max_iter (self w0)) eigvec0 = Ok eigvec
    ∧ components_ (self w') = Some eigvec
    ∧ EMPCA._Estep X_c weights eigvec = Ok coeff.
Proof.
  intros HX Hl Hmean H X_c.
  apply fit_transform_Ok in H
    as (mean' & X_c' & e0 & e & g & var & Hm & HXc & He0 & Hcyc & HE & _ & _
        & _ & Hs).
  rewrite Hmean in Hm. injection Hm as <-.
  rewrite elementwise_row_r in HXc by done. injection HXc as <-.
  exists e0, e. by rewrite Hs.
Qed.

(** C10: with weights, [fit_transform] centres the data by the weighted
    mean sum_i (W[i,j] * X[i,j]) / sum_i W[i,j] of every feature, the
    products at zero-weight entries being 0: that mean is stored in
    [mean_], so that the value at a zero-weight entry does not change
    [mean_], and the cycles and the final E-step run on the data minus
    it. Without weights the mean is the ordinary mean of every feature.
    [mean_] is stored whether the rest of the fit returns or raises. *)
Theorem fit_transform_mean_ X X' W (w0 : world F) :
  wf X → wf X' → wf W → shape X = shape W → shape X' = shape W →
  (∀ i j, i < nrows W → j < ncols W →
     s_is_zero (entry W i j) = false → entry X i j = entry X' i j) →
  let stored Y weights :=
    mean_ (self (EMPCA.fit_transform Y weights w0).1) in
  let centred_by mean :=
    NDArray (nrows X) (ncols X)
      ((λ r, zip_with s_sub r mean) <$> cells X) in
  let fitted_on weights X_c :=
    ∀ w' coeff,
      EMPCA.fit_transform X weights w0 = (w', Ok coeff) →
      ∃ eigvec0 eigvec,
        random_orthonormal (n_components (self w0)) (ncols X)
          (random_state (self w0)) = Ok eigvec0
        ∧ em_cycles X_c weights (max_iter (self w0)) eigvec0 = Ok eigvec
        ∧ components_ (self w') = Some eigvec
        ∧ EMPCA._Estep X_c weights eigvec = Ok coeff in
  stored X (Some W) = Some (weighted_mean X W)
  ∧ stored X' (Some W) = stored X (Some W)
  ∧ stored X None = Some (column_mean X)
  ∧ fitted_on (Some W) (centred_by (weighted_mean X W))
  ∧ fitted_on None (centred_by (column_mean X)).
Proof.
  intros HX HX' HW Hs Hs' Hagree stored centred_by fitted_on.
  unfold stored, fitted_on, centred_by. split_and!.
  - by apply fit_transform_stores_mean, fit_mean_weighted.
  - rewrite (fit_transform_stores_mean X' _ w0 _
               (fit_mean_weighted X' W HX' HW Hs')).
    rewrite (fit_transform_stores_mean X _ w0 _
               (fit_mean_weighted X W HX HW Hs)).
    f_equal. symmetry. by apply weighted_mean_zero_weight.
  - by apply fit_transform_stores_mean, fit_mean_plain.
  - intros w' coeff H.
    apply (fit_transform_centred X (Some W) (weighted_mean X W) w0 w' coeff);
      [done| |by apply fit_mean_weighted|done].
    unfold weighted_mean. by rewrite length_fmap, length_seq.
  - intros w' coeff H.
    apply (fit_transform_centred X None (column_mean X) w0 w' coeff);
      [done| |by apply fit_mean_plain|done].
    unfold column_mean. by rewrite length_fmap, length_seq.
Qed.

(** C9: no call of [fit_transform], [fit], [transform], [reconstruct]
    (nor [fit_reconstruct], [inverse_transform]) writes to an array
    object that existed before the call, the caller's X and weights
    among them: every object of the store before the call is in the
    store after it with the value it had, whether the call returns or
    raises. What is written to in place (the masked products, the
    basis) was allocated by the call, and the arrays returned are new
    objects. *)
Theorem caller_arrays_untouched (σ : store F) (X : loc)
    (weights : option loc) :
  let after {A} (m : ST (store F) A) := heap (m σ).1 in
  let returned (m : ST (store F) loc) l := (m σ).2 = Ok l in
  (heap σ ⊆ after (InStore.fit_transform X weights)
   ∧ heap σ ⊆ after (InStore.fit X weights)
   ∧ heap σ ⊆ after (InStore.transform X weights)
   ∧ heap σ ⊆ after (InStore.reconstruct X weights)
   ∧ heap σ ⊆ after (InStore.fit_reconstruct X weights)
   ∧ heap σ ⊆ after (InStore.inverse_transform X))
  ∧ ∀ l, returned (InStore.fit_transform X weights) l
         ∨ returned (InStore.transform X weights) l
         ∨ returned (InStore.reconstruct X weights) l →
         l ∉ dom (heap σ).
Proof.
  intros after returned. unfold after, returned.
  assert (frames (heap σ) (new_in (heap σ))
            (InStore.reconstruct X weights)) as Hrec.
  { unfold InStore.reconstruct.
    eapply frames_bind; [apply frames_transform|]. intros Y _.
    apply frames_inverse_transform. }
  assert (frames (heap σ) (new_in (heap σ))
            (InStore.fit_reconstruct X weights)) as Hfrec.
  { unfold InStore.fit_reconstruct.
    eapply frames_bind; [apply frames_fit_transform|]. intros Y _.
    apply frames_inverse_transform. }
  assert (frames (heap σ) (λ _, True) (InStore.fit X weights)) as Hfit.
  { unfold InStore.fit.
    eapply frames_bind; [apply frames_fit_transform|]. intros Y _.
    by apply frames_ret. }
  split; [split_and!|].
  - by apply (frames_fit_transform (heap σ) X weights σ).
  - by apply (Hfit σ).
  - by apply (frames_transform (heap σ) X weights σ).
  - by apply (Hrec σ).
  - by apply (Hfrec σ).
  - by apply (frames_inverse_transform (heap σ) X σ).
  - intros l [Hl|[Hl|Hl]].
    + by eapply (frames_fit_transform (heap σ) X weights σ).
    + by eapply (frames_transform (heap σ) X weights σ).
    + by eapply (Hrec σ).
Qed.

End claims.

(** * The helpers on binary64 meet their contracts *)

Module float64_facts.
Import float64.

Lemma length_orthogonalize_against done : ∀ r,
  Forall (λ q, length q = length r) done →
  length (orthogonalize_against done r) = length r.
Proof.
  unfold orthogonalize_against.
  induction done as [|q done IH]; intros r Hd; simpl; [done|].
  apply Forall_cons in Hd as [Hq Hd].
  assert (length (zip_with PrimFloat.sub r
                    (PrimFloat.mul (inner r q) <$> q)) = length r) as Hl
    by (rewrite length_zip_with, length_fmap; lia).
  rewrite IH; [done|]. by rewrite Hl.
Qed.

Lemma gram_schmidt_shape d rows : ∀ done,
  Forall (λ r, length r = d) done → Forall (λ r, length r = d) rows →
  let out :=
    foldl (λ done r, done ++ [normalize (orthogonalize_against done r)])
          done rows in
  length out = length done + length rows ∧ Forall (λ r, length r = d) out.
Proof.
  induction rows as [|r rows IH]; intros done Hdone Hrows; simpl.
  - split; [lia|done].
  - apply Forall_cons in Hrows as [Hr Hrows].
    destruct (IH (done ++ [normalize (orthogonalize_against done r)]))
      as [Hl Hf]; [|done|].
    + apply Forall_app. split; [done|]. repeat constructor.
      unfold normalize. rewrite length_fmap, length_orthogonalize_against.
      * done.
      * eapply Forall_impl; [done|]. simpl. intros; congruence.
    + split; [|done]. rewrite Hl, length_app. simpl. lia.
Qed.

Lemma orthonormalize_unchecked_keeps_shape :
  @orthonormalize_keeps_shape float scalar utils.
Proof.
  intros a o [Hn Hc] [= <-].
  destruct (gram_schmidt_shape (ncols a) (cells a) []) as [Hl Hf];
    [done|done|].
  split; [split|done]; simpl; [|done]. unfold gram_schmidt.
  rewrite Hl. simpl. done.
Qed.



End float64_facts.

(** * The theorems at concrete inputs *)

Section witnesses.
Import float64 float64_facts examples.

(* Prove a decidable proposition by evaluation. *)
Local Ltac by_evaluation :=
  first
    [ vm_compute; reflexivity
    | refine (bool_decide_unpack _ _); vm_compute; exact I ].

Lemma Mstep_row_by_row_witness :
  EMPCA._Mstep X3 (Some W3) (NDArray 1 2 [[3; 4]]%float)
    (NDArray 3 1 [[1]; [2]; [3]]%float)
  = Mstep_by_rows X3 (Some W3) (NDArray 3 1 [[1]; [2]; [3]]%float) 1.
Proof.
  refine (proj1 (Mstep_row_by_row (F:=float) X3 (Some W3)
                   (NDArray 3 1 [[1]; [2]; [3]]%float)
                   (NDArray 1 2 [[3; 4]]%float)
                   orthonormalize_unchecked_keeps_shape _ _ _ _ _ _ _));
    try by_evaluation.
  intros wt [= <-]. split; by_evaluation.
Defined.


Lemma fixed_iteration_budget_witness :
  ∃ w' coeff,
    EMPCA.fit_transform X3 None (fresh 1 3) = (w', Ok coeff)
    ∧ trace w' = [] ++ fixed_budget 3
    ∧ ∃ mean X_c eigvec0 eigvec,
        mean_ (self w') = Some mean
        ∧ elementwise s_sub X3 (as_row mean) = Ok X_c
        ∧ random_orthonormal 1 2 (Some 1) = Ok eigvec0
        ∧ em_cycles X_c None 3 eigvec0 = Ok eigvec
        ∧ components_ (self w') = Some eigvec
        ∧ EMPCA._Estep X_c None eigvec = Ok coeff.
Proof.
  eexists _, _. split; [vm_compute; reflexivity|].
  refine (proj1 (fixed_iteration_budget (F:=float))
            X3 None (fresh 1 3) _ _ _).
  vm_compute; reflexivity.
Defined.

Lemma explained_variance_formula_witness :
  ∃ w' coeff,
    EMPCA.fit_transform X3 (Some W3) (fresh 1 3) = (w', Ok coeff)
    ∧ ∃ mean X_c,
        mean_ (self w') = Some mean
        ∧ elementwise s_sub X3 (as_row mean) = Ok X_c
        ∧ explained_variance_ (self w')
          = Some ((λ x, s_div x (s_of_nat 3)) <$> gram_diagonal coeff)
        ∧ explained_variance_ratio_ (self w')
          = Some ((λ x, s_div x (total_variance X_c))
                    <$> ((λ x, s_div x (s_of_nat 3))
                           <$> gram_diagonal coeff)).
Proof.
  eexists _, _. split; [vm_compute; reflexivity|].
  refine (explained_variance_formula (F:=float) X3 (Some W3) (fresh 1 3)
            _ _ _ _ _); try by_evaluation.
  intros wt [= <-]. split; by_evaluation.
Defined.

Lemma X3_agree_where_weighted i j :
  i < nrows W3 → j < ncols W3 →
  s_is_zero (entry W3 i j) = false → entry X3 i j = entry X3_nan i j.
Proof.
  intros Hi Hj.
  destruct i as [|[|[|i]]]; [| | |simpl in Hi; lia];
    (destruct j as [|[|j]]; [| |simpl in Hj; lia]);
    vm_compute; congruence.
Qed.

Lemma fit_transform_mean__witness :
  let stored Y weights :=
    mean_ (self (EMPCA.fit_transform Y weights (fresh 1 3)).1) in
  let X_c := NDArray 3 2
               ((λ r, zip_with s_sub r (weighted_mean X3 W3))
                  <$> cells X3) in
  (stored X3 (Some W3) = Some (weighted_mean X3 W3)
   ∧ stored X3_nan (Some W3) = stored X3 (Some W3)
   ∧ stored X3 None = Some (column_mean X3))
  ∧ ∃ w' coeff eigvec0 eigvec,
      EMPCA.fit_transform X3 (Some W3) (fresh 1 3) = (w', Ok coeff)
      ∧ random_orthonormal 1 2 (Some 1) = Ok eigvec0
      ∧ em_cycles X_c (Some W3) 3 eigvec0 = Ok eigvec
      ∧ components_ (self w') = Some eigvec
      ∧ EMPCA._Estep X_c (Some W3) eigvec = Ok coeff.
Proof.
  intros stored X_c.
  pose proof (fit_transform_mean_ (F:=float) X3 X3_nan W3 (fresh 1 3)
                ltac:(by_evaluation) ltac:(by_evaluation)
                ltac:(by_evaluation) ltac:(by_evaluation)
                ltac:(by_evaluation) X3_agree_where_weighted)
    as (H1 & H2 & H3 & H4 & _).
  split; [exact (conj H1 (conj H2 H3))|].
  assert (∃ p, EMPCA.fit_transform X3 (Some W3) (fresh 1 3) = (p.1, Ok p.2))
    as [[w' coeff] Hfit] by (eexists (_, _); vm_compute; reflexivity).
  destruct (H4 w' coeff Hfit) as (e0 & e & He0 & Hcyc & Hc & HE).
  exact (ex_intro _ w' (ex_intro _ coeff (ex_intro _ e0 (ex_intro _ e
           (conj Hfit (conj He0 (conj Hcyc (conj Hc HE)))))))).
Defined.

Lemma caller_arrays_untouched_witness :
  heap caller_store
  ⊆ heap (InStore.fit_transform 1%positive (Some 2%positive)
            caller_store).1.
Proof.
  pose proof (caller_arrays_untouched (F:=float) caller_store 1%positive
                (Some 2%positive)) as H.
  cbv zeta beta in H. exact (proj1 (proj1 H)).
Defined.

End witnesses.

(** * The code at the inputs where it departs from the specification *)

Section departures.
Import float64 examples.

(** C2 (what the code does): [fit_transform] does not compare the
    shapes of X and the weights. With X of shape (1, 2) and weights of
    shape (2, 2) the products broadcast, [mean_] is stored, the first
    E-step runs, and the call raises only in the first M-step, from
    [np.dot]. With more components than features the call raises in
    [random_orthonormal], before the iteration but after [mean_] was
    stored. The function [empca] asserts both conditions first. *)
Theorem fit_transform_validates_late :
  let X12 := NDArray 1 2 [[1; 2]]%float in
  let X22 := NDArray 2 2 [[1; 2]; [3; 4]]%float in
  let W22 := NDArray 2 2 [[1; 1]; [1; 1]]%float in
  EMPCA.fit_transform X12 (Some W22) (World (__init__ 1 100 None) [])
    = (World (set_mean_ [1; 2]%float (__init__ 1 100 None))
             [E_step; M_step],
       Raise ValueError)
  ∧ EMPCA.fit_transform X22 (Some W22) (World (__init__ 3 100 None) [])
    = (World (set_mean_ [2; 3]%float (__init__ 3 100 None)) [],
       Raise DimensionError)
  ∧ empca X12 W22 1 25 None (World (__init__ 1 100 None) [])
    = (World (__init__ 1 100 None) [], Raise AssertionError)
  ∧ empca X22 W22 3 25 None (World (__init__ 1 100 None) [])
    = (World (__init__ 1 100 None) [], Raise AssertionError).
Proof. vm_compute. done. Qed.

(** C3 (what the code does): [X3] and [X3_nan] differ only in the entry
    (2, 0), whose weight is zero. [mean_] is the same for both, but the
    centred data keep the NaN, the M-step multiplies it by the squared
    weight 0, and the fitted basis and the coefficients are NaN. *)
Theorem zero_weight_nan_reaches_basis :
  let fitted X := (EMPCA.fit_transform X (Some W3) (fresh 1 3)) in
  (∀ i j, s_is_zero (entry W3 i j) = false →
          entry X3 i j = entry X3_nan i j)
  ∧ mean_ (self (fitted X3).1) = mean_ (self (fitted X3_nan).1)
  ∧ components_ (self (fitted X3_nan).1) = Some (NDArray 1 2 [[nan; nan]])
  ∧ (fitted X3_nan).2 = Ok (NDArray 3 1 [[nan]; [nan]; [nan]])
  ∧ components_ (self (fitted X3).1)
    ≠ components_ (self (fitted X3_nan).1)
  ∧ (fitted X3).2 ≠ (fitted X3_nan).2.
Proof.
  intros fitted. split_and!.
  - intros i j.
    destruct i as [|[|[|i]]]; (destruct j as [|[|j]]);
      vm_compute; congruence.
  - vm_compute. reflexivity.
  - vm_compute. reflexivity.
  - vm_compute. reflexivity.
  - vm_compute. intros [=].
  - vm_compute. intros [=].
Qed.

End departures.

(** * The life cycle of an estimator *)

Section lifecycle.
Context {F : Type} `{!Scalar F} `{!Utils F}.
Implicit Types (X Y V : ndarray F) (m : list F).

(** [transform] on an estimator that has a mean and a basis. *)
Lemma transform_run X weights (w : world F) m V :
  mean_ (self w) = Some m → components_ (self w) = Some V →
  EMPCA.transform X weights w
  = match elementwise s_sub X (as_row m) with
    | Ok X_c => (World (self w) (trace w ++ [E_step]),
                 EMPCA._Estep X_c weights V)
    | Raise e => (w, Raise e)
    end.
Proof.
  intros Hm HV. unfold EMPCA.transform.
  rewrite (run_getattr _ _ _ m) by done. rewrite run_lift.
  destruct (elementwise s_sub X (as_row m)) as [X_c|e]; [|done].
  rewrite (run_getattr _ _ _ V) by done. by rewrite run_enter.
Qed.

(** [inverse_transform] on an estimator that has a mean and a basis. *)
Lemma inverse_transform_run Y (w : world F) m V :
  mean_ (self w) = Some m → components_ (self w) = Some V →
  EMPCA.inverse_transform Y w
  = (w, p ← dot Y V; elementwise s_add (as_row m) p).
Proof.
  intros Hm HV. unfold EMPCA.inverse_transform.
  rewrite (run_getattr _ _ _ m) by done.
  rewrite (run_getattr _ _ _ V) by done. rewrite run_lift.
  by destruct (dot Y V).
Qed.

Lemma keeps_transform {C} (g : EMPCA F (ndarray F) → C) X weights :
  keeps g (EMPCA.transform X weights).
Proof. unfold EMPCA.transform. keeps_steps. Qed.

Lemma keeps_inverse_transform {C} (g : EMPCA F (ndarray F) → C) Y :
  keeps g (EMPCA.inverse_transform Y).
Proof. unfold EMPCA.inverse_transform. keeps_steps. Qed.

Lemma keeps_fit_transform {C} (g : EMPCA F (ndarray F) → C) X weights :
  (∀ v o, g (set_mean_ v o) = g o) →
  (∀ a o, g (set_components_ a o) = g o) →
  (∀ v o, g (set_explained_variance_ v o) = g o) →
  (∀ v o, g (set_explained_variance_ratio_ v o) = g o) →
  keeps g (EMPCA.fit_transform X weights).
Proof.
  intros H1 H2 H3 H4. unfold EMPCA.fit_transform, EMPCA.em_cycle.
  repeat first
    [ apply keeps_bind; [|intros ?]
    | apply keeps_for_eachM; intros ? ?
    | apply keeps_set_self; by auto
    | solve [eauto with keeps] ].
Qed.

(** After a fit that returns, [transform] on the same arguments returns
    the coefficients [fit_transform] returned, and [reconstruct] returns
    what [inverse_transform] returns for them. For an estimator with a
    seed, whose fits draw the same start, that is what [fit_reconstruct]
    returns when called in place of the fit. *)
Theorem transform_after_fit X weights (w0 w1 : world F) coeff :
  EMPCA.fit_transform X weights w0 = (w1, Ok coeff) →
  EMPCA.transform X weights w1
  = (World (self w1) (trace w1 ++ [E_step]), Ok coeff)
  ∧ EMPCA.reconstruct X weights w1
    = EMPCA.inverse_transform coeff
        (World (self w1) (trace w1 ++ [E_step]))
  ∧ (is_Some (random_state (self w0)) →
     (EMPCA.reconstruct X weights w1).2
     = (EMPCA.fit_reconstruct X weights w0).2
     ∧ self (EMPCA.reconstruct X weights w1).1
       = self (EMPCA.fit_reconstruct X weights w0).1).
Proof.
  intros Hfit.
  destruct (fit_transform_Ok _ _ _ _ _ Hfit)
    as (mean & X_c & e0 & e & g & var & _ & HXc & _ & _ & HE & _ & _ & _ & Hs).
  assert (EMPCA.transform X weights w1
          = (World (self w1) (trace w1 ++ [E_step]), Ok coeff)) as Ht.
  { rewrite (transform_run X weights w1 mean e) by (by rewrite Hs).
    by rewrite HXc, HE. }
  split; [done|].
  split; [unfold EMPCA.reconstruct; by rewrite (bind_run _ _ _ _ _ Ht)|].
  intros _. unfold EMPCA.reconstruct, EMPCA.fit_reconstruct.
  rewrite (bind_run _ _ _ _ _ Ht), (bind_run _ _ _ _ _ Hfit).
  rewrite (inverse_transform_run coeff _ mean e) by (by rewrite Hs).
  rewrite (inverse_transform_run coeff w1 mean e) by (by rewrite Hs).
  done.
Qed.

(** [transform], [inverse_transform] and [reconstruct] leave every
    attribute of the estimator as it is, whether they return or raise. *)
Theorem observers_keep_estimator X weights (w : world F) :
  self (EMPCA.transform X weights w).1 = self w
  ∧ self (EMPCA.inverse_transform X w).1 = self w
  ∧ self (EMPCA.reconstruct X weights w).1 = self w.
Proof.
  split_and!.
  - apply (keeps_transform (λ o, o)).
  - apply (keeps_inverse_transform (λ o, o)).
  - assert (keeps (λ o : EMPCA F (ndarray F), o)
              (EMPCA.reconstruct X weights)) as Hk; [|apply Hk].
    unfold EMPCA.reconstruct. apply keeps_bind.
    + apply keeps_transform.
    + intros Y. apply keeps_inverse_transform.
Qed.

(** [fit_transform], [fit] and [fit_reconstruct] never change the
    parameters the constructor stored, whether they return or raise. *)
Theorem fit_keeps_parameters X weights (w : world F) :
  let parameters (o : EMPCA F (ndarray F)) :=
    (n_components o, max_iter o, random_state o) in
  parameters (self (EMPCA.fit_transform X weights w).1) = parameters (self w)
  ∧ parameters (self (EMPCA.fit X weights w).1) = parameters (self w)
  ∧ parameters (self (EMPCA.fit_reconstruct X weights w).1)
    = parameters (self w).
Proof.
  intros parameters.
  assert (keeps parameters (EMPCA.fit_transform X weights)) as Hk
    by (by apply keeps_fit_transform).
  split_and!.
  - apply Hk.
  - assert (keeps parameters (EMPCA.fit X weights)) as Hk'; [|apply Hk'].
    unfold EMPCA.fit. apply keeps_bind; [done|]. intros ?. apply keeps_ret.
  - assert (keeps parameters (EMPCA.fit_reconstruct X weights)) as Hk';
      [|apply Hk'].
    unfold EMPCA.fit_reconstruct. apply keeps_bind; [done|].
    intros Y. apply keeps_inverse_transform.
Qed.

(** On an estimator without [components_] (never fitted, or whose only
    fits raised) [inverse_transform] raises [AttributeError], and
    [transform] and [reconstruct] raise too: [AttributeError], or
    [ValueError] when there is a [mean_] that X cannot be broadcast
    with. Nothing is changed. *)
Theorem unfitted_raises X weights (w : world F) :
  components_ (self w) = None →
  EMPCA.inverse_transform X w = (w, Raise AttributeError)
  ∧ (∃ e, EMPCA.transform X weights w = (w, Raise e)
          ∧ EMPCA.reconstruct X weights w = (w, Raise e)
          ∧ (e = AttributeError
             ∨ e = ValueError ∧ ∃ m, mean_ (self w) = Some m
                 ∧ elementwise s_sub X (as_row m) = Raise ValueError))
  ∧ (mean_ (self w) = None →
     EMPCA.transform X weights w = (w, Raise AttributeError)).
Proof.
  intros HV.
  assert (∀ A (k : ndarray F → M F A),
            (getattr components_ ≫= k) w = (w, Raise AttributeError)) as Hc.
  { intros A k. unfold mbind, ST_bind, getattr. by rewrite HV. }
  split_and!.
  - unfold EMPCA.inverse_transform.
    destruct (mean_ (self w)) as [m|] eqn:Hm.
    + rewrite (run_getattr _ _ _ m) by done. apply Hc.
    + unfold mbind, ST_bind, getattr. by rewrite Hm.
  - unfold EMPCA.reconstruct, EMPCA.transform.
    destruct (mean_ (self w)) as [m|] eqn:Hm.
    + destruct (elementwise s_sub X (as_row m)) as [X_c|e] eqn:HXc.
      * exists AttributeError.
        assert (EMPCA.transform X weights w = (w, Raise AttributeError)) as Ht.
        { unfold EMPCA.transform. rewrite (run_getattr _ _ _ m) by done.
          rewrite run_lift, HXc. apply Hc. }
        unfold EMPCA.transform in Ht. rewrite (bind_raise _ _ _ _ _ Ht).
        by split_and!; [..|left].
      * exists e.
        assert (EMPCA.transform X weights w = (w, Raise e)) as Ht.
        { unfold EMPCA.transform. rewrite (run_getattr _ _ _ m) by done.
          by rewrite run_lift, HXc. }
        unfold EMPCA.transform in Ht. rewrite (bind_raise _ _ _ _ _ Ht).
        split_and!; [done..|].
        unfold elementwise in HXc.
        destruct (bdim (nrows X) (nrows (as_row m))) as [r|e1] eqn:Hr;
          cbn [mbind result_bind] in HXc.
        -- destruct (bdim (ncols X) (ncols (as_row m))) as [c|e2] eqn:Hc2;
             cbn [mbind result_bind] in HXc; [done|].
           injection HXc as <-. unfold bdim in Hc2.
           repeat case_decide; simplify_eq.
           right. split; [done|]. exists m. split; [done|].
           unfold elementwise. rewrite Hr. cbn [mbind result_bind].
           unfold bdim. by repeat case_decide.
        -- injection HXc as <-. unfold bdim in Hr.
           repeat case_decide; simplify_eq.
    + exists AttributeError.
      assert (EMPCA.transform X weights w = (w, Raise AttributeError)) as Ht.
      { unfold EMPCA.transform, mbind, ST_bind, getattr. by rewrite Hm. }
      unfold EMPCA.transform in Ht. rewrite (bind_raise _ _ _ _ _ Ht).
      by split_and!; [..|left].
  - intros Hm. unfold EMPCA.transform, mbind, ST_bind, getattr. by rewrite Hm.
Qed.

Lemma var0_Ok X_c : wf X_c → ∃ var, var0 X_c = Ok var.
Proof.
  intros Hwf. pose proof (var0_total X_c Hwf) as H.
  destruct (var0 X_c) as [var|e]; [by eexists|done].
Qed.

Lemma gram_Ok (coeff : ndarray F) : ∃ g, dot (transpose coeff) coeff = Ok g.
Proof. unfold dot. rewrite decide_True by done. by eexists. Qed.

(** The mean [fit_transform] computes for well-formed arguments, and the
    centred data. *)
Lemma fit_centres X weights :
  wf X → (∀ W, weights = Some W → wf W ∧ shape X = shape W) →
  ∃ mean X_c,
    EMPCA.fit_mean X weights = Ok mean
    ∧ mean = match weights with
             | Some W => weighted_mean X W
             | None => column_mean X
             end
    ∧ length mean = ncols X
    ∧ elementwise s_sub X (as_row mean) = Ok X_c
    ∧ wf X_c ∧ shape X_c = shape X.
Proof.
  intros HX HW.
  assert (∃ mean, EMPCA.fit_mean X weights = Ok mean
                  ∧ mean = match weights with
                           | Some W => weighted_mean X W
                           | None => column_mean X
                           end
                  ∧ length mean = ncols X) as (mean & Hm & Hmean & Hl).
  { destruct weights as [W|].
    - destruct (HW W eq_refl) as [HwfW Hs].
      eexists. split; [by apply fit_mean_weighted|]. split; [done|].
      unfold weighted_mean. by rewrite length_fmap, length_seq.
    - eexists. split; [by apply fit_mean_plain|]. split; [done|].
      unfold column_mean. by rewrite length_fmap, length_seq. }
  exists mean. eexists. split; [done|]. split; [done|]. split; [done|].
  rewrite elementwise_row_r by done.
  split; [done|]. split; [by apply wf_row_r|done].
Qed.

(** A fit that raises has already replaced [mean_], and leaves
    [components_] and the explained variances as they were before the
    call. (With weights the data have a sample: a weighted E-step
    without one builds a 1-d array, and with [max_iter = 0] the code
    raises on it only after it has assigned [components_].) *)
Theorem failed_fit_keeps_old_basis X weights (w0 : world F) e :
  wf X →
  (∀ W, weights = Some W → wf W ∧ shape X = shape W ∧ 0 < nrows X) →
  (EMPCA.fit_transform X weights w0).2 = Raise e →
  let o := self (EMPCA.fit_transform X weights w0).1 in
  mean_ o = Some (match weights with
                  | Some W => weighted_mean X W
                  | None => column_mean X
                  end)
  ∧ components_ o = components_ (self w0)
  ∧ explained_variance_ o = explained_variance_ (self w0)
  ∧ explained_variance_ratio_ o = explained_variance_ratio_ (self w0).
Proof.
  intros HX HW0 Hraise o.
  assert (∀ W, weights = Some W → wf W ∧ shape X = shape W) as HW.
  { intros W HWe. destruct (HW0 W HWe) as (? & ? & _). done. }
  destruct (fit_centres X weights HX HW)
    as (mean & X_c & Hm & Hmean & Hl & HXc & HwfXc & HsXc).
  split; [subst o; rewrite <-Hmean; by apply fit_transform_stores_mean|].
  subst o. revert Hraise. unfold EMPCA.fit_transform.
  rewrite run_lift, Hm, run_set_self, run_lift, HXc, run_get_self, run_lift.
  cbn [self set_mean_ n_components random_state max_iter].
  destruct (random_orthonormal _ _ _) as [e0|ex]; [|done].
  rewrite run_get_self.
  cbn [self set_mean_ n_components random_state max_iter].
  destruct (em_loop_value X_c weights (seq 0 (max_iter (self w0))) e0
              (World (set_mean_ mean (self w0)) (trace w0))) as [tr Htr].
  rewrite (bind_run_any _ _ _ _ _ Htr).
  destruct (em_cycles X_c weights _ e0) as [ev|ex]; [|done].
  rewrite run_enter, run_lift.
  destruct (EMPCA._Estep X_c weights ev) as [coeff|ex]; [|done].
  rewrite run_set_self, run_lift.
  destruct (gram_Ok coeff) as [g ->].
  rewrite run_set_self.
  rewrite (run_getattr _ _ _ (div_count (diagonal g) (nrows X))) by done.
  rewrite run_lift.
  destruct (var0_Ok X_c HwfXc) as [var ->].
  by rewrite run_set_self.
Qed.

Lemma bdim_one_l n : bdim 1 n = Ok n.
Proof. unfold bdim. repeat case_decide; by simplify_eq. Qed.

Lemma elementwise_row_l op m (a : ndarray F) :
  wf a → length m = ncols a →
  elementwise op (as_row m) a
  = Ok (NDArray (nrows a) (ncols a) ((λ ra, zip_with op m ra) <$> cells a)).
Proof.
  intros [Hn Hc] Hv. unfold elementwise, as_row. cbn [nrows ncols cells].
  rewrite Hv, bdim_one_l, bdim_same. cbn [mbind result_bind].
  rewrite (broadcast_to_wf a) by done. do 2 f_equal.
  unfold broadcast_to. cbn [nrows ncols cells fmap list_fmap].
  rewrite (stretch_same (ncols a) m) by done.
  rewrite stretch_singleton.
  rewrite zip_with_replicate_l by lia. done.
Qed.

(** [inverse_transform] on a fitted estimator: when Y has as many columns
    as there are components, row i of the result is [mean_] plus the
    combination of the rows of [components_] with the coefficients in row
    i of Y; otherwise the call raises [ValueError]. The estimator is not
    changed. *)
Theorem inverse_transform_rows Y (w : world F) m V :
  mean_ (self w) = Some m → components_ (self w) = Some V →
  wf Y → length m = ncols V →
  EMPCA.inverse_transform Y w
  = (w, if decide (ncols Y = nrows V)
        then Ok (NDArray (nrows Y) (ncols V)
                   ((λ y, zip_with s_add m
                            ((λ j, inner y (column j V)) <$> seq 0 (ncols V)))
                      <$> cells Y))
        else Raise ValueError).
Proof.
  intros Hm HV HY Hl. rewrite (inverse_transform_run Y w m V) by done.
  f_equal. destruct (dot Y V) as [p|e] eqn:Hp; cbn [mbind result_bind].
  - destruct (wf_dot Y V p) as [Hwf Hs]; [by destruct HY|done|].
    injection Hs as Hn Hd.
    rewrite elementwise_row_l by (done || congruence).
    unfold dot in Hp. case_decide; [|done]. injection Hp as <-.
    cbn [nrows ncols cells]. by rewrite <-list_fmap_compose.
  - unfold dot in Hp. by case_decide.
Qed.

(** [transform] checks the number of features of X only through NumPy's
    broadcasting against [mean_]: without weights a wrong number of
    columns other than one raises [ValueError], and an X of one column is
    used as if that column were repeated for every feature. *)
Theorem transform_feature_count X weights (w : world F) m V :
  mean_ (self w) = Some m → components_ (self w) = Some V →
  wf X → length m = ncols V →
  (ncols X ≠ ncols V → ncols X ≠ 1 →
     (EMPCA.transform X None w).2 = Raise ValueError)
  ∧ (ncols X = 1 →
     EMPCA.transform X weights w
     = EMPCA.transform
         (NDArray (nrows X) (ncols V) (broadcast_to (nrows X) (ncols V) X))
         weights w).
Proof.
  intros Hm HV HX Hl. split.
  - intros Hne Hne1. rewrite (transform_run X None w m V) by done.
    unfold elementwise, as_row. cbn [nrows ncols cells].
    rewrite bdim_one_r. cbn [mbind result_bind]. rewrite Hl.
    unfold bdim. repeat case_decide; try done; try lia.
    cbn [mbind result_bind snd EMPCA._Estep]. unfold dot.
    cbn [nrows ncols transpose]. rewrite decide_False; [done|lia].
  - intros H1. rewrite !(transform_run _ weights w m V) by done.
    assert (elementwise s_sub X (as_row m)
            = elementwise s_sub
                (NDArray (nrows X) (ncols V)
                   (broadcast_to (nrows X) (ncols V) X)) (as_row m)) as ->;
      [|done].
    unfold elementwise, as_row. cbn [nrows ncols cells].
    rewrite !bdim_one_r, H1, Hl, bdim_one_l, bdim_same.
    cbn [mbind result_bind]. do 3 f_equal.
    destruct HX as [Hn Hc].
    unfold broadcast_to at 2. cbn [cells].
    unfold broadcast_to.
    rewrite (stretch_same (nrows X) (stretch (ncols V) <$> cells X))
      by (by rewrite length_fmap).
    rewrite stretch_same by (by rewrite !length_fmap).
    rewrite <-list_fmap_compose. apply Forall_fmap_ext_1.
    eapply Forall_impl; [done|]. intros r Hr. simpl.
    symmetry. apply stretch_same, length_stretch. right. congruence.
Qed.

End lifecycle.

(** * Shapes, and the function [empca] against the class *)

Section shapes.
Context {F : Type} `{!Scalar F} `{!Utils F}.
Implicit Types (X W data coeff eigvec : ndarray F).

Lemma comprehension_Ok_inv {A B} (f : B → result A) xs ys :
  comprehension f xs = Ok ys → Forall2 (λ x y, f x = Ok y) xs ys.
Proof.
  revert ys. induction xs as [|x xs IH]; intros ys; simpl.
  - intros [= <-]. constructor.
  - destruct (f x) as [y|e] eqn:Hy; cbn [mbind result_bind]; [|done].
    destruct (comprehension f xs) as [ys'|e]; cbn [mbind result_bind];
      [|done].
    intros [= <-]. constructor; [done|]. by apply IH.
Qed.

Lemma Estep_weighted_shape data W eigvec coeff :
  solve_weighted_length → 0 < nrows data →
  EMPCA._Estep data (Some W) eigvec = Ok coeff →
  wf coeff ∧ shape coeff = (nrows data, nrows eigvec).
Proof.
  intros Hsolve Hn. unfold EMPCA._Estep.
  destruct (comprehension _ _) as [rows|e] eqn:Hrows;
    cbn [mbind result_bind]; [|done].
  apply comprehension_Ok_inv in Hrows.
  assert (length rows = nrows data) as Hlen.
  { apply Forall2_length in Hrows. by rewrite length_seq in Hrows. }
  assert (Forall (λ r, length r = nrows eigvec) rows) as Hall.
  { eapply Forall2_Forall_r; [done|]. apply Forall_forall.
    intros i _ r Hr.
    destruct (get_row i data) as [di|]; cbn [mbind result_bind] in Hr;
      [|done].
    destruct (get_row i W) as [wi|]; cbn [mbind result_bind] in Hr; [|done].
    by apply Hsolve in Hr. }
  unfold np_array. destruct rows as [|r rows]; [simpl in Hlen; lia|].
  assert (length r = nrows eigvec) as Hr by (by inversion Hall).
  rewrite bool_decide_eq_true_2.
  - intros [= <-]. split; [split; simpl; [done|]|].
    + by rewrite Hr.
    + unfold shape. simpl in *. by rewrite Hlen, Hr.
  - eapply Forall_impl; [done|]. simpl. congruence.
Qed.

Lemma Estep_shape data weights eigvec coeff :
  solve_weighted_length → wf data →
  (∀ W, weights = Some W → 0 < nrows data) →
  EMPCA._Estep data weights eigvec = Ok coeff →
  wf coeff ∧ shape coeff = (nrows data, nrows eigvec).
Proof.
  intros Hsolve Hd Hw HE. destruct weights as [W|].
  - eapply Estep_weighted_shape; eauto.
  - simpl in HE. apply wf_dot in HE; [done|by destruct Hd].
Qed.

Lemma Mstep_shape data weights eigvec coeff eigvec' :
  orthonormalize_keeps_shape →
  wf data → wf coeff → wf eigvec →
  nrows coeff = nrows data → ncols coeff = nrows eigvec →
  ncols eigvec = ncols data →
  (∀ W, weights = Some W → wf W ∧ shape W = shape data) →
  EMPCA._Mstep data weights eigvec coeff = Ok eigvec' →
  wf eigvec' ∧ shape eigvec' = shape eigvec.
Proof.
  intros Horth Hd Hc He Hn Hk Hdd Hw HM.
  pose proof (Mstep_shapes_square data weights coeff eigvec
                Hd Hc He Hn Hk Hdd Hw) as Hshapes.
  unfold EMPCA._Mstep in HM. cbv zeta in HM.
  rewrite (Mstep_loop_by_rows data _ coeff (nrows eigvec) 0 eigvec)
    in HM by (done || lia).
  destruct (Mstep_rows _ _ _ _ _) as [P|e] eqn:HP;
    cbn [mbind result_bind] in HM; [|done].
  injection HM as <-.
  apply Mstep_rows_shape in HP as [HwfP HsP];
    [|done|by apply wf_rows_to|done].
  cbn [rows_to nrows Nat.min] in HsP. injection HsP as HnP HdP.
  destruct He as [Hne Hce].
  rewrite drop_ge by (cbn; lia). rewrite (right_id_L [] (++)).
  destruct HwfP as [HnP' HcP']. split; [|done].
  split; cbn [nrows ncols cells]; [lia|]. by rewrite Hdd, <-HdP.
Qed.

(** The shapes in the loop of [fit_transform]: the basis stays k x d. *)
Lemma em_cycles_shape X_c weights n : ∀ eigvec eigvec',
  orthonormalize_keeps_shape → solve_weighted_length →
  wf X_c → wf eigvec → ncols eigvec = ncols X_c →
  (∀ W, weights = Some W → wf W ∧ shape W = shape X_c ∧ 0 < nrows X_c) →
  em_cycles X_c weights n eigvec = Ok eigvec' →
  wf eigvec' ∧ shape eigvec' = shape eigvec.
Proof.
  induction n as [|n IH]; intros eigvec eigvec' Horth Hsolve HX He Hd Hw;
    simpl.
  - by intros [= <-].
  - destruct (EMPCA._Estep X_c weights eigvec) as [coeff|e] eqn:HE;
      cbn [mbind result_bind]; [|done].
    destruct (EMPCA._Mstep X_c weights eigvec coeff) as [e1|e] eqn:HM;
      cbn [mbind result_bind]; [|done].
    intros Hrest.
    apply Estep_shape in HE as [Hwfc [= Hnc Hkc]];
      [|done|done|intros W HW; by destruct (Hw W HW) as (_ & _ & ?)].
    apply Mstep_shape in HM as [Hwf1 [= Hn1 Hd1]];
      [|done..|intros W HW; by destruct (Hw W HW) as (? & ? & _)].
    apply IH in Hrest as [Hwf' [= Hn' Hd']]; [|done..|congruence|done].
    split; [done|]. unfold shape. congruence.
Qed.

(** The shapes of what a fit returns and stores: for an n x d data
    matrix and k components the coefficients are n x k, [components_] is
    k x d, [mean_] has d entries and the explained variances k. *)
Theorem fit_transform_shapes X weights (w0 w1 : world F) coeff :
  orthonormalize_keeps_shape → random_orthonormal_shape →
  solve_weighted_length →
  wf X →
  (∀ W, weights = Some W → wf W ∧ shape X = shape W ∧ 0 < nrows X) →
  EMPCA.fit_transform X weights w0 = (w1, Ok coeff) →
  let k := n_components (self w0) in
  wf coeff ∧ shape coeff = (nrows X, k)
  ∧ ∃ mean V ev ratio,
      mean_ (self w1) = Some mean ∧ length mean = ncols X
      ∧ components_ (self w1) = Some V ∧ wf V ∧ shape V = (k, ncols X)
      ∧ explained_variance_ (self w1) = Some ev ∧ length ev = k
      ∧ explained_variance_ratio_ (self w1) = Some ratio
      ∧ length ratio = k.
Proof.
  intros Horth Hrand Hsolve HX HW Hfit k.
  destruct (fit_transform_Ok _ _ _ _ _ Hfit)
    as (mean & X_c & e0 & e & g & var
        & Hm & HXc & He0 & Hcyc & HE & Hg & _ & _ & Hs).
  destruct (fit_centres X weights HX) as
    (mean' & X_c' & Hm' & _ & Hl & HXc' & HwfXc & [= HnXc HdXc]).
  { intros W Hw. by destruct (HW W Hw) as (? & ? & _). }
  rewrite Hm in Hm'. injection Hm' as <-.
  rewrite HXc in HXc'. injection HXc' as <-.
  apply Hrand in He0 as [Hwf0 [= Hn0 Hd0]].
  assert (∀ W, weights = Some W
               → wf W ∧ shape W = shape X_c ∧ 0 < nrows X_c) as HW'.
  { intros W Hw. destruct (HW W Hw) as (? & ? & ?).
    split_and!; [done|unfold shape in *; congruence|lia]. }
  apply em_cycles_shape in Hcyc as [Hwfe [= Hne Hde]];
    [|done..|congruence|done].
  apply Estep_shape in HE as [Hwfc [= Hnc Hkc]];
    [|done|done|intros W Hw; by destruct (HW' W Hw) as (_ & _ & ?)].
  assert (length (diagonal g) = k) as Hlg.
  { unfold dot in Hg. case_decide; [|done]. injection Hg as <-.
    unfold diagonal. rewrite length_fmap, length_seq.
    cbn [nrows ncols transpose]. subst k. lia. }
  split; [done|]. split; [unfold shape; subst k; congruence|].
  rewrite Hs. cbn [mean_ components_ explained_variance_
                     explained_variance_ratio_].
  eexists _, _, _, _. split_and!; try done.
  - unfold shape. subst k. congruence.
  - unfold div_count. by rewrite length_fmap.
  - unfold div_count. by rewrite !length_fmap.
Qed.

End shapes.

Section functions_facts.
Context {F : Type} `{!Scalar F} `{!Utils F}.
Implicit Types (X W data coeff eigvec : ndarray F).

Lemma set_row1_full i (v : list F) (a : ndarray F) :
  i < nrows a → length v = ncols a →
  set_row1 i v a = Ok (NDArray (nrows a) (ncols a) (<[i := v]> (cells a))).
Proof.
  intros Hi Hv. unfold set_row1.
  rewrite decide_True by done. rewrite decide_True by (by left).
  by rewrite stretch_same.
Qed.

(** The loop of the function [_Estep] writes into rows i..i+m-1 of
    [coeff] the vectors the comprehension of the method collects. *)
Lemma Estep_function_loop eigvec data W m : ∀ i coeff,
  solve_weighted_length →
  wf coeff → nrows coeff = nrows data → ncols coeff = nrows eigvec →
  i + m ≤ nrows data →
  for_each (λ i coeff,
              di ← get_row i data;
              wi ← get_row i W;
              c ← solve_weighted (transpose eigvec) di wi;
              set_row1 i c coeff)
           (seq i m) coeff
  = rows ← comprehension
             (λ i, di ← get_row i data;
                   wi ← get_row i W;
                   solve_weighted (transpose eigvec) di wi)
             (seq i m);
    Ok (NDArray (nrows coeff) (ncols coeff)
          (take i (cells coeff) ++ rows ++ drop (i + m) (cells coeff))).
Proof.
  induction m as [|m IH]; intros i coeff Hsolve Hwf Hn Hk Him.
  - cbn [seq for_each comprehension mbind result_bind app].
    rewrite Nat.add_0_r, take_drop. by destruct coeff.
  - cbn [seq for_each comprehension].
    destruct (get_row i data) as [di|e]; cbn [mbind result_bind]; [|done].
    destruct (get_row i W) as [wi|e]; cbn [mbind result_bind]; [|done].
    destruct (solve_weighted (transpose eigvec) di wi) as [v|e] eqn:Hv;
      cbn [mbind result_bind]; [|done].
    apply Hsolve in Hv. cbn [ncols transpose] in Hv.
    destruct Hwf as [Hlen Hrows].
    rewrite set_row1_full by (lia || congruence). cbn [mbind result_bind].
    rewrite IH; cbn [nrows ncols cells]; [|done| |done|done|lia].
    + destruct (comprehension _ (seq (S i) m)) as [rows|e];
        cbn [mbind result_bind]; [|done].
      do 2 f_equal.
      rewrite take_S_insert by lia.
      rewrite drop_insert_lt by lia.
      rewrite <-(assoc_L (++)). cbn [app].
      by replace (S i + m) with (i + S m) by lia.
    + split; cbn [nrows ncols cells]; [by rewrite length_insert|].
      apply Forall_insert; [done|congruence].
Qed.

(** With weights, at least one sample and a coefficient array of the
    right shape to write into, the function [_Estep] returns what the
    method [EMPCA._Estep] returns. *)
Lemma Estep_function_agrees eigvec data W coeff :
  solve_weighted_length →
  wf coeff → nrows coeff = nrows data → ncols coeff = nrows eigvec →
  0 < nrows data →
  _Estep eigvec data W coeff = EMPCA._Estep data (Some W) eigvec.
Proof.
  intros Hsolve Hwf Hn Hk Hpos. unfold _Estep, EMPCA._Estep.
  rewrite Estep_function_loop by (done || lia).
  destruct (comprehension _ _) as [rows|e] eqn:Hrows;
    cbn [mbind result_bind]; [|done].
  apply comprehension_Ok_inv in Hrows.
  assert (length rows = nrows data) as Hlen.
  { apply Forall2_length in Hrows. by rewrite length_seq in Hrows. }
  assert (Forall (λ r, length r = nrows eigvec) rows) as Hall.
  { eapply Forall2_Forall_r; [done|]. apply Forall_forall.
    intros i _ r Hr.
    destruct (get_row i data) as [di|]; cbn [mbind result_bind] in Hr;
      [|done].
    destruct (get_row i W) as [wi|]; cbn [mbind result_bind] in Hr; [|done].
    by apply Hsolve in Hr. }
  destruct Hwf as [Hlc _].
  rewrite take_0, drop_ge by lia. cbn [app]. rewrite (right_id_L [] (++)).
  unfold np_array. destruct rows as [|r rows]; [simpl in Hlen; lia|].
  assert (length r = nrows eigvec) as Hr by (by inversion Hall).
  rewrite bool_decide_eq_true_2
    by (eapply Forall_impl; [done|]; simpl; congruence).
  do 2 f_equal; congruence.
Qed.

(** The loop of [empca] goes through the bases of the loop of
    [fit_transform]. *)
Lemma empca_cycles_agree {B} data W (xs : list B) : ∀ e c,
  orthonormalize_keeps_shape → solve_weighted_length →
  wf data → wf W → shape W = shape data → 0 < nrows data →
  wf e → ncols e = ncols data →
  wf c → nrows c = nrows data → ncols c = nrows e →
  match em_cycles data (Some W) (length xs) e with
  | Ok e' =>
      ∃ c', for_each (λ _ ec, c ← _Estep ec.1 data W ec.2;
                              e ← _Mstep ec.1 data W c;
                              Ok (e, c)) xs (e, c) = Ok (e', c')
            ∧ wf c' ∧ nrows c' = nrows data ∧ ncols c' = nrows e'
            ∧ wf e' ∧ shape e' = shape e
  | Raise ex =>
      for_each (λ _ ec, c ← _Estep ec.1 data W ec.2;
                        e ← _Mstep ec.1 data W c;
                        Ok (e, c)) xs (e, c) = Raise ex
  end.
Proof.
  induction xs as [|x xs IH];
    intros e c Horth Hsolve Hd HW Hs Hpos He Hed Hc Hcn Hck.
  - cbn [length em_cycles for_each]. exists c. by split_and!.
  - cbn [length em_cycles for_each fst snd].
    rewrite Estep_function_agrees by done.
    destruct (EMPCA._Estep data (Some W) e) as [c1|ex] eqn:HE;
      cbn [mbind result_bind]; [|done].
    apply Estep_weighted_shape in HE as [Hwfc1 [= Hn1 Hk1]]; [|done..].
    change (_Mstep e data W c1) with (EMPCA._Mstep data (Some W) e c1).
    destruct (EMPCA._Mstep data (Some W) e c1) as [e1|ex] eqn:HM;
      cbn [mbind result_bind]; [|done].
    apply Mstep_shape in HM as [Hwf1 [= Hne1 Hde1]];
      [|done..|by intros ? [= <-]].
    specialize (IH e1 c1).
    destruct (em_cycles data (Some W) (length xs) e1) as [e'|ex].
    + destruct IH as (c' & Hrun & ? & ? & ? & ? & [= ? ?]);
        [done..|congruence|done|done|congruence|].
      exists c'. split_and!; try done. unfold shape. congruence.
    + apply IH; (done || congruence).
Qed.

(** With a seed, weights of the shape of X, at least one sample and no
    more components than features, [fit_transform] computes what the
    function [empca] computes with that seed on the data minus its
    weighted mean: the same coefficients are returned, [components_] is
    the basis [empca] returns, and the same phases are entered; or both
    raise the same exception. (Without a seed the two calls draw
    different starts.) *)
Theorem fit_transform_agrees_with_empca X W (w0 : world F) :
  orthonormalize_keeps_shape → random_orthonormal_shape →
  solve_weighted_length →
  wf X → wf W → shape X = shape W → 0 < nrows X →
  n_components (self w0) ≤ ncols X →
  is_Some (random_state (self w0)) →
  let o := self w0 in
  let X_c := NDArray (nrows X) (ncols X)
               ((λ x, zip_with s_sub x (weighted_mean X W)) <$> cells X) in
  let run := EMPCA.fit_transform X (Some W) w0 in
  let run' := empca X_c W (n_components o) (max_iter o) (random_state o) w0 in
  match run.2, run'.2 with
  | Ok coeff, Ok (eigvec', coeff') =>
      coeff = coeff' ∧ components_ (self run.1) = Some eigvec'
      ∧ trace run.1 = trace run'.1
  | Raise e, Raise e' => e = e'
  | _, _ => False
  end.
Proof.
  intros Horth Hrand Hsolve HX HW Hs Hpos Hk _ o X_c run run'.
  destruct (fit_centres X (Some W) HX)
    as (mean & X_c' & Hm & -> & Hl & HXc & HwfXc & [= HnXc HdXc]).
  { by intros ? [= <-]. }
  assert (X_c' = X_c) as ->.
  { rewrite elementwise_row_r in HXc by done. by injection HXc as <-. }
  assert (shape X_c = shape W) as Hs' by done.
  destruct (empca_value X_c W (n_components o) (max_iter o) (random_state o)
              w0 Hs' Hk) as [tr Hrun'].
  destruct (fit_transform_values X (Some W) w0) as [Hv Ho].
  cbv zeta in Hv, Ho. fold o in Hv, Ho. fold run in Hv, Ho.
  assert (trace_eq : ∀ w1 c w1' ec,
            run = (w1, Ok c) → run' = (w1', Ok ec) → trace w1 = trace w1').
  { intros w1 c w1' [e' c'] H1 H2.
    apply fit_transform_Ok in H1
      as (? & ? & ? & ? & ? & ? & _ & _ & _ & _ & _ & _ & _ & Ht & _).
    apply empca_Ok in H2 as (_ & _ & _ & Ht' & _). by rewrite Ht, Ht'. }
  assert (run'.2 = (e0 ← random_orthonormal (n_components o) (ncols X_c)
                           (random_state o);
                    ec ← for_each (λ _ ec, c ← _Estep ec.1 X_c W ec.2;
                                           e ← _Mstep ec.1 X_c W c;
                                           Ok (e, c))
                           (seq 0 (max_iter o))
                           (e0, np_zeros (nrows X_c) (n_components o));
                    c ← _Estep ec.1 X_c W ec.2;
                    Ok (ec.1, c))) as Hv'.
  { subst run'. by rewrite Hrun'. }
  destruct run as [w1 r] eqn:Erun. destruct run' as [w1' r'] eqn:Erun'.
  cbn [fst snd] in *. clear Hrun'.
  unfold fit_values in Hv, Ho. rewrite Hm in Hv, Ho.
  cbn [mbind result_bind] in Hv, Ho. rewrite HXc in Hv, Ho.
  cbn [mbind result_bind] in Hv, Ho.
  change (ncols X_c) with (ncols X) in Hv'.
  destruct (random_orthonormal (n_components o) (ncols X) (random_state o))
    as [e0|ex] eqn:He0; cbn [mbind result_bind fmap result_fmap] in *;
    [|by subst].
  apply Hrand in He0 as [Hwf0 [= Hn0 Hd0]].
  pose proof (empca_cycles_agree X_c W (seq 0 (max_iter o)) e0
                (np_zeros (nrows X_c) (n_components o))) as Hcyc.
  rewrite length_seq in Hcyc.
  destruct (em_cycles X_c (Some W) (max_iter o) e0) as [e|ex];
    cbn [mbind result_bind fmap result_fmap] in *.
  - destruct Hcyc as (c' & Hloop & Hwfc' & Hnc' & Hkc' & Hwfe & _);
      [done..|unfold shape in *; congruence|done|done|done| | |done|].
    { split; cbn; [by rewrite length_replicate|].
      apply Forall_replicate. by rewrite length_replicate. }
    { done. }
    rewrite Hloop in Hv'. cbn [mbind result_bind fst snd] in Hv'.
    rewrite Estep_function_agrees in Hv' by done.
    destruct (EMPCA._Estep X_c (Some W) e) as [c|ex];
      cbn [mbind result_bind fmap result_fmap] in *; [|by subst].
    destruct (gram_Ok c) as [g Hg]. rewrite Hg in Hv, Ho.
    destruct (var0_Ok X_c HwfXc) as [var Hvar]. rewrite Hvar in Hv, Ho.
    cbn [mbind result_bind fmap result_fmap snd] in *. subst r r'.
    split_and!; [done| |by eapply trace_eq].
    by rewrite (Ho _ _ eq_refl).
  - rewrite Hcyc in Hv';
      [|done..|unfold shape in *; congruence|done|done|done| | |done].
    + by subst.
    + split; cbn; [by rewrite length_replicate|].
      apply Forall_replicate. by rewrite length_replicate.
    + done.
Qed.

End functions_facts.

(** * The contracts at the helpers on IEEE binary64 *)

Module float64_contracts.
Import float64 float64_facts.

Lemma length_draws n : ∀ s, length (draws n s) = n.
Proof. induction n as [|n IH]; intros s; simpl; [done|]. by rewrite IH. Qed.

Lemma reshape_rows {A} k d : ∀ l : list A,
  length l = k * d → Forall (λ r, length r = d) (reshape (replicate k d) l).
Proof.
  induction k as [|k IH]; intros l Hl; simpl; [done|].
  constructor.
  - rewrite length_take. simpl in Hl. lia.
  - apply IH. rewrite length_drop. simpl in Hl. lia.
Qed.

Lemma wf_randn seed k d : wf (randn seed k d).
Proof.
  split; simpl.
  - by rewrite length_reshape, length_replicate.
  - apply reshape_rows. by rewrite length_draws.
Qed.

Lemma random_orthonormal_unchecked_shape :
  @random_orthonormal_shape float scalar utils.
Proof.
  intros k d seed e. simpl. unfold random_orthonormal_with.
  case_decide; [|done]. intros He.
  by apply orthonormalize_unchecked_keeps_shape in He;
    [|apply wf_randn].
Qed.

Lemma length_eliminate c rows rows' :
  eliminate c rows = Ok rows' → length rows' = length rows.
Proof.
  unfold eliminate. destruct (list_find _ _) as [[k rp]|]; [|done].
  intros [= <-]. by rewrite length_imap, !length_insert.
Qed.

Lemma length_eliminations cs : ∀ rows rows',
  for_each eliminate cs rows = Ok rows' → length rows' = length rows.
Proof.
  induction cs as [|c cs IH]; intros rows rows'; simpl.
  - by intros [= <-].
  - destruct (eliminate c rows) as [rows1|e] eqn:H1;
      cbn [mbind result_bind]; [|done].
    intros H. apply IH in H. apply length_eliminate in H1. congruence.
Qed.

Lemma solve_weighted_normal_length :
  @solve_weighted_length float scalar utils.
Proof.
  intros A x w c. simpl. unfold solve_weighted_normal, gauss_jordan.
  case_decide; [|done].
  destruct (for_each _ _ _) as [rows'|e] eqn:H1; [|done].
  intros [= <-]. apply length_eliminations in H1.
  rewrite length_fmap, H1. unfold normal_equations.
  by rewrite length_fmap; cbn; rewrite length_fmap, length_seq.
Qed.

End float64_contracts.

(** * The further theorems at concrete inputs *)

Section more_witnesses.
Import float64 float64_facts float64_contracts examples.

Local Ltac by_evaluation :=
  first
    [ vm_compute; reflexivity
    | refine (bool_decide_unpack _ _); vm_compute; exact I ].

Lemma transform_after_fit_witness :
  ∃ w1 coeff,
    EMPCA.fit_transform X3 (Some W3) (fresh 1 3) = (w1, Ok coeff)
    ∧ EMPCA.transform X3 (Some W3) w1
      = (World (self w1) (trace w1 ++ [E_step]), Ok coeff)
    ∧ (EMPCA.reconstruct X3 (Some W3) w1).2
      = (EMPCA.fit_reconstruct X3 (Some W3) (fresh 1 3)).2.
Proof.
  eexists _, _. split; [vm_compute; reflexivity|].
  refine (let H' := transform_after_fit (F:=float) X3 (Some W3) (fresh 1 3)
                      _ _ _ in
          conj (proj1 H')
               (proj1 (proj2 (proj2 H') (ex_intro _ 1 eq_refl)))).
  vm_compute; reflexivity.
Defined.

Lemma unfitted_raises_witness :
  EMPCA.inverse_transform X3 (fresh 1 3) = (fresh 1 3, Raise AttributeError).
Proof.
  refine (proj1 (unfitted_raises (F:=float) X3 None (fresh 1 3) _)).
  reflexivity.
Defined.

Lemma failed_fit_keeps_old_basis_witness :
  ∃ w1 coeff,
    EMPCA.fit_transform X3 None (fresh 1 3) = (w1, Ok coeff)
    ∧ let w1' := World (Build_EMPCA 3 3 (Some 1) (mean_ (self w1))
                          (components_ (self w1))
                          (explained_variance_ (self w1))
                          (explained_variance_ratio_ (self w1))) [] in
      (EMPCA.fit_transform X3 (Some W3) w1').2 = Raise DimensionError
      ∧ components_ (self (EMPCA.fit_transform X3 (Some W3) w1').1)
        = components_ (self w1).
Proof.
  eexists _, _. split; [vm_compute; reflexivity|].
  intros w1'. split; [vm_compute; reflexivity|].
  refine (proj1 (proj2 (failed_fit_keeps_old_basis (F:=float) X3 (Some W3)
                          w1' DimensionError _ _ _))).
  - by_evaluation.
  - intros W [= <-]. split_and!; [by_evaluation..|vm_compute; lia].
  - vm_compute; reflexivity.
Defined.

Lemma inverse_transform_rows_witness :
  let w := World (Build_EMPCA 1 3 None (Some [1; 2]%float)
                    (Some (NDArray 1 2 [[0; 1]]%float)) None None) [] in
  EMPCA.inverse_transform (NDArray 2 1 [[3]; [4]]%float) w
  = (w, Ok (NDArray 2 2 [[1; 5]; [1; 6]]%float)).
Proof.
  intros w.
  refine (eq_trans
            (inverse_transform_rows (F:=float) (NDArray 2 1 [[3]; [4]]%float)
               w [1; 2]%float (NDArray 1 2 [[0; 1]]%float) _ _ _ _) _);
    by_evaluation.
Defined.

Lemma transform_feature_count_witness :
  let w := World (Build_EMPCA 1 3 None (Some [1; 2]%float)
                    (Some (NDArray 1 2 [[0; 1]]%float)) None None) [] in
  EMPCA.transform (NDArray 2 1 [[3]; [4]]%float) None w
  = EMPCA.transform (NDArray 2 2 [[3; 3]; [4; 4]]%float) None w.
Proof.
  intros w.
  refine (eq_trans
            (proj2 (transform_feature_count (F:=float)
                      (NDArray 2 1 [[3]; [4]]%float) None w [1; 2]%float
                      (NDArray 1 2 [[0; 1]]%float) _ _ _ _) _) _);
    by_evaluation.
Defined.

Lemma fit_transform_shapes_witness :
  ∃ w1 coeff,
    EMPCA.fit_transform X3 (Some W3) (fresh 1 3) = (w1, Ok coeff)
    ∧ wf coeff ∧ shape coeff = (3, 1).
Proof.
  eexists _, _. split; [vm_compute; reflexivity|].
  refine (let H' := fit_transform_shapes (F:=float) X3 (Some W3) (fresh 1 3)
                      _ _ orthonormalize_unchecked_keeps_shape
                      random_orthonormal_unchecked_shape
                      solve_weighted_normal_length _ _ _ in
          conj (proj1 H') (proj1 (proj2 H'))).
  - by_evaluation.
  - intros W [= <-]. split_and!; [by_evaluation..|vm_compute; lia].
  - vm_compute; reflexivity.
Defined.

Lemma fit_transform_agrees_with_empca_witness :
  let X_c := NDArray 3 2
               ((λ x, zip_with s_sub x (weighted_mean X3 W3)) <$> cells X3) in
  match (EMPCA.fit_transform X3 (Some W3) (fresh 1 3)).2,
        (empca X_c W3 1 3 (Some 1) (fresh 1 3)).2 with
  | Ok coeff, Ok (eigvec', coeff') => coeff = coeff'
  | Raise e, Raise e' => e = e'
  | _, _ => False
  end.
Proof.
  intros X_c.
  pose proof (fit_transform_agrees_with_empca (F:=float) X3 W3 (fresh 1 3)
                orthonormalize_unchecked_keeps_shape
                random_orthonormal_unchecked_shape
                solve_weighted_normal_length
                ltac:(by_evaluation) ltac:(by_evaluation)
                ltac:(by_evaluation) ltac:(vm_compute; lia)
                ltac:(vm_compute; lia) (ex_intro _ 1 eq_refl)) as H'.
  cbv zeta in H'.
  change (NDArray (nrows X3) (ncols X3) _) with X_c in H'.
  change (n_components (self (fresh 1 3))) with 1 in H'.
  change (max_iter (self (fresh 1 3))) with 3 in H'.
  change (random_state (self (fresh 1 3))) with (Some 1) in H'.
  destruct ((EMPCA.fit_transform X3 (Some W3) (fresh 1 3)).2);
    destruct ((empca X_c W3 1 3 (Some 1) (fresh 1 3)).2) as [[??]|];
    try done. by destruct H'.
Defined.

End more_witnesses.

(** * Features without a weighted observation *)

Module float64_zero_weight.
Import float64.

(** The floats that compare equal to zero are the two zeros. *)
Lemma eqb_zero (x : float) :
  PrimFloat.eqb x 0 = true → x = 0%float ∨ x = neg_zero.
Proof.
  intros H. rewrite FloatAxioms.eqb_spec in H.
  rewrite <-(SF2Prim_Prim2SF x).
  destruct (FloatOps.Prim2SF x) as [[|]| [|] | |[|] m e]; vm_compute in H;
    try discriminate; [by right|by left].
Qed.

Lemma vsum_zeros n : vsum (replicate n 0%float) = 0%float.
Proof.
  destruct n as [|n]; [done|]. simpl.
  induction n as [|n IH]; [done|]. simpl.
  by change (0 + 0)%float with 0%float.
Qed.

Lemma foldl_add_zeros (ws : list float) : ∀ a,
  a = 0%float ∨ a = neg_zero →
  Forall (λ w, PrimFloat.eqb w 0 = true) ws →
  foldl PrimFloat.add a ws = 0%float ∨ foldl PrimFloat.add a ws = neg_zero.
Proof.
  induction ws as [|w ws IH]; intros a Ha Hws; [done|]. simpl.
  apply Forall_cons in Hws as [Hw Hws]. apply eqb_zero in Hw.
  apply IH; [|done].
  destruct Ha as [-> | ->], Hw as [-> | ->]; vm_compute; auto.
Qed.

Lemma vsum_zero_weights (ws : list float) :
  Forall (λ w, PrimFloat.eqb w 0 = true) ws →
  vsum ws = 0%float ∨ vsum ws = neg_zero.
Proof.
  destruct ws as [|w ws]; [by left|]. intros H.
  apply Forall_cons in H as [Hw Hws]. simpl.
  apply foldl_add_zeros; [by apply eqb_zero|done].
Qed.

Lemma masked_zero_weights (xs ws : list float) :
  Forall (λ w, PrimFloat.eqb w 0 = true) ws →
  zip_with masked_product xs ws
  = replicate (length xs `min` length ws) 0%float.
Proof.
  revert ws. induction xs as [|x xs IH]; intros [|w ws] H; simpl; [done..|].
  apply Forall_cons in H as [Hw Hws].
  unfold masked_product at 1. simpl. rewrite Hw. by rewrite IH.
Qed.

(** A feature whose weights are all zero gets the mean NaN: the masked
    products add up to 0 and so do the weights, and [fit_transform]
    divides the one by the other. *)
Theorem zero_weight_feature_mean_nan (X W : ndarray float) (j : nat)
    (w0 : world float) :
  wf X → wf W → shape X = shape W → j < ncols X →
  (∀ i, i < nrows X → s_is_zero (entry W i j) = true) →
  ∃ mean,
    mean_ (self (EMPCA.fit_transform X (Some W) w0).1) = Some mean
    ∧ mean !! j = Some nan.
Proof.
  intros HX HW Hs Hj Hzero.
  exists (weighted_mean X W). split.
  { apply fit_transform_stores_mean. by apply fit_mean_weighted. }
  unfold weighted_mean. rewrite list_lookup_fmap, lookup_seq_lt by done.
  simpl. f_equal.
  assert (Forall (λ w, PrimFloat.eqb w 0 = true) (column j W)) as Hall.
  { rewrite column_entries by done. apply Forall_fmap, Forall_forall.
    intros i Hi. apply elem_of_seq in Hi. simpl. apply Hzero.
    injection Hs as Hn _. lia. }
  rewrite masked_zero_weights by done. rewrite vsum_zeros.
  destruct (vsum_zero_weights _ Hall) as [-> | ->]; reflexivity.
Qed.

End float64_zero_weight.

(** * The phases of a call that raises *)


Section phases.
Context {F : Type} `{!Scalar F} `{!Utils F}.
Implicit Types (X X_c eigvec : ndarray F) (w : world F).

Lemma enters_bind {A B} ps qs (m : M F A) (f : A → M F B) :
  enters ps m → (∀ a, enters qs (f a)) → enters (ps ++ qs) (m ≫= f).
Proof.
  intros Hm Hf w. destruct (Hm w) as (t & Ht & Hp & Hok).
  unfold mbind, ST_bind. destruct (m w) as [w1 [a|e]]; simpl in *.
  - rewrite (Hok a eq_refl) in Ht.
    destruct (Hf a w1) as (t' & Ht' & Hp' & Hok').
    exists (ps ++ t'). split_and!.
    + by rewrite Ht', Ht, (assoc_L (++)).
    + by apply prefix_app.
    + intros b Hb. by rewrite (Hok' b Hb).
  - exists t. split_and!; [done| |done].
    by apply prefix_app_r.
Qed.

Lemma enters_silent {A} (m : M F A) :
  (∀ w, trace (m w).1 = trace w) → enters [] m.
Proof.
  intros H w. exists []. by rewrite H, (right_id_L [] (++)).
Qed.

Lemma enters_enter p : enters [p] (enter (F:=F) p).
Proof. intros w. by exists [p]. Qed.

Lemma enters_lift {A} (r : result A) : enters [] (lift r : M F A).
Proof. by apply enters_silent. Qed.

Lemma enters_em_cycle X_c weights eigvec :
  enters [E_step; M_step] (EMPCA.em_cycle X_c weights eigvec).
Proof.
  unfold EMPCA.em_cycle.
  apply (enters_bind [E_step] [M_step]); [apply enters_enter|]. intros _.
  apply (enters_bind [] [M_step]); [apply enters_lift|]. intros coeff.
  apply (enters_bind [M_step] []); [apply enters_enter|]. intros _.
  apply enters_lift.
Qed.

Lemma enters_empca_cycle data weights ec :
  enters [E_step; M_step] (empca_cycle data weights ec).
Proof.
  unfold empca_cycle.
  apply (enters_bind [E_step] [M_step]); [apply enters_enter|]. intros _.
  apply (enters_bind [] [M_step]); [apply enters_lift|]. intros coeff.
  apply (enters_bind [M_step] []); [apply enters_enter|]. intros _.
  apply (enters_bind [] []); [apply enters_lift|]. intros e.
  by apply enters_silent.
Qed.

Lemma enters_for_eachM {A B} ps (body : B → A → M F A) xs :
  (∀ x acc, enters ps (body x acc)) →
  ∀ acc, enters (concat (replicate (length xs) ps)) (for_eachM body xs acc).
Proof.
  intros Hb. induction xs as [|x xs IH]; intros acc; simpl.
  - by apply enters_silent.
  - apply enters_bind; [apply Hb|apply IH].
Qed.

Lemma enters_set_self f : enters [] (set_self (F:=F) f).
Proof. by apply enters_silent. Qed.

Lemma enters_getattr {A} (g : EMPCA F (ndarray F) → option A) :
  enters [] (getattr g).
Proof.
  apply enters_silent. intros w. unfold getattr. by destruct (g (self w)).
Qed.

Lemma enters_ret {A} (a : A) : enters [] (mret a : M F A).
Proof. by apply enters_silent. Qed.

(** [fit_transform] from its loop on. *)
Lemma enters_fit_loop X X_c weights n e0 :
  enters (fixed_budget n)
    (eigvec ← for_eachM (λ _ eigvec, EMPCA.em_cycle X_c weights eigvec)
                (seq 0 n) e0;
     enter E_step;;
     coeff ← lift (EMPCA._Estep X_c weights eigvec);
     set_self (set_components_ eigvec);;
     g ← lift (dot (transpose coeff) coeff);
     let ev := div_count (diagonal g) (nrows X) in
     set_self (set_explained_variance_ ev);;
     ev ← getattr explained_variance_;
     var ← lift (var0 X_c);
     set_self (set_explained_variance_ratio_
                 ((λ x, s_div x (vsum var)) <$> ev));;
     mret coeff).
Proof.
  unfold fixed_budget. apply enters_bind.
  - pose proof (enters_for_eachM [E_step; M_step]
                  (λ _ e, EMPCA.em_cycle X_c weights e) (seq 0 n)
                  (λ _ e, enters_em_cycle X_c weights e) e0) as H.
    by rewrite length_seq in H.
  - intros eigvec.
    apply (enters_bind [E_step] []); [apply enters_enter|]. intros _.
    apply (enters_bind [] []); [apply enters_lift|]. intros coeff.
    apply (enters_bind [] []); [apply enters_set_self|]. intros _.
    apply (enters_bind [] []); [apply enters_lift|]. intros g.
    apply (enters_bind [] []); [apply enters_set_self|]. intros _.
    apply (enters_bind [] []); [apply enters_getattr|]. intros ev.
    apply (enters_bind [] []); [apply enters_lift|]. intros var.
    apply (enters_bind [] []); [apply enters_set_self|]. intros _.
    apply enters_ret.
Qed.

(** [empca] from its loop on. *)
Lemma enters_empca_loop data weights n ec0 :
  enters (fixed_budget n)
    (ec ← for_eachM (λ _ ec, empca_cycle data weights ec) (seq 0 n) ec0;
     enter E_step;;
     coeff ← lift (_Estep ec.1 data weights ec.2);
     mret (ec.1, coeff)).
Proof.
  unfold fixed_budget. apply enters_bind.
  - pose proof (enters_for_eachM [E_step; M_step]
                  (λ _ ec, empca_cycle data weights ec) (seq 0 n)
                  (λ _ ec, enters_empca_cycle data weights ec) ec0) as H.
    by rewrite length_seq in H.
  - intros ec.
    apply (enters_bind [E_step] []); [apply enters_enter|]. intros _.
    apply (enters_bind [] []); [apply enters_lift|]. intros coeff.
    apply enters_ret.
Qed.

(** Whether it returns or raises, a call of [fit_transform] or [empca]
    has entered an initial part of the sequence of phases of a complete
    run: never more than [max_iter] ([niter]) M-steps, each after its
    E-step. *)
Theorem phases_within_budget :
  (∀ X weights (w0 : world F),
     ∃ t, trace (EMPCA.fit_transform X weights w0).1 = trace w0 ++ t
          ∧ t `prefix_of` fixed_budget (max_iter (self w0)))
  ∧ (∀ data weights nvec niter seed (w0 : world F),
       ∃ t, trace (empca data weights nvec niter seed w0).1 = trace w0 ++ t
            ∧ t `prefix_of` fixed_budget niter).
Proof.
  assert (∀ (w0 : world F) ps,
            ∃ t, trace w0 = trace w0 ++ t ∧ t `prefix_of` ps) as Hnone.
  { intros w0 ps. exists []. split; [by rewrite (right_id_L [] (++))|].
    apply prefix_nil. }
  split.
  - intros X weights w0. unfold EMPCA.fit_transform.
    rewrite run_lift.
    destruct (EMPCA.fit_mean X weights) as [mean|ex]; [|apply Hnone].
    rewrite run_set_self, run_lift.
    destruct (elementwise s_sub X (as_row mean)) as [X_c|ex];
      [|apply (Hnone (World _ (trace w0)))].
    rewrite run_get_self, run_lift.
    destruct (random_orthonormal _ _ _) as [e0|ex];
      [|apply (Hnone (World _ (trace w0)))].
    rewrite run_get_self. cbn [self set_mean_ max_iter].
    destruct (enters_fit_loop X X_c weights (max_iter (self w0)) e0
                (World (set_mean_ mean (self w0)) (trace w0)))
      as (t & Ht & Hp & _).
    exists t. split; [exact Ht|exact Hp].
  - intros data weights nvec niter seed w0. unfold empca.
    destruct (decide (shape data = shape weights)); [|apply Hnone].
    destruct (decide (nvec ≤ ncols data)); [|apply Hnone].
    rewrite !run_ret, run_lift.
    destruct (random_orthonormal _ _ _) as [e0|ex]; [|apply Hnone].
    destruct (enters_empca_loop data weights niter
                (e0, np_zeros (nrows data) nvec) w0) as (t & Ht & Hp & _).
    exists t. split; [exact Ht|exact Hp].
Qed.

End phases.

Section witnesses_2.
Import float64 float64_zero_weight examples.

Local Ltac by_evaluation :=
  first
    [ vm_compute; reflexivity
    | refine (bool_decide_unpack _ _); vm_compute; exact I ].

Lemma zero_weight_feature_mean_nan_witness :
  ∃ mean,
    mean_ (self (EMPCA.fit_transform X3
                   (Some (NDArray 3 2 [[1; 0]; [1; 0]; [1; neg_zero]]%float))
                   (fresh 1 3)).1) = Some mean
    ∧ mean !! 1 = Some nan.
Proof.
  refine (zero_weight_feature_mean_nan X3
            (NDArray 3 2 [[1; 0]; [1; 0]; [1; neg_zero]]%float) 1 (fresh 1 3)
            _ _ _ _ _); [by_evaluation..|].
  intros [|[|[|i]]] Hi; [vm_compute; reflexivity..|vm_compute in Hi; lia].
Defined.

End witnesses_2.

(** * The arrays returned are not the basis of the estimator *)

Section alias_facts.
Context {F : Type} `{!Scalar F} `{!Utils F}.
Implicit Types (σ : store F) (l : loc).

Lemma load_inv σ σ' l a :
  load l σ = (σ', Ok a) → σ' = σ ∧ heap σ !! l = Some a.
Proof.
  unfold load. destruct (heap σ !! l) as [b|]; [|done]. by intros [= <- <-].
Qed.

Lemma store_lift_inv {A} (r : result A) σ σ' a :
  lift r σ = (σ', Ok a) → σ' = σ ∧ r = Ok a.
Proof. unfold lift. by intros [= -> ->]. Qed.

Lemma getattr_this_inv {A} (g : EMPCA F loc → option A) σ σ' a :
  getattr_this g σ = (σ', Ok a) → σ' = σ ∧ g (this σ) = Some a.
Proof.
  unfold getattr_this. destruct (g (this σ)); [|done]. by intros [= <- <-].
Qed.

Lemma load_opt_inv σ σ' ol w :
  load_opt ol σ = (σ', Ok w) → σ' = σ.
Proof.
  destruct ol as [l|]; simpl; [|by intros [= <-]].
  intros H. apply bind_Ok_inv in H as (a & σ1 & H1 & H).
  apply load_inv in H1 as [-> _]. by injection H as <-.
Qed.

(** The E-step reads the basis and returns a new object. *)
Lemma Estep_store_inv σ σ' data weights eigvec l :
  InStore._Estep data weights eigvec σ = (σ', Ok l) →
  is_Some (heap σ !! eigvec) ∧ l = fresh (dom (heap σ)) ∧ this σ' = this σ.
Proof.
  unfold InStore._Estep. intros H.
  apply bind_Ok_inv in H as (d & σ1 & H1 & H). apply load_inv in H1 as [-> _].
  apply bind_Ok_inv in H as (w & σ1 & H1 & H). apply load_opt_inv in H1 as ->.
  apply bind_Ok_inv in H as (e & σ1 & H1 & H).
  apply load_inv in H1 as [-> He].
  apply bind_Ok_inv in H as (r & σ1 & H1 & H).
  apply store_lift_inv in H1 as [-> _].
  unfold alloc in H. injection H as <- <-. by split_and!.
Qed.

Lemma transform_store_inv σ σ' X weights l :
  InStore.transform X weights σ = (σ', Ok l) →
  this σ' = this σ ∧ ∃ lc, components_ (this σ) = Some lc ∧ lc ≠ l.
Proof.
  unfold InStore.transform. intros H.
  apply bind_Ok_inv in H as (x & σ1 & H1 & H). apply load_inv in H1 as [-> _].
  apply bind_Ok_inv in H as (m & σ1 & H1 & H).
  apply getattr_this_inv in H1 as [-> _].
  apply bind_Ok_inv in H as (xc & σ1 & H1 & H).
  apply store_lift_inv in H1 as [-> _].
  rewrite run_alloc in H.
  apply bind_Ok_inv in H as (lc & σ1 & H1 & H).
  apply getattr_this_inv in H1 as [-> Hc].
  apply Estep_store_inv in H as ([e He] & -> & Ht).
  split; [done|]. exists lc. split; [done|]. by eapply alloc_new_ne.
Qed.

Lemma inverse_transform_store_inv σ σ' Y l :
  InStore.inverse_transform Y σ = (σ', Ok l) →
  this σ' = this σ ∧ ∃ lc, components_ (this σ) = Some lc ∧ lc ≠ l.
Proof.
  unfold InStore.inverse_transform. intros H.
  apply bind_Ok_inv in H as (m & σ1 & H1 & H).
  apply getattr_this_inv in H1 as [-> _].
  apply bind_Ok_inv in H as (x & σ1 & H1 & H). apply load_inv in H1 as [-> _].
  apply bind_Ok_inv in H as (lc & σ1 & H1 & H).
  apply getattr_this_inv in H1 as [-> Hc].
  apply bind_Ok_inv in H as (c & σ1 & H1 & H).
  apply load_inv in H1 as [-> Hlc].
  apply bind_Ok_inv in H as (p & σ1 & H1 & H).
  apply store_lift_inv in H1 as [-> _].
  apply bind_Ok_inv in H as (r & σ1 & H1 & H).
  apply store_lift_inv in H1 as [-> _].
  unfold alloc in H. injection H as <- <-.
  split; [done|]. exists lc. split; [done|]. by eapply alloc_new_ne.
Qed.

(** A fit that returns has read X and the weights. *)
Lemma fit_transform_store_reads σ X weights l :
  (InStore.fit_transform X weights σ).2 = Ok l →
  ∃ x w, heap σ !! X = Some x ∧ deref_opt σ weights = Some w.
Proof.
  destruct (InStore.fit_transform X weights σ) as [σ' r] eqn:H.
  simpl. intros ->. unfold InStore.fit_transform in H.
  apply bind_Ok_inv in H as (m & σ1 & H1 & _).
  destruct weights as [lw|].
  - apply bind_Ok_inv in H1 as (x & σ2 & Hx & H1).
    apply load_inv in Hx as [-> Hx].
    apply bind_Ok_inv in H1 as (W & σ2 & HW & _).
    apply load_inv in HW as [-> HW].
    exists x, (Some W). split; [done|]. simpl. by rewrite HW.
  - apply bind_Ok_inv in H1 as (x & σ2 & Hx & _).
    apply load_inv in Hx as [-> Hx]. by exists x, None.
Qed.

Lemma fit_transform_store_inv σ X weights l :
  (InStore.fit_transform X weights σ).2 = Ok l →
  ∃ lc, components_ (this (InStore.fit_transform X weights σ).1) = Some lc
        ∧ lc ≠ l.
Proof.
  intros Hl.
  destruct (fit_transform_store_reads σ X weights l Hl)
    as (x & w & Hx & Hw).
  pose proof (fit_transform_store σ X weights x w Hx Hw) as H.
  cbv zeta in H. rewrite Hl in H.
  destruct (fit_values x w _ _ _) as [[o' c]|]; [|done].
  by destruct H as (_ & _ & ?).
Qed.

(** The array a method returns is never the array object [components_]
    is bound to: writing into a returned array cannot change the fitted
    basis. *)
Theorem returned_array_is_not_the_basis (σ : store F) (X : loc)
    (weights : option loc) :
  let distinct (m : ST (store F) loc) :=
    ∀ l, (m σ).2 = Ok l →
         ∃ lc, components_ (this (m σ).1) = Some lc ∧ lc ≠ l in
  distinct (InStore.fit_transform X weights)
  ∧ distinct (InStore.transform X weights)
  ∧ distinct (InStore.inverse_transform X)
  ∧ distinct (InStore.reconstruct X weights)
  ∧ distinct (InStore.fit_reconstruct X weights).
Proof.
  intros distinct. subst distinct. cbv beta. split_and!.
  - apply fit_transform_store_inv.
  - intros l Hl.
    destruct (InStore.transform X weights σ) as [σ' r] eqn:H.
    simpl in *. subst r. apply transform_store_inv in H as (-> & ?). done.
  - intros l Hl.
    destruct (InStore.inverse_transform X σ) as [σ' r] eqn:H.
    simpl in *. subst r.
    apply inverse_transform_store_inv in H as (-> & ?). done.
  - intros l Hl.
    destruct (InStore.reconstruct X weights σ) as [σ' r] eqn:H.
    simpl in *. subst r. unfold InStore.reconstruct in H.
    apply bind_Ok_inv in H as (Y & σ1 & H1 & H).
    apply transform_store_inv in H1 as (Ht & _).
    apply inverse_transform_store_inv in H as (-> & lc & Hc & Hne).
    by exists lc.
  - intros l Hl.
    destruct (InStore.fit_reconstruct X weights σ) as [σ' r] eqn:H.
    simpl in *. subst r. unfold InStore.fit_reconstruct in H.
    apply bind_Ok_inv in H as (Y & σ1 & H1 & H).
    apply inverse_transform_store_inv in H as (-> & lc & Hc & Hne).
    by exists lc.
Qed.

End alias_facts.

Section witnesses_3.
Import float64 examples.

Lemma returned_array_is_not_the_basis_witness :
  ∃ l lc,
    (InStore.fit_transform 1%positive (Some 2%positive) caller_store).2 = Ok l
    ∧ components_ (this (InStore.fit_transform 1%positive (Some 2%positive)
                           caller_store).1) = Some lc
    ∧ lc ≠ l.
Proof.
  pose proof (returned_array_is_not_the_basis (F:=float) caller_store
                1%positive (Some 2%positive)) as H.
  cbv zeta beta in H. destruct H as [H _].
  assert (∃ l, (InStore.fit_transform 1%positive (Some 2%positive)
                  caller_store).2 = Ok l) as [l Hl]
    by (eexists; vm_compute; reflexivity).
  destruct (H l Hl) as (lc & Hc & Hne).
  exact (ex_intro _ l (ex_intro _ lc (conj Hl (conj Hc Hne)))).
Defined.

End witnesses_3.

(** * Data without samples *)

Module float64_empty.
Import float64.

(** Fitted on data without a sample, [fit_transform] does not raise
    where it computes the mean: every entry of [mean_] is the quotient
    0/0, NaN, with and without weights. *)
Theorem empty_data_mean_nan (X : ndarray float)
    (weights : option (ndarray float)) (w0 : world float) :
  wf X → nrows X = 0 →
  (∀ W, weights = Some W → wf W ∧ shape X = shape W) →
  mean_ (self (EMPCA.fit_transform X weights w0).1)
  = Some (replicate (ncols X) nan).
Proof.
  intros HX Hn HW.
  assert (cells X = []) as HcX.
  { destruct HX as [Hl _]. apply nil_length_inv. lia. }
  apply fit_transform_stores_mean. destruct weights as [W|].
  - destruct (HW W eq_refl) as [HwfW Hs].
    rewrite fit_mean_weighted by done. f_equal.
    assert (cells W = []) as HcW.
    { destruct HwfW as [Hl _]. apply nil_length_inv.
      injection Hs as Hn' _. lia. }
    unfold weighted_mean, column. rewrite HcX, HcW. simpl.
    by rewrite const_seq.
  - rewrite fit_mean_plain by done. f_equal.
    unfold column_mean, column. rewrite HcX, Hn. simpl.
    by rewrite const_seq.
Qed.

End float64_empty.

(** * The E-step, sample by sample *)

Section batches.
Context {F : Type} `{!Scalar F} `{!Utils F}.
Implicit Types (A B V : ndarray F) (m : list F).

Lemma comprehension_app {X Y} (f : X → result Y) xs ys :
  comprehension f (xs ++ ys)
  = a ← comprehension f xs; b ← comprehension f ys; Ok (a ++ b).
Proof.
  induction xs as [|x xs IH]; simpl.
  - by destruct (comprehension f ys).
  - destruct (f x) as [y|e]; cbn [mbind result_bind]; [|done].
    rewrite IH. destruct (comprehension f xs) as [a|e];
      cbn [mbind result_bind]; [|done].
    by destruct (comprehension f ys).
Qed.

Lemma comprehension_ext {X Y} (f g : X → result Y) xs :
  (∀ x, x ∈ xs → f x = g x) → comprehension f xs = comprehension g xs.
Proof.
  induction xs as [|x xs IH]; intros H; simpl; [done|].
  rewrite H by left. rewrite IH; [done|]. intros y Hy. apply H. by right.
Qed.

Lemma comprehension_fmap {X Y Z} (f : X → result Y) (g : Z → X) zs :
  comprehension f (g <$> zs) = comprehension (f ∘ g) zs.
Proof.
  induction zs as [|z zs IH]; [done|].
  rewrite fmap_cons. cbn [comprehension]. by rewrite IH.
Qed.

Lemma get_row_vstack_l A B i :
  i < length (cells A) → get_row i (vstack A B) = get_row i A.
Proof.
  intros Hi. unfold get_row, vstack. cbn [cells].
  by rewrite lookup_app_l.
Qed.

Lemma get_row_vstack_r A B i :
  get_row (length (cells A) + i) (vstack A B) = get_row i B.
Proof.
  unfold get_row, vstack. cbn [cells].
  rewrite lookup_app_r by lia.
  by replace (length (cells A) + i - length (cells A)) with i by lia.
Qed.

(** The method [_Estep] on stacked samples is the stack of its results
    on the parts. *)
Lemma Estep_vstack A B (weights : option (ndarray F * ndarray F)) V :
  wf A → wf B → ncols A = ncols B →
  (∀ WA WB, weights = Some (WA, WB) →
     solve_weighted_length ∧ 0 < nrows A ∧ 0 < nrows B
     ∧ length (cells WA) = nrows A) →
  EMPCA._Estep (vstack A B)
    ((λ W : ndarray F * ndarray F, vstack W.1 W.2) <$> weights) V
  = cA ← EMPCA._Estep A (fst <$> weights) V;
    cB ← EMPCA._Estep B (snd <$> weights) V;
    Ok (vstack cA cB).
Proof.
  intros [HnA HcA] [HnB HcB] Hd HW. destruct weights as [[WA WB]|].
  - destruct (HW WA WB eq_refl) as (Hsolve & HpA & HpB & HWA).
    cbn [fmap option_fmap option_map fst snd].
    unfold EMPCA._Estep. cbn [nrows vstack].
    rewrite seq_app, comprehension_app. cbn [plus].
    rewrite (comprehension_ext _
               (λ i, di ← get_row i A; wi ← get_row i WA;
                     solve_weighted (transpose V) di wi) (seq 0 (nrows A))).
    2:{ intros i Hi. apply elem_of_seq in Hi.
        rewrite get_row_vstack_l by lia.
        change (NDArray _ _ (cells WA ++ cells WB)) with (vstack WA WB).
        by rewrite get_row_vstack_l by lia. }
    replace (seq (nrows A) (nrows B))
      with (Nat.add (nrows A) <$> seq 0 (nrows B))
      by (rewrite fmap_add_seq; f_equal; lia).
    rewrite comprehension_fmap.
    rewrite (comprehension_ext _
               (λ i, di ← get_row i B; wi ← get_row i WB;
                     solve_weighted (transpose V) di wi) (seq 0 (nrows B))).
    2:{ intros i Hi. simpl.
        change (NDArray _ _ (cells A ++ cells B)) with (vstack A B).
        change (NDArray _ _ (cells WA ++ cells WB)) with (vstack WA WB).
        rewrite <-HnA at 1. rewrite get_row_vstack_r.
        rewrite <-HWA. by rewrite get_row_vstack_r. }
    destruct (comprehension _ (seq 0 (nrows A))) as [a|e] eqn:Ha;
      cbn [mbind result_bind]; [|done].
    pose proof Ha as Ha'. apply comprehension_Ok_inv in Ha'.
    assert (length a = nrows A) as Hla.
    { apply Forall2_length in Ha'. by rewrite length_seq in Ha'. }
    assert (Forall (λ r, length r = nrows V) a) as Hall_a.
    { eapply Forall2_Forall_r; [done|]. apply Forall_forall.
      intros i _ r Hr.
      destruct (get_row i A) as [di|]; cbn [mbind result_bind] in Hr;
        [|done].
      destruct (get_row i WA) as [wi|]; cbn [mbind result_bind] in Hr;
        [|done].
      by apply Hsolve in Hr. }
    assert (np_array a = Ok (NDArray (nrows A) (nrows V) a)) as HnpA.
    { unfold np_array. destruct a as [|r a]; [simpl in Hla; lia|].
      assert (length r = nrows V) as Hr by (by inversion Hall_a).
      rewrite bool_decide_eq_true_2
        by (eapply Forall_impl; [done|]; simpl; congruence).
      do 2 f_equal; congruence. }
    rewrite HnpA. cbn [mbind result_bind].
    destruct (comprehension _ (seq 0 (nrows B))) as [b|e] eqn:Hb;
      cbn [mbind result_bind]; [|done].
    pose proof Hb as Hb'. apply comprehension_Ok_inv in Hb'.
    assert (length b = nrows B) as Hlb.
    { apply Forall2_length in Hb'. by rewrite length_seq in Hb'. }
    assert (Forall (λ r, length r = nrows V) b) as Hall_b.
    { eapply Forall2_Forall_r; [done|]. apply Forall_forall.
      intros i _ r Hr.
      destruct (get_row i B) as [di|]; cbn [mbind result_bind] in Hr;
        [|done].
      destruct (get_row i WB) as [wi|]; cbn [mbind result_bind] in Hr;
        [|done].
      by apply Hsolve in Hr. }
    assert (np_array b = Ok (NDArray (nrows B) (nrows V) b)) as HnpB.
    { unfold np_array. destruct b as [|r b]; [simpl in Hlb; lia|].
      assert (length r = nrows V) as Hr by (by inversion Hall_b).
      rewrite bool_decide_eq_true_2
        by (eapply Forall_impl; [done|]; simpl; congruence).
      do 2 f_equal; congruence. }
    rewrite HnpB. cbn [mbind result_bind].
    unfold np_array. destruct a as [|r a]; [simpl in Hla; lia|].
    assert (length r = nrows V) as Hr by (by inversion Hall_a).
    cbn [app]. rewrite bool_decide_eq_true_2.
    + unfold vstack. cbn [nrows ncols cells app].
      do 2 f_equal; [|done].
      change (r :: a ++ b) with ((r :: a) ++ b). rewrite length_app. lia.
    + change (r :: a ++ b) with ((r :: a) ++ b). apply Forall_app.
      split; (eapply Forall_impl; [done|]; simpl; congruence).
  - cbn [fmap option_fmap option_map EMPCA._Estep].
    unfold dot. cbn [nrows ncols cells vstack transpose]. rewrite <-Hd.
    case_decide; cbn [mbind result_bind]; [|done].
    unfold vstack. cbn [nrows ncols cells]. by rewrite fmap_app.
Qed.

(** [transform] treats the samples one by one: on a batch made of the
    rows of A followed by the rows of B (weights stacked alike) it
    returns the rows it returns for A followed by those it returns for
    B, or raises what the first of the two calls to raise raises. *)
Theorem transform_sample_by_sample A B
    (weights : option (ndarray F * ndarray F)) (w : world F) m V :
  mean_ (self w) = Some m → components_ (self w) = Some V →
  wf A → wf B → ncols A = length m → ncols B = length m →
  (∀ WA WB, weights = Some (WA, WB) →
     solve_weighted_length ∧ 0 < nrows A ∧ 0 < nrows B
     ∧ wf WA ∧ nrows WA = nrows A) →
  (EMPCA.transform (vstack A B)
     ((λ W : ndarray F * ndarray F, vstack W.1 W.2) <$> weights) w).2
  = cA ← (EMPCA.transform A (fst <$> weights) w).2;
    cB ← (EMPCA.transform B (snd <$> weights) w).2;
    Ok (vstack cA cB).
Proof.
  intros Hm HV HA HB HdA HdB HW.
  assert (wf (vstack A B)) as HAB.
  { destruct HA as [HnA HcA], HB as [HnB HcB]. split; cbn.
    - rewrite length_app. lia.
    - apply Forall_app. split; [done|].
      eapply Forall_impl; [done|]. simpl. congruence. }
  rewrite !(transform_run _ _ w m V) by done.
  rewrite !elementwise_row_r by done. cbn [snd].
  set (centre (X : ndarray F) :=
         NDArray (nrows X) (ncols X)
           ((λ x, zip_with s_sub x m) <$> cells X)).
  change (NDArray (nrows (vstack A B)) _ _) with (centre (vstack A B)).
  change (NDArray (nrows A) _ _) with (centre A).
  change (NDArray (nrows B) _ _) with (centre B).
  assert (centre (vstack A B) = vstack (centre A) (centre B)) as ->.
  { unfold centre, vstack. cbn [nrows ncols cells]. by rewrite fmap_app. }
  apply Estep_vstack.
  - by apply wf_row_r.
  - by apply wf_row_r.
  - cbn. congruence.
  - intros WA WB Hw. destruct (HW WA WB Hw) as (? & ? & ? & [? _] & ?).
    split_and!; [done..|]. cbn. congruence.
Qed.

End batches.

Section witnesses_4.
Import float64 float64_contracts float64_empty examples.

Local Ltac by_evaluation :=
  first
    [ vm_compute; reflexivity
    | refine (bool_decide_unpack _ _); vm_compute; exact I ].

Lemma empty_data_mean_nan_witness :
  mean_ (self (EMPCA.fit_transform (NDArray 0 2 []) None (fresh 1 3)).1)
  = Some [nan; nan].
Proof.
  refine (empty_data_mean_nan (NDArray 0 2 []) None (fresh 1 3) _ _ _);
    [by_evaluation|reflexivity|].
  intros W [=].
Defined.

Lemma transform_sample_by_sample_witness :
  let w := World (Build_EMPCA 1 3 None (Some [1; 2]%float)
                    (Some (NDArray 1 2 [[0; 1]]%float)) None None) [] in
  let A := NDArray 1 2 [[3; 4]]%float in
  let B := NDArray 2 2 [[5; 6]; [7; 8]]%float in
  let WA := NDArray 1 2 [[1; 1]]%float in
  let WB := NDArray 2 2 [[1; 2]; [2; 1]]%float in
  (EMPCA.transform (vstack A B) (Some (vstack WA WB)) w).2
  = cA ← (EMPCA.transform A (Some WA) w).2;
    cB ← (EMPCA.transform B (Some WB) w).2;
    Ok (vstack cA cB).
Proof.
  intros w A B WA WB.
  refine (transform_sample_by_sample (F:=float) A B (Some (WA, WB)) w
            [1; 2]%float (NDArray 1 2 [[0; 1]]%float) _ _ _ _ _ _ _);
    [by_evaluation..|].
  intros ? ? [= <- <-].
  split; [exact solve_weighted_normal_length|].
  split_and!; [vm_compute; lia|vm_compute; lia|by_evaluation|reflexivity].
Defined.

End witnesses_4.

(** * The M-step with unit weights *)

Section unit_weights.
Context {F : Type} `{!Scalar F} `{!Utils F}.
Implicit Types (data coeff eigvec updated : ndarray F).

Lemma wf_np_ones n d : wf (np_ones n d : ndarray F).
Proof.
  split; cbn; [by rewrite length_replicate|].
  apply Forall_replicate. by rewrite length_replicate.
Qed.

Lemma column_np_ones n d j :
  j < d → column j (np_ones n d : ndarray F) = replicate n s_one.
Proof.
  intros Hj. unfold column, np_ones. cbn [cells].
  rewrite fmap_replicate. by rewrite lookup_replicate_2.
Qed.

Lemma wls_row_unit_weights data coeff updated :
  s_mul s_one s_one = s_one → wf data → wf coeff →
  nrows coeff = nrows data →
  wls_row data (Some (square (np_ones (nrows data) (ncols data))))
    coeff updated
  = wls_row data None coeff updated.
Proof.
  intros H1 Hd Hc Hn. unfold wls_row. apply list_fmap_ext.
  intros k j Hj. apply lookup_seq in Hj as [-> Hj]. simpl.
  rewrite column_square by (apply wf_np_ones || done).
  rewrite column_np_ones by done. rewrite fmap_replicate, H1.
  unfold wls_entry.
  destruct Hd as [Hld _], Hc as [Hlc _].
  rewrite !zip_with_replicate_l; [done| |].
  - rewrite length_column. lia.
  - unfold residual_column. rewrite length_zip_with, length_column. lia.
Qed.

Lemma Mstep_rows_unit_weights data coeff m : ∀ updated,
  s_mul s_one s_one = s_one → wf data → wf coeff →
  nrows coeff = nrows data →
  Mstep_rows data (Some (square (np_ones (nrows data) (ncols data))))
    coeff m updated
  = Mstep_rows data None coeff m updated.
Proof.
  induction m as [|m IH]; intros updated H1 Hd Hc Hn; simpl; [done|].
  rewrite wls_row_unit_weights by done.
  destruct (orthonormalize _) as [o|e]; cbn [mbind result_bind]; [|done].
  by apply IH.
Qed.

(** Without weights the M-step computes what it computes with every
    weight equal to 1: the factor [w2 = 1] of the code stands for the
    matrix of squared unit weights. The one fact of arithmetic used is
    that 1 * 1 is 1. *)
Theorem Mstep_unit_weights data eigvec coeff :
  s_mul s_one s_one = s_one →
  orthonormalize_keeps_shape →
  wf data → wf coeff → wf eigvec →
  nrows coeff = nrows data → ncols coeff = nrows eigvec →
  ncols eigvec = ncols data →
  EMPCA._Mstep data (Some (np_ones (nrows data) (ncols data))) eigvec coeff
  = EMPCA._Mstep data None eigvec coeff.
Proof.
  intros H1 Horth Hd Hc He Hn Hk Hdd. unfold EMPCA._Mstep. cbv zeta.
  rewrite !(Mstep_loop_by_rows data _ coeff (nrows eigvec) 0 eigvec);
    [|done| |lia|done| |lia].
  - cbn [fmap option_fmap option_map].
    by rewrite Mstep_rows_unit_weights.
  - apply (Mstep_shapes_square data None); try done.
  - apply (Mstep_shapes_square data (Some (np_ones _ _))); try done.
    intros ? [= <-]. split; [apply wf_np_ones|done].
Qed.

End unit_weights.

Section witnesses_5.
Import float64 float64_facts examples.

Local Ltac by_evaluation :=
  first
    [ vm_compute; reflexivity
    | refine (bool_decide_unpack _ _); vm_compute; exact I ].

Lemma Mstep_unit_weights_witness :
  EMPCA._Mstep D2 (Some (np_ones 2 2)) E2 C2 = EMPCA._Mstep D2 None E2 C2.
Proof.
  refine (Mstep_unit_weights (F:=float) D2 E2 C2 _
            orthonormalize_unchecked_keeps_shape _ _ _ _ _ _);
    by_evaluation.
Defined.

End witnesses_5.

(** * The function [empca] on array objects *)

Section functions_store.
Context {F : Type} `{!Scalar F} `{!Utils F}.
Implicit Types (σ : store F) (l : loc).

(** One pass of the loop of the function [_Estep]. *)
Lemma Estep_fn_body_runs σ eigvec data weights coeff i E D W C :
  heap σ !! eigvec = Some E → heap σ !! data = Some D →
  heap σ !! weights = Some W → heap σ !! coeff = Some C →
  ∃ σ',
    (E ← load eigvec;
     D ← load data;
     di ← lift (get_row i D);
     W ← load weights;
     wi ← lift (get_row i W);
     c ← lift (solve_weighted (transpose E) di wi);
     write coeff (set_row1 i c)) σ
    = (σ', (λ _, ()) <$> (di ← get_row i D;
                          wi ← get_row i W;
                          c ← solve_weighted (transpose E) di wi;
                          set_row1 i c C))
    ∧ this σ' = this σ
    ∧ unchanged_except coeff σ σ'
    ∧ is_Some (heap σ' !! coeff)
    ∧ ∀ C', (di ← get_row i D;
             wi ← get_row i W;
             c ← solve_weighted (transpose E) di wi;
             set_row1 i c C) = Ok C' →
            heap σ' !! coeff = Some C'.
Proof.
  intros HE HD HW HC.
  rewrite (run_load σ eigvec E), (run_load σ data D) by done.
  rewrite run_lift.
  destruct (get_row i D) as [di|ex]; cbn [mbind result_bind fmap result_fmap].
  2:{ exists σ. split_and!; [done|done| |by eauto|done].
      apply unchanged_except_refl. }
  rewrite (run_load σ weights W) by done. rewrite run_lift.
  destruct (get_row i W) as [wi|ex]; cbn [mbind result_bind fmap result_fmap].
  2:{ exists σ. split_and!; [done|done| |by eauto|done].
      apply unchanged_except_refl. }
  rewrite run_lift.
  destruct (solve_weighted (transpose E) di wi) as [c|ex];
    cbn [mbind result_bind fmap result_fmap].
  2:{ exists σ. split_and!; [done|done| |by eauto|done].
      apply unchanged_except_refl. }
  rewrite (run_write_last σ coeff C) by done.
  destruct (set_row1 i c C) as [C'|ex]; cbn [fmap result_fmap].
  - exists (overwrite coeff C' σ).1. split_and!; [done|done| | |].
    + apply unchanged_except_overwrite.
    + rewrite overwrite_lookup. by eauto.
    + intros ? [= <-]. apply overwrite_lookup.
  - exists σ. split_and!; [done|done| |by eauto|done].
    apply unchanged_except_refl.
Qed.

Lemma Estep_fn_loop_runs eigvec data weights coeff E D W xs : ∀ σ C,
  heap σ !! eigvec = Some E → heap σ !! data = Some D →
  heap σ !! weights = Some W → heap σ !! coeff = Some C →
  coeff ≠ eigvec → coeff ≠ data → coeff ≠ weights →
  ∃ σ',
    for_eachM (λ i _,
                 E ← load eigvec;
                 D ← load data;
                 di ← lift (get_row i D);
                 W ← load weights;
                 wi ← lift (get_row i W);
                 c ← lift (solve_weighted (transpose E) di wi);
                 write coeff (set_row1 i c)) xs () σ
    = (σ', (λ _, ()) <$>
             for_each (λ i C, di ← get_row i D;
                              wi ← get_row i W;
                              c ← solve_weighted (transpose E) di wi;
                              set_row1 i c C) xs C)
    ∧ this σ' = this σ
    ∧ unchanged_except coeff σ σ'
    ∧ is_Some (heap σ' !! coeff)
    ∧ ∀ C', for_each (λ i C, di ← get_row i D;
                             wi ← get_row i W;
                             c ← solve_weighted (transpose E) di wi;
                             set_row1 i c C) xs C = Ok C' →
            heap σ' !! coeff = Some C'.
Proof.
  induction xs as [|i xs IH]; intros σ C HE HD HW HC Hce Hcd Hcw.
  - exists σ. simpl. split_and!; [done|done| |by eauto|by intros ? [= <-]].
    apply unchanged_except_refl.
  - destruct (Estep_fn_body_runs σ eigvec data weights coeff i E D W C)
      as (σ1 & Hrun & Ht1 & Hu1 & Hs1 & HC1); [done..|].
    cbn [for_eachM for_each].
    destruct (di ← get_row i D;
              wi ← get_row i W;
              c ← solve_weighted (transpose E) di wi;
              set_row1 i c C) as [C1|ex];
      cbn [fmap result_fmap mbind result_bind] in *.
    + rewrite (bind_run _ _ _ _ _ Hrun).
      destruct (IH σ1 C1) as (σ2 & Hrun2 & Ht2 & Hu2 & Hs2 & HC2);
        [by apply Hu1|by apply Hu1|by apply Hu1|by apply HC1|done..|].
      exists σ2. split_and!; [done|congruence| |done|done].
      by eapply unchanged_except_trans.
    + rewrite (bind_raise _ _ _ _ _ Hrun). exists σ1. by split_and!.
Qed.

(** The function [_Estep] writes into the object [coeff] what it returns
    on values, and into nothing else. *)
Lemma Estep_fn_runs σ eigvec data weights coeff E D W C :
  heap σ !! eigvec = Some E → heap σ !! data = Some D →
  heap σ !! weights = Some W → heap σ !! coeff = Some C →
  coeff ≠ eigvec → coeff ≠ data → coeff ≠ weights →
  ∃ σ',
    InStore_functions._Estep eigvec data weights coeff σ
    = (σ', (λ _, coeff) <$> _Estep E D W C)
    ∧ this σ' = this σ
    ∧ unchanged_except coeff σ σ'
    ∧ is_Some (heap σ' !! coeff)
    ∧ ∀ C', _Estep E D W C = Ok C' → heap σ' !! coeff = Some C'.
Proof.
  intros HE HD HW HC Hce Hcd Hcw. unfold InStore_functions._Estep, _Estep.
  rewrite (run_load σ data D) by done.
  destruct (Estep_fn_loop_runs eigvec data weights coeff E D W
              (seq 0 (nrows D)) σ C)
    as (σ1 & Hrun & Ht1 & Hu1 & Hs1 & HC1); [done..|].
  exists σ1. split_and!; [|done..].
  destruct (for_each _ _ C) as [C'|ex]; cbn [fmap result_fmap] in *.
  - by rewrite (bind_run _ _ _ _ _ Hrun).
  - by rewrite (bind_raise _ _ _ _ _ Hrun).
Qed.

(** The function [_Mstep] is the method's M-step with these weights. *)
Lemma Mstep_fn_method σ eigvec data weights coeff :
  InStore_functions._Mstep eigvec data weights coeff σ
  = InStore._Mstep data (Some weights) eigvec coeff σ.
Proof.
  unfold InStore_functions._Mstep, InStore._Mstep, mbind, ST_bind.
  destruct (load weights σ) as [σ1 [Wv|ex]]; [|done].
  reflexivity.
Qed.

(** One pass of the loop of [empca]: both objects end with the arrays of
    the pass on values, and no other object that was there has changed. *)
Lemma empca_fn_cycle_runs σ eigvec data weights coeff E D W C :
  heap σ !! eigvec = Some E → heap σ !! data = Some D →
  heap σ !! weights = Some W → heap σ !! coeff = Some C →
  eigvec ≠ data → eigvec ≠ weights → eigvec ≠ coeff →
  coeff ≠ data → coeff ≠ weights →
  ∃ σ',
    (InStore_functions._Estep eigvec data weights coeff;;
     InStore_functions._Mstep eigvec data weights coeff;;
     mret ()) σ
    = (σ', (λ _, ()) <$> (c ← _Estep E D W C;
                          e ← _Mstep E D W c;
                          Ok (e, c)))
    ∧ this σ' = this σ
    ∧ (∀ l a, l ≠ eigvec → l ≠ coeff →
              heap σ !! l = Some a → heap σ' !! l = Some a)
    ∧ ∀ E' C', (c ← _Estep E D W C;
                e ← _Mstep E D W c;
                Ok (e, c)) = Ok (E', C') →
               heap σ' !! eigvec = Some E' ∧ heap σ' !! coeff = Some C'.
Proof.
  intros HE HD HW HC Hed Hew Hec Hcd Hcw.
  destruct (Estep_fn_runs σ eigvec data weights coeff E D W C)
    as (σ1 & Hrun1 & Ht1 & Hu1 & _ & HC1); [done..|].
  destruct (_Estep E D W C) as [C1|ex];
    cbn [fmap result_fmap mbind result_bind] in *.
  2:{ rewrite (bind_raise _ _ _ _ _ Hrun1). exists σ1.
      split_and!; [done|done| |done].
      intros l a _ Hl. by apply Hu1. }
  rewrite (bind_run _ _ _ _ _ Hrun1).
  destruct (Mstep_runs σ1 data (Some weights) eigvec coeff D (Some W) C1 E)
    as (σ2 & Hrun2 & Ht2 & Hu2 & _ & HE2).
  { by apply Hu1. }
  { by apply HC1. }
  { by apply Hu1. }
  { simpl. by rewrite (Hu1 weights W). }
  { done. }
  { done. }
  { congruence. }
  rewrite <-Mstep_fn_method in Hrun2.
  change (EMPCA._Mstep D (Some W) E C1) with (_Mstep E D W C1) in *.
  destruct (_Mstep E D W C1) as [E1|ex];
    cbn [fmap result_fmap mbind result_bind] in *.
  - rewrite (bind_run _ _ _ _ _ Hrun2). exists σ2.
    split_and!; [done|congruence| |].
    + intros l a Hl1 Hl2 Hl. by apply Hu2, Hu1.
    + intros ? ? [= <- <-]. split; [by apply HE2|].
      apply Hu2; [done|]. by apply HC1.
  - rewrite (bind_raise _ _ _ _ _ Hrun2). exists σ2.
    split_and!; [done|congruence| |done].
    intros l a Hl1 Hl2 Hl. by apply Hu2, Hu1.
Qed.

Lemma empca_fn_loop_runs {B} eigvec data weights coeff D W (xs : list B) :
  ∀ σ E C,
  heap σ !! eigvec = Some E → heap σ !! data = Some D →
  heap σ !! weights = Some W → heap σ !! coeff = Some C →
  eigvec ≠ data → eigvec ≠ weights → eigvec ≠ coeff →
  coeff ≠ data → coeff ≠ weights →
  ∃ σ',
    for_eachM (λ _ _,
                 InStore_functions._Estep eigvec data weights coeff;;
                 InStore_functions._Mstep eigvec data weights coeff;;
                 mret ()) xs () σ
    = (σ', (λ _, ()) <$>
             for_each (λ _ ec, c ← _Estep ec.1 D W ec.2;
                               e ← _Mstep ec.1 D W c;
                               Ok (e, c)) xs (E, C))
    ∧ this σ' = this σ
    ∧ (∀ l a, l ≠ eigvec → l ≠ coeff →
              heap σ !! l = Some a → heap σ' !! l = Some a)
    ∧ ∀ E' C', for_each (λ _ ec, c ← _Estep ec.1 D W ec.2;
                                 e ← _Mstep ec.1 D W c;
                                 Ok (e, c)) xs (E, C) = Ok (E', C') →
               heap σ' !! eigvec = Some E' ∧ heap σ' !! coeff = Some C'.
Proof.
  induction xs as [|x xs IH];
    intros σ E C HE HD HW HC Hed Hew Hec Hcd Hcw.
  - exists σ. simpl. split_and!; [done|done|done|]. by intros ? ? [= <- <-].
  - destruct (empca_fn_cycle_runs σ eigvec data weights coeff E D W C)
      as (σ1 & Hrun1 & Ht1 & Hu1 & H1); [done..|].
    cbn [for_eachM for_each fst snd].
    destruct (c ← _Estep E D W C; e ← _Mstep E D W c; Ok (e, c))
      as [[E1 C1]|ex]; cbn [fmap result_fmap mbind result_bind] in *.
    + rewrite (bind_run _ _ _ _ _ Hrun1).
      destruct (H1 E1 C1 eq_refl) as [HE1 HC1].
      destruct (IH σ1 E1 C1) as (σ2 & Hrun2 & Ht2 & Hu2 & H2);
        [done|by apply Hu1|by apply Hu1|done..|].
      exists σ2. split_and!; [done|congruence| |done].
      intros l a Hl1 Hl2 Hl. by apply Hu2, Hu1.
    + rewrite (bind_raise _ _ _ _ _ Hrun1). exists σ1. by split_and!.
Qed.

(** The function [empca] drops what [_Estep] and [_Mstep] return and
    relies on their writing into the two arrays it created. Called with
    array objects for the data and the weights (the same object will do),
    it raises what it raises on their values, or returns two new objects,
    distinct from one another, that hold the basis and the coefficients
    it returns on values. Either way the estimator and every array
    object that was there, the data and the weights among them, are as
    before. *)
Theorem empca_in_store σ data weights D W nvec niter seed (w0 : world F) :
  heap σ !! data = Some D → heap σ !! weights = Some W →
  let run := InStore_functions.empca data weights nvec niter seed σ in
  this run.1 = this σ
  ∧ (∀ l a, heap σ !! l = Some a → heap run.1 !! l = Some a)
  ∧ match run.2, (empca D W nvec niter seed w0).2 with
    | Ok (le, lc), Ok (e, c) =>
        heap run.1 !! le = Some e ∧ heap run.1 !! lc = Some c
        ∧ le ≠ lc ∧ heap σ !! le = None ∧ heap σ !! lc = None
    | Raise ex, Raise ex' => ex = ex'
    | _, _ => False
    end.
Proof.
  intros HD HW run. subst run. unfold InStore_functions.empca.
  rewrite (run_load σ data D), (run_load σ weights W) by done.
  destruct (decide (shape D = shape W)) as [Hs|Hs].
  2:{ rewrite run_lift. unfold empca.
      rewrite (decide_False (P:=shape D = shape W)) by done.
      by rewrite run_lift. }
  rewrite run_ret, (run_load σ data D) by done.
  destruct (decide (nvec ≤ ncols D)) as [Hk|Hk].
  2:{ rewrite run_lift. unfold empca.
      rewrite (decide_True (P:=shape D = shape W)), run_ret by done.
      rewrite (decide_False (P:=nvec ≤ ncols D)) by done.
      by rewrite run_lift. }
  destruct (empca_value D W nvec niter seed w0 Hs Hk) as [tr ->].
  rewrite run_ret, (run_load σ data D), run_lift by done.
  destruct (random_orthonormal nvec (ncols D) seed) as [e0|ex];
    cbn [mbind result_bind snd]; [|done].
  rewrite run_alloc.
  pose proof (alloc_lookup_new σ e0) as Hle.
  assert (∀ l a, heap σ !! l = Some a → heap (alloc e0 σ).1 !! l = Some a)
    as Hold1 by (intros l a; apply alloc_lookup_old).
  assert (∀ l a, heap σ !! l = Some a → l ≠ fresh (dom (heap σ)))
    as Hnew1 by (intros l a; apply alloc_new_ne).
  assert (this (alloc e0 σ).1 = this σ) as Ht1 by done.
  assert (heap σ !! fresh (dom (heap σ)) = None) as Hfresh1.
  { apply not_elem_of_dom, is_fresh. }
  revert Hle Hold1 Hnew1 Ht1 Hfresh1.
  generalize (fresh (dom (heap σ))) as le. generalize (alloc e0 σ).1 as σ1.
  intros σ1 le Hle Hold1 Hnew1 Ht1 Hfresh1.
  rewrite (run_load σ1 data D) by (by apply Hold1).
  rewrite run_alloc.
  pose proof (alloc_lookup_new σ1 (np_zeros (nrows D) nvec)) as Hlc.
  assert (∀ l a, heap σ1 !! l = Some a →
                 heap (alloc (np_zeros (nrows D) nvec) σ1).1 !! l = Some a)
    as Hold2 by (intros l a; apply alloc_lookup_old).
  assert (∀ l a, heap σ1 !! l = Some a → l ≠ fresh (dom (heap σ1)))
    as Hnew2 by (intros l a; apply alloc_new_ne).
  assert (this (alloc (np_zeros (nrows D) nvec) σ1).1 = this σ1)
    as Ht2 by done.
  assert (heap σ1 !! fresh (dom (heap σ1)) = None) as Hfresh2.
  { apply not_elem_of_dom, is_fresh. }
  revert Hlc Hold2 Hnew2 Ht2 Hfresh2.
  generalize (fresh (dom (heap σ1))) as lc.
  generalize (alloc (np_zeros (nrows D) nvec) σ1).1 as σ2.
  intros σ2 lc Hlc Hold2 Hnew2 Ht2 Hfresh2.
  assert (heap σ !! lc = None) as Hlc0.
  { destruct (heap σ !! lc) as [a|] eqn:Hl; [|done].
    apply Hold1 in Hl. congruence. }
  assert (le ≠ lc) as Hne by (by eapply Hnew2).
  assert (le ≠ data) as Hed by (intros ->; congruence).
  assert (le ≠ weights) as Hew by (intros ->; congruence).
  assert (lc ≠ data) as Hcd by (intros ->; congruence).
  assert (lc ≠ weights) as Hcw by (intros ->; congruence).
  destruct (empca_fn_loop_runs le data weights lc D W (seq 0 niter) σ2
              e0 (np_zeros (nrows D) nvec))
    as (σ3 & Hrun3 & Ht3 & Hu3 & H3);
    [by apply Hold2|by apply Hold2, Hold1|by apply Hold2, Hold1|done..|].
  assert (∀ l a, heap σ !! l = Some a → heap σ3 !! l = Some a) as Hold3.
  { intros l a Hl. apply Hu3; [|by intros ->; congruence|].
    - eapply Hnew1. done.
    - by apply Hold2, Hold1. }
  destruct (for_each _ _ _) as [[E' C']|ex];
    cbn [fmap result_fmap mbind result_bind fst snd] in *.
  2:{ rewrite (bind_raise _ _ _ _ _ Hrun3). cbn [fst snd].
      split_and!; [congruence|done|done]. }
  rewrite (bind_run _ _ _ _ _ Hrun3).
  destruct (H3 E' C' eq_refl) as [HE' HC'].
  destruct (Estep_fn_runs σ3 le data weights lc E' D W C')
    as (σ4 & Hrun4 & Ht4 & Hu4 & _ & HC4);
    [done|by apply Hold3|by apply Hold3|done|done..|].
  assert (∀ l a, heap σ !! l = Some a → heap σ4 !! l = Some a) as Hold4.
  { intros l a Hl. apply Hu4; [by intros ->; congruence|]. by apply Hold3. }
  destruct (_Estep E' D W C') as [c|ex];
    cbn [fmap result_fmap mbind result_bind fst snd] in *.
  - rewrite (bind_run _ _ _ _ _ Hrun4). cbn [mret ST_ret fst snd].
    split_and!; [congruence|done|by apply Hu4|by apply HC4|done..].
  - rewrite (bind_raise _ _ _ _ _ Hrun4). cbn [fst snd].
    split_and!; [congruence|done|done].
Qed.

End functions_store.

Section witnesses_6.
Import float64 examples.

Lemma empca_in_store_witness :
  ∃ le lc e c,
    (InStore_functions.empca 1%positive 2%positive 1 3 (Some 1)
       caller_store).2 = Ok (le, lc)
    ∧ (empca X3 W3 1 3 (Some 1) (fresh 1 3)).2 = Ok (e, c)
    ∧ heap (InStore_functions.empca 1%positive 2%positive 1 3 (Some 1)
              caller_store).1 !! le = Some e
    ∧ heap (InStore_functions.empca 1%positive 2%positive 1 3 (Some 1)
              caller_store).1 !! lc = Some c
    ∧ le ≠ lc.
Proof.
  pose proof (empca_in_store (F:=float) caller_store 1%positive 2%positive
                X3 W3 1 3 (Some 1) (fresh 1 3)
                ltac:(vm_compute; reflexivity)
                ltac:(vm_compute; reflexivity)) as H.
  cbv zeta in H. destruct H as (_ & _ & H).
  assert (∃ p, (InStore_functions.empca 1%positive 2%positive 1 3 (Some 1)
                  caller_store).2 = Ok p) as [[le lc] Hl]
    by (eexists; vm_compute; reflexivity).
  assert (∃ p, (empca X3 W3 1 3 (Some 1) (fresh 1 3)).2 = Ok p)
    as [[e c] Hv] by (eexists; vm_compute; reflexivity).
  rewrite Hl, Hv in H. destruct H as (He & Hc & Hne & _).
  exact (ex_intro _ le (ex_intro _ lc (ex_intro _ e (ex_intro _ c
           (conj Hl (conj Hv (conj He (conj Hc Hne)))))))).
Defined.

End witnesses_6.
